(** * RSS reader: feed acquisition and normalisation pipeline

    A shallow embedding of [services/rssService.ts] (transport, normaliser,
    feed discovery, remote fallback, orchestrator) and of the article
    bookkeeping of [App.tsx], followed by the properties of the
    specification that concern them.

    JavaScript strings are sequences of UTF-16 code units; the browser
    (DOMParser, fetch, URL, crypto, Unicode case mapping) is an explicit
    [Platform]; asynchronous code runs in a small monad that threads the
    clock, the identifier supply and the request counter, may throw, and
    records the calls it makes. *)

From Stdlib Require Import List NArith Bool Arith Lia String Ascii.
Import ListNotations.

Set Implicit Arguments.

(* ================================================================== *)
(** ** JavaScript strings *)

(** A string is the list of its UTF-16 code units. *)
Definition jsstring := list N.

(** ASCII literal of the source text. *)
Definition lit (s : string) : jsstring :=
  List.map N_of_ascii (list_ascii_of_string s).

(** [a === b] *)
Fixpoint str_eqb (a b : jsstring) : bool :=
  match a, b with
  | [], [] => true
  | c :: a', d :: b' => N.eqb c d && str_eqb a' b'
  | _, _ => false
  end.

(** [s.startsWith(p)] *)
Fixpoint startsWith (s p : jsstring) : bool :=
  match p, s with
  | [], _ => true
  | _ :: _, [] => false
  | c :: p', d :: s' => N.eqb c d && startsWith s' p'
  end.

(** [s.includes(p)] *)
Fixpoint includes (s p : jsstring) : bool :=
  startsWith s p ||
  match s with
  | [] => false
  | _ :: s' => includes s' p
  end.

(** WhiteSpace and LineTerminator code units, the ones [trim] removes. *)
Definition is_space (c : N) : bool :=
  let eq := N.eqb c in
  (eq 9 || eq 10 || eq 11 || eq 12 || eq 13 || eq 32 || eq 160 || eq 5760
   || (N.leb 8192 c && N.leb c 8202)
   || eq 8232 || eq 8233 || eq 8239 || eq 8287 || eq 12288 || eq 65279)%N.

Fixpoint trimStart (s : jsstring) : jsstring :=
  match s with
  | [] => []
  | c :: s' => if is_space c then trimStart s' else s
  end.

Definition trimEnd (s : jsstring) : jsstring := rev (trimStart (rev s)).

(** [s.trim()] *)
Definition trim (s : jsstring) : jsstring := trimEnd (trimStart s).

(** [s.slice(0, n)] *)
Definition slice0 (n : nat) (s : jsstring) : jsstring := firstn n s.

Definition BOM : N := 65279.

(** [text.replace(/^\uFEFF/, '')] *)
Definition strip_bom (s : jsstring) : jsstring :=
  match s with
  | c :: s' => if N.eqb c BOM then s' else s
  | [] => []
  end.

(** Truthiness of a string: only the empty string is falsy. *)
Definition truthy (s : jsstring) : bool :=
  match s with [] => false | _ => true end.

(** [a || b] on strings. *)
Definition or_str (a b : jsstring) : jsstring := if truthy a then a else b.

(** [x?.textContent || d] where [x] may be missing. *)
Definition opt_or (a : option jsstring) (d : jsstring) : jsstring :=
  match a with
  | Some s => or_str s d
  | None => d
  end.

(** Truthiness of a possibly [undefined]/[null] string. *)
Definition opt_truthy (a : option jsstring) : bool :=
  match a with Some s => truthy s | None => false end.

(** ASCII-only case folding, used for attribute selectors of HTML
    documents and by the reference platform. *)
Definition ascii_lower_unit (c : N) : N :=
  if (N.leb 65 c && N.leb c 90)%N then (c + 32)%N else c.

Definition ascii_lower (s : jsstring) : jsstring := List.map ascii_lower_unit s.

(** Decimal rendering of a number inside a template literal. *)
Fixpoint uint_units (u : Decimal.uint) : jsstring :=
  match u with
  | Decimal.Nil => []
  | Decimal.D0 r => 48%N :: uint_units r
  | Decimal.D1 r => 49%N :: uint_units r
  | Decimal.D2 r => 50%N :: uint_units r
  | Decimal.D3 r => 51%N :: uint_units r
  | Decimal.D4 r => 52%N :: uint_units r
  | Decimal.D5 r => 53%N :: uint_units r
  | Decimal.D6 r => 54%N :: uint_units r
  | Decimal.D7 r => 55%N :: uint_units r
  | Decimal.D8 r => 56%N :: uint_units r
  | Decimal.D9 r => 57%N :: uint_units r
  end.

Definition dec (n : N) : jsstring :=
  match n with
  | N0 => [48%N]
  | _ => uint_units (N.to_uint n)
  end.

(** Fixed-width decimal rendering, most significant digit first. *)
Fixpoint pad_dec (width : nat) (n : N) : jsstring :=
  match width with
  | O => []
  | S w => pad_dec w (n / 10) ++ [(48 + n mod 10)%N]
  end.

(** [s.replace(/<[^>]*>/g, '')]: every tag-shaped run is deleted; a [<]
    with no later [>] stays. *)
Fixpoint after_gt (s : jsstring) : option jsstring :=
  match s with
  | [] => None
  | c :: s' => if N.eqb c 62 then Some s' else after_gt s'
  end.

Fixpoint strip_tags_aux (fuel : nat) (s : jsstring) : jsstring :=
  match fuel with
  | O => s
  | S k =>
      match s with
      | [] => []
      | c :: s' =>
          if N.eqb c 60 then
            match after_gt s' with
            | Some rest => strip_tags_aux k rest
            | None => c :: strip_tags_aux k s'
            end
          else c :: strip_tags_aux k s'
      end
  end.

Definition strip_tags (s : jsstring) : jsstring :=
  strip_tags_aux (S (List.length s)) s.

(* ------------------------------------------------------------------ *)
(** *** [encodeURIComponent] *)

Definition in_range (lo hi c : N) : bool := (N.leb lo c && N.leb c hi)%N.

Definition uri_unreserved (c : N) : bool :=
  in_range 65 90 c || in_range 97 122 c || in_range 48 57 c ||
  existsb (N.eqb c) (lit "-_.!~*'()").

Definition hex_digit (d : N) : N :=
  if N.ltb d 10 then (48 + d)%N else (55 + d)%N.

Definition pct (b : N) : jsstring := [37%N; hex_digit (b / 16); hex_digit (b mod 16)].

Definition utf8 (cp : N) : list N :=
  (if cp <? 128 then [cp]
   else if cp <? 2048 then [192 + cp / 64; 128 + cp mod 64]
   else if cp <? 65536 then
     [224 + cp / 4096; 128 + (cp / 64) mod 64; 128 + cp mod 64]
   else
     [240 + cp / 262144; 128 + (cp / 4096) mod 64;
      128 + (cp / 64) mod 64; 128 + cp mod 64])%N.

Definition pct_utf8 (cp : N) : jsstring := flat_map pct (utf8 cp).

(** [None] stands for the [URIError] thrown on a lone surrogate. *)
Fixpoint encodeURIComponent (s : jsstring) : option jsstring :=
  match s with
  | [] => Some []
  | c :: r =>
      if uri_unreserved c then option_map (cons c) (encodeURIComponent r)
      else if in_range 55296 56319 c then
        match r with
        | d :: r' =>
            if in_range 56320 57343 d then
              option_map
                (app (pct_utf8 ((c - 55296) * 1024 + (d - 56320) + 65536)%N))
                (encodeURIComponent r')
            else None
        | [] => None
        end
      else if in_range 56320 57343 c then None
      else option_map (app (pct_utf8 c)) (encodeURIComponent r)
  end.

(* ------------------------------------------------------------------ *)
(** *** [Date.prototype.toISOString] *)

(** Civil date of a day count since 1970-01-01 (proleptic Gregorian). *)
Definition civil_from_days (days : N) : N * N * N :=
  (let z := days + 719468 in
   let era := z / 146097 in
   let doe := z - era * 146097 in
   let yoe := (doe - doe / 1460 + doe / 36524 - doe / 146096) / 365 in
   let y := yoe + era * 400 in
   let doy := doe - (365 * yoe + yoe / 4 - yoe / 100) in
   let mp := (5 * doy + 2) / 153 in
   let d := doy - (153 * mp + 2) / 5 + 1 in
   let m := if mp <? 10 then mp + 3 else mp - 9 in
   ((if m <=? 2 then y + 1 else y), m, d))%N.

(** [new Date(ms).toISOString()] for a time at or after the epoch. *)
Definition toISOString (ms : N) : jsstring :=
  (let days := ms / 86400000 in
   let r := ms mod 86400000 in
   let '(y, m, d) := civil_from_days days in
   let year := if y <=? 9999 then pad_dec 4 y else lit "+" ++ pad_dec 6 y in
   year ++ lit "-" ++ pad_dec 2 m ++ lit "-" ++ pad_dec 2 d ++ lit "T"
     ++ pad_dec 2 (r / 3600000) ++ lit ":"
     ++ pad_dec 2 ((r / 60000) mod 60) ++ lit ":"
     ++ pad_dec 2 ((r / 1000) mod 60) ++ lit "."
     ++ pad_dec 3 (r mod 1000) ++ lit "Z")%N.

(* ================================================================== *)
(** ** Documents *)

(** A DOM node.  An element carries its namespace prefix, its local name,
    its attributes (qualified name, value) and its children; CDATA
    sections are text nodes. *)
#[warnings="-register-all"]
Inductive node : Type :=
| Element (prefix : option jsstring) (localName : jsstring)
          (attrs : list (jsstring * jsstring)) (children : list node)
| TextNode (data : jsstring)
| Comment (data : jsstring).

(** A document is the list of its top-level nodes. *)
Definition document := list node.

(** [n.textContent]: the text of the descendants, comments left out. *)
Fixpoint textContent (n : node) : jsstring :=
  match n with
  | Element _ _ _ cs => flat_map textContent cs
  | TextNode d => d
  | Comment _ => []
  end.

(** The data of the text nodes under [n], in document order. *)
Fixpoint text_nodes (n : node) : list jsstring :=
  match n with
  | Element _ _ _ cs => flat_map text_nodes cs
  | TextNode d => [d]
  | Comment _ => []
  end.

(** [n.getAttribute(name)] *)
Fixpoint getAttribute_in (attrs : list (jsstring * jsstring)) (name : jsstring)
  : option jsstring :=
  match attrs with
  | [] => None
  | (k, v) :: rest => if str_eqb k name then Some v else getAttribute_in rest name
  end.

Definition getAttribute (n : node) (name : jsstring) : option jsstring :=
  match n with
  | Element _ _ attrs _ => getAttribute_in attrs name
  | _ => None
  end.

Definition local_name (n : node) : option jsstring :=
  match n with
  | Element _ l _ _ => Some l
  | _ => None
  end.

(** A node and the nodes below it in document order, each with the local
    name of its parent element ([None] under the document itself). *)
Fixpoint subtree (parent : option jsstring) (n : node)
  : list (option jsstring * node) :=
  (parent, n) ::
  match n with
  | Element _ l _ cs => flat_map (subtree (Some l)) cs
  | _ => []
  end.

(** The nodes strictly below [n]. *)
Definition descendants (n : node) : list (option jsstring * node) :=
  match n with
  | Element _ l _ cs => flat_map (subtree (Some l)) cs
  | _ => []
  end.

Definition doc_nodes (d : document) : list (option jsstring * node) :=
  flat_map (subtree None) d.

(** The selectors the service uses: a type selector (matched on the local
    name, in any namespace), a child combinator between two type
    selectors, and a type selector with an attribute value. *)
Inductive simple_selector : Type :=
| Tag (name : jsstring)
| ChildOf (parent name : jsstring)
| TagAttr (name attr value : jsstring).

(** A selector list [a, b, ...]. *)
Definition selector := list simple_selector.

Definition opt_eqb (a : option jsstring) (b : jsstring) : bool :=
  match a with Some s => str_eqb s b | None => false end.

(** The value of [type] in an attribute selector is compared ASCII
    case-insensitively in an HTML document. *)
Definition matches1 (pn : option jsstring * node) (s : simple_selector) : bool :=
  match s with
  | Tag name => opt_eqb (local_name (snd pn)) name
  | ChildOf parent name =>
      opt_eqb (local_name (snd pn)) name && opt_eqb (fst pn) parent
  | TagAttr name attr value =>
      opt_eqb (local_name (snd pn)) name &&
      match getAttribute (snd pn) attr with
      | Some v => str_eqb (ascii_lower v) (ascii_lower value)
      | None => false
      end
  end.

Definition matches (sel : selector) (pn : option jsstring * node) : bool :=
  existsb (matches1 pn) sel.

Definition select_first (sel : selector) (l : list (option jsstring * node))
  : option node :=
  option_map snd (find (matches sel) l).

Definition select_all (sel : selector) (l : list (option jsstring * node))
  : list node :=
  List.map snd (filter (matches sel) l).

(** [n.querySelector(sel)] and [n.querySelectorAll(sel)] on an element. *)
Definition querySelector (n : node) (sel : selector) : option node :=
  select_first sel (descendants n).

Definition querySelectorAll (n : node) (sel : selector) : list node :=
  select_all sel (descendants n).

(** The same on a document. *)
Definition doc_querySelector (d : document) (sel : selector) : option node :=
  select_first sel (doc_nodes d).

Definition doc_querySelectorAll (d : document) (sel : selector) : list node :=
  select_all sel (doc_nodes d).

(** [n.getElementsByTagNameNS('*', name)[0]] *)
Definition firstByLocalName (n : node) (name : jsstring) : option node :=
  select_first [Tag name] (descendants n).

(** [doc.body]: the first [body] or [frameset] child of the root [html]
    element, [None] when there is none. *)
Definition is_named (name : jsstring) (n : node) : bool :=
  opt_eqb (local_name n) name.

Definition doc_body (d : document) : option node :=
  match find (is_named (lit "html")) d with
  | Some (Element _ _ _ cs) =>
      find (fun c => is_named (lit "body") c || is_named (lit "frameset") c) cs
  | _ => None
  end.

(* ================================================================== *)
(** ** Data model ([types.ts]) *)

Record Feed : Type := mkFeed {
  feed_id : jsstring;
  feed_url : jsstring;
  feed_title : jsstring
}.

(** [thumbnail] and [author] are optional; [None] is [null]/[undefined]. *)
Record Article : Type := mkArticle {
  id : jsstring;
  feedId : jsstring;
  title : jsstring;
  link : jsstring;
  pubDate : jsstring;
  content : jsstring;
  contentSnippet : jsstring;
  thumbnail : option jsstring;
  author : option jsstring
}.

(** The unit of output of every fetch strategy. *)
Record FeedFetchResult : Type := mkResult {
  r_title : jsstring;
  r_articles : list Article
}.

(* ================================================================== *)
(** ** Errors *)

Inductive ErrorKind : Type :=
| KError | KTypeError | KAbortError | KURIError | KSyntaxError.

(** A thrown value: a built-in error, or the service's own
    [FeedDiscoveryError] with the HTML it carries. *)
Inductive JsError : Type :=
| Builtin (kind : ErrorKind) (message : jsstring)
| FeedDiscoveryError (message htmlContent originalUrl : jsstring).

(** [new Error(message)] *)
Definition Error (message : jsstring) : JsError := Builtin KError message.

Definition err_message (e : JsError) : jsstring :=
  match e with
  | Builtin _ m => m
  | FeedDiscoveryError m _ _ => m
  end.

(** [e.name === 'FeedDiscoveryError'] *)
Definition is_discovery (e : JsError) : bool :=
  match e with
  | FeedDiscoveryError _ _ _ => true
  | Builtin _ _ => false
  end.

(* ================================================================== *)
(** ** The platform *)

(** An HTTP response as the service reads it: the status, the body
    ([None] when reading it fails) and the time the body takes. *)
Record Response : Type := mkResponse {
  status : N;
  body : option jsstring;
  body_latency : N
}.

(** [response.ok] *)
Definition resp_ok (r : Response) : bool := in_range 200 299 (status r).

(** What the network does with one request: it fails, or the response
    headers arrive after [latency] milliseconds. *)
Inductive HttpOutcome : Type :=
| NetworkFailure (message : jsstring)
| Responded (latency : N) (r : Response).

(** The JSON document of the conversion service, as far as the service
    reads it.  [j_feed] is the title of [data.feed], [None] when
    [data.feed] is missing; [j_items] is [None] when [data.items] is
    missing; the title, link and date of an item are strings. *)
Record R2JItem : Type := mkR2JItem {
  j_title : jsstring;
  j_link : jsstring;
  j_pubDate : jsstring;
  j_content : option jsstring;
  j_description : option jsstring;
  j_thumbnail : option jsstring;
  j_enclosure_link : option jsstring;
  j_author : option jsstring
}.

Record R2JData : Type := mkR2JData {
  j_status : option jsstring;
  j_message : option jsstring;
  j_feed : option jsstring;
  j_items : option (list R2JItem)
}.

(** The browser.  [http] answers the [n]-th request of a run; [parseXml]
    and [parseHtml] are [DOMParser.parseFromString] for the two mime
    types; [resolveUrl href base] is [new URL(href, base).href], [None]
    when the constructor throws; [parseJson] is the decoding done by
    [res.json()], [None] when it throws. *)
Class Platform : Type := {
  toLowerCase : jsstring -> jsstring;
  parseXml : jsstring -> document;
  parseHtml : jsstring -> document;
  resolveUrl : jsstring -> jsstring -> option jsstring;
  parseJson : jsstring -> option R2JData;
  randomUUID : N -> jsstring;
  http : N -> jsstring -> HttpOutcome
}.

(* ================================================================== *)
(** ** Effects *)

(** What a run reads and advances: the clock in milliseconds since the
    epoch, the number of identifiers drawn and the number of requests
    issued. *)
Record World : Type := mkWorld {
  clock : N;
  nonce : N;
  requests : N
}.

Record Request : Type := mkRequest {
  req_url : jsstring;
  req_headers : list (jsstring * jsstring);
  req_timeout : option N
}.

(** The calls a run makes, in order. *)
Inductive Event : Type :=
| Call_fetchFeed (url feedId : jsstring)
| Call_fetchWithRss2Json (url feedId : jsstring)
| NetRequest (rq : Request)
| XmlParse (text : jsstring)
| HtmlParse (text : jsstring).

(** A computation returns, throws, or has not finished within the
    recursion budget given to it. *)
Inductive Result (A : Type) : Type :=
| Ok (a : A)
| Throw (e : JsError)
| OutOfFuel.

Arguments Ok {A} a.
Arguments Throw {A} e.
Arguments OutOfFuel {A}.

Record Outcome (A : Type) : Type := mkOut {
  res : Result A;
  world : World;
  events : list Event
}.

Definition M (A : Type) : Type := World -> Outcome A.

Definition ret {A} (a : A) : M A := fun w => mkOut (Ok a) w [].

Definition throw {A} (e : JsError) : M A := fun w => mkOut (Throw e) w [].

Definition bind {A B} (m : M A) (f : A -> M B) : M B := fun w =>
  let o := m w in
  match res o with
  | Ok a =>
      let o' := f a (world o) in
      mkOut (res o') (world o') (events o ++ events o')
  | Throw e => mkOut (Throw e) (world o) (events o)
  | OutOfFuel => mkOut OutOfFuel (world o) (events o)
  end.

(** [try { m } catch (e) { h e }] *)
Definition try_catch {A} (m : M A) (h : JsError -> M A) : M A := fun w =>
  let o := m w in
  match res o with
  | Throw e =>
      let o' := h e (world o) in
      mkOut (res o') (world o') (events o ++ events o')
  | _ => o
  end.

Declare Scope js_scope.
Delimit Scope js_scope with js.
Notation "x <- m ;; k" := (bind m (fun x => k))
  (at level 61, m at next level, right associativity) : js_scope.
Notation "m ;;; k" := (bind m (fun _ => k))
  (at level 61, right associativity) : js_scope.
Open Scope js_scope.

Definition emit (e : Event) : M unit := fun w => mkOut (Ok tt) w [e].

(** [items.map(f)] for an effectful [f]. *)
Fixpoint mapM {A B} (f : A -> M B) (l : list A) : M (list B) :=
  match l with
  | [] => ret []
  | a :: l' => b <- f a ;; bs <- mapM f l' ;; ret (b :: bs)
  end.

(** [Date.now()] *)
Definition date_now : M N := fun w => mkOut (Ok (clock w)) w [].

(** [new Date().toISOString()] *)
Definition date_iso : M jsstring := n <- date_now ;; ret (toISOString n).

Definition elapse (ms : N) : M unit := fun w =>
  mkOut (Ok tt) (mkWorld (clock w + ms) (nonce w) (requests w)) [].

Definition URI_ERROR : JsError := Builtin KURIError (lit "URI malformed").

(** [encodeURIComponent(url)] where it may throw. *)
Definition encode (url : jsstring) : M jsstring :=
  match encodeURIComponent url with
  | Some e => ret e
  | None => throw URI_ERROR
  end.

(* ================================================================== *)
(** ** The service ([services/rssService.ts]) *)

Section Service.

Context {P : Platform}.

(** [crypto.randomUUID()] *)
Definition fresh_uuid : M jsstring := fun w =>
  mkOut (Ok (randomUUID (nonce w)))
        (mkWorld (clock w) (nonce w + 1) (requests w)) [].

(** [new DOMParser().parseFromString(text, 'text/xml')] *)
Definition dom_parse_xml (text : jsstring) : M document :=
  emit (XmlParse text) ;;; ret (parseXml text).

(** [new DOMParser().parseFromString(text, 'text/html')] *)
Definition dom_parse_html (text : jsstring) : M document :=
  emit (HtmlParse text) ;;; ret (parseHtml text).

(** [fetch(url, { signal, headers })] with the abort timer of the caller:
    the request is aborted when the headers have not arrived after
    [req_timeout] milliseconds. *)
Definition fetch (rq : Request) : M Response := fun w =>
  let w' t := mkWorld (clock w + t) (nonce w) (requests w + 1) in
  match http (requests w) (req_url rq) with
  | NetworkFailure m =>
      mkOut (Throw (Builtin KTypeError m)) (w' 0%N) [NetRequest rq]
  | Responded latency r =>
      match req_timeout rq with
      | Some t =>
          if (t <=? latency)%N then
            mkOut (Throw (Builtin KAbortError (lit "The operation was aborted.")))
                  (w' t) [NetRequest rq]
          else mkOut (Ok r) (w' latency) [NetRequest rq]
      | None => mkOut (Ok r) (w' latency) [NetRequest rq]
      end
  end.

(** [await response.text()]; the abort timer has been cleared by then. *)
Definition response_text (r : Response) : M jsstring :=
  elapse (body_latency r) ;;;
  match body r with
  | Some s => ret s
  | None => throw (Builtin KTypeError (lit "Failed to fetch"))
  end.

(** [await res.json()] *)
Definition response_json (r : Response) : M R2JData :=
  s <- response_text r ;;
  match parseJson s with
  | Some d => ret d
  | None => throw (Builtin KSyntaxError (lit "Unexpected token in JSON"))
  end.

(* ------------------------------------------------------------------ *)
(** *** Transport layer *)

(** A relay URL builder: from the reading of [Date.now()] and the feed
    URL to the relay URL, [None] when [encodeURIComponent] throws. *)
Definition Proxy : Type := N -> jsstring -> option jsstring.

Definition proxy_allorigins : Proxy := fun now url =>
  option_map
    (fun e => lit "https://api.allorigins.win/raw?url=" ++ e ++ lit "&t=" ++ dec now)
    (encodeURIComponent url).

Definition proxy_codetabs : Proxy := fun _ url =>
  option_map (fun e => lit "https://api.codetabs.com/v1/proxy?quest=" ++ e)
             (encodeURIComponent url).

Definition proxy_yacdn : Proxy := fun _ url =>
  Some (lit "https://yacdn.org/proxy/" ++ url).

Definition proxy_thingproxy : Proxy := fun _ url =>
  Some (lit "https://thingproxy.freeboard.io/fetch/" ++ url).

Definition PROXIES : list Proxy :=
  [proxy_allorigins; proxy_codetabs; proxy_yacdn; proxy_thingproxy].

Definition relay_headers : list (jsstring * jsstring) :=
  [(lit "Accept",
    lit "application/rss+xml, application/xml, text/xml, text/html, */*");
   (lit "User-Agent", lit "RSS-Reader-App/1.0")].

Definition RELAY_TIMEOUT : N := 12000.

(** [createProxyUrl(url)] *)
Definition build (createProxyUrl : Proxy) (url : jsstring) : M jsstring :=
  now <- date_now ;;
  match createProxyUrl now url with
  | Some proxyUrl => ret proxyUrl
  | None => throw URI_ERROR
  end.

(** The body of the [try] block of [fetchRawText]: one relay attempt. *)
Definition relay_attempt (createProxyUrl : Proxy) (url : jsstring) : M jsstring :=
  proxyUrl <- build createProxyUrl url ;;
  response <- fetch (mkRequest proxyUrl relay_headers (Some RELAY_TIMEOUT)) ;;
  if negb (resp_ok response) then
    throw (Error (lit "HTTP error! status: " ++ dec (status response)))
  else
    text <- response_text response ;;
    if negb (truthy text) || Nat.eqb (List.length (trim text)) 0 then
      throw (Error (lit "Empty response"))
    else ret text.

(** The loop of [fetchRawText] over a list of relays, [lastError] being
    the error recorded so far. *)
Fixpoint fetchRawText_from (proxies : list Proxy) (url : jsstring)
         (lastError : option JsError) : M jsstring :=
  match proxies with
  | [] =>
      match lastError with
      | Some e => throw e
      | None => throw (Error (lit "Failed to fetch feed from all proxies"))
      end
  | createProxyUrl :: rest =>
      try_catch (relay_attempt createProxyUrl url)
                (fun err => fetchRawText_from rest url (Some err))
  end.

Definition fetchRawText (url : jsstring) : M jsstring :=
  fetchRawText_from PROXIES url None.

(* ------------------------------------------------------------------ *)
(** *** Format normaliser *)

Definition UNKNOWN_SOURCE : jsstring :=
  lit "Nezn" ++ [225%N] ++ lit "m" ++ [253%N] ++ lit " zdroj".

Definition UNTITLED : jsstring := lit "Bez n" ++ [225%N] ++ lit "zvu".

Definition PARSE_PREFIX : jsstring :=
  lit "Chyba p" ++ [345%N] ++ lit "i parsov" ++ [225%N] ++ lit "n"
      ++ [237%N] ++ lit " XML: ".

Definition text_of (n : option node) : option jsstring :=
  option_map textContent n.

(** The link of an item: the text of its first [link] element, else the
    [href] attribute of that element. *)
Definition item_link (item : node) : jsstring :=
  let linkNode := querySelector item [Tag (lit "link")] in
  let link := opt_or (text_of linkNode) [] in
  if truthy link then link
  else
    match linkNode with
    | Some ln =>
        match getAttribute ln (lit "href") with
        | Some h => if truthy h then h else link
        | None => link
        end
    | None => link
    end.

Definition date_selector : selector :=
  [Tag (lit "pubDate"); Tag (lit "published"); Tag (lit "updated");
   Tag (lit "date")].

(** The text of the first date element of an item, when it is not empty. *)
Definition item_date (item : node) : option jsstring :=
  match text_of (querySelector item date_selector) with
  | Some s => if truthy s then Some s else None
  | None => None
  end.

Definition item_content (item : node) : jsstring :=
  let contentEncoded := text_of (firstByLocalName item (lit "encoded")) in
  let description :=
    opt_or (text_of (querySelector item
                       [Tag (lit "description"); Tag (lit "summary")])) [] in
  or_str (or_str (opt_or contentEncoded []) description) [].

(** The plain-text snippet of the body text of the content. *)
Definition snippet_of (bodyText : jsstring) : jsstring :=
  or_str
    (trim (slice0 300 bodyText) ++
     (if truthy bodyText && Nat.ltb 300 (List.length bodyText)
      then lit "..." else []))
    [].

(** [enclosure && enclosure.getAttribute('type')?.startsWith('image')] *)
Definition is_image_enclosure (enclosure : option node) : bool :=
  match enclosure with
  | Some enc =>
      match getAttribute enc (lit "type") with
      | Some ty => startsWith ty (lit "image")
      | None => false
      end
  | None => false
  end.

Definition attr_of (n : option node) (name : jsstring) : option jsstring :=
  match n with
  | Some e => getAttribute e name
  | None => None
  end.

(** Thumbnail extraction; the initial value is the empty string. *)
Definition item_thumbnail (item : node) (doc : document) : option jsstring :=
  let mediaContent := firstByLocalName item (lit "content") in
  let enclosure := querySelector item [Tag (lit "enclosure")] in
  let imgInContent := doc_querySelector doc [Tag (lit "img")] in
  if opt_truthy (attr_of mediaContent (lit "url")) then
    attr_of mediaContent (lit "url")
  else if is_image_enclosure enclosure then attr_of enclosure (lit "url")
  else
    match imgInContent with
    | Some img => getAttribute img (lit "src")
    | None => Some []
    end.

Definition item_author (item : node) : option jsstring :=
  match text_of (querySelector item [Tag (lit "author"); Tag (lit "creator")]) with
  | Some s => if truthy s then Some s else None
  | None => None
  end.

(** The [TypeError] of reading [textContent] of a missing [doc.body]. *)
Definition NO_BODY : JsError :=
  Builtin KTypeError (lit "Cannot read properties of null (reading 'textContent')").

(** The callback of [items.map] in [parseXmlFeed]. *)
Definition parse_item (feedId : jsstring) (item : node) : M Article :=
  let itemTitle := opt_or (text_of (querySelector item [Tag (lit "title")])) UNTITLED in
  let link := item_link item in
  pubDate <- match item_date item with
             | Some d => ret d
             | None => date_iso
             end ;;
  let content := item_content item in
  doc <- dom_parse_html content ;;
  match doc_body doc with
  | None => throw NO_BODY
  | Some body =>
      let contentSnippet := snippet_of (textContent body) in
      let thumbnail := item_thumbnail item doc in
      uuid <- fresh_uuid ;;
      ret (mkArticle uuid feedId itemTitle link pubDate content
                     contentSnippet thumbnail (item_author item))
  end.

Definition looks_html (lowerText : jsstring) : bool :=
  startsWith lowerText (lit "<!doctype html") || startsWith lowerText (lit "<html").

Definition looks_feed (lowerText : jsstring) : bool :=
  includes lowerText (lit "<rss") || includes lowerText (lit "<feed")
  || includes lowerText (lit "<rdf:rdf").

(** [xml.querySelector('channel > title, feed > title')?.textContent || ...] *)
Definition channel_title (xml : document) : jsstring :=
  opt_or (text_of (doc_querySelector xml
                     [ChildOf (lit "channel") (lit "title");
                      ChildOf (lit "feed") (lit "title")]))
         UNKNOWN_SOURCE.

(** [Array.from(xml.querySelectorAll('item, entry'))] *)
Definition feed_items (xml : document) : list node :=
  doc_querySelectorAll xml [Tag (lit "item"); Tag (lit "entry")].

(** The [try] block of [parseXmlFeed]. *)
Definition parse_document (text trimmed feedId originalUrl : jsstring)
  : M FeedFetchResult :=
  xml <- dom_parse_xml text ;;
  match doc_querySelector xml [Tag (lit "parsererror")] with
  | Some errorNode =>
      if includes trimmed (lit "<html") || includes trimmed (lit "<body") then
        throw (FeedDiscoveryError
                 (lit "XML Parsing failed, content looks like HTML")
                 text originalUrl)
      else throw (Error (lit "XML Parser Error: " ++ textContent errorNode))
  | None =>
      let title := channel_title xml in
      let items := feed_items xml in
      articles <- mapM (parse_item feedId) items ;;
      ret (mkResult title articles)
  end.

Definition parseXmlFeed (text feedId originalUrl : jsstring) : M FeedFetchResult :=
  let text := strip_bom text in
  let trimmed := trim text in
  let lowerText := toLowerCase trimmed in
  let isHtml := looks_html lowerText in
  let isRss := looks_feed lowerText in
  if isHtml && negb isRss then
    throw (FeedDiscoveryError (lit "Received HTML page instead of XML")
                              text originalUrl)
  else
    try_catch (parse_document text trimmed feedId originalUrl)
              (fun e =>
                 if is_discovery e then throw e
                 else throw (Error (PARSE_PREFIX ++ err_message e))).

(* ------------------------------------------------------------------ *)
(** *** Feed discovery *)

Definition feed_link_selector : selector :=
  [TagAttr (lit "link") (lit "type") (lit "application/rss+xml");
   TagAttr (lit "link") (lit "type") (lit "application/atom+xml")].

(** [getFeedUrlFromHtml]; an error inside is logged and swallowed. *)
Definition getFeedUrlFromHtml (html baseUrl : jsstring) : M (option jsstring) :=
  try_catch
    (doc <- dom_parse_html html ;;
     match doc_querySelectorAll doc feed_link_selector with
     | first :: _ =>
         match getAttribute first (lit "href") with
         | Some href =>
             if truthy href then
               match resolveUrl href baseUrl with
               | Some u => ret (Some u)
               | None => ret (Some href)
               end
             else ret None
         | None => ret None
         end
     | [] => ret None
     end)
    (fun _ => ret None).

(* ------------------------------------------------------------------ *)
(** *** Remote normalisation fallback *)

Definition show_opt (a : option jsstring) : jsstring :=
  match a with Some s => s | None => lit "undefined" end.

(** The callback of [data.items.map] in [fetchWithRss2Json]. *)
Definition convert_item (feedId : jsstring) (item : R2JItem) : M Article :=
  uuid <- fresh_uuid ;;
  ret (mkArticle uuid feedId (j_title item) (j_link item) (j_pubDate item)
         (or_str (or_str (opt_or (j_content item) [])
                         (opt_or (j_description item) [])) [])
         (slice0 300
            (strip_tags
               (or_str (or_str (opt_or (j_description item) [])
                               (opt_or (j_content item) [])) [])))
         (if opt_truthy (j_thumbnail item) then j_thumbnail item
          else j_enclosure_link item)
         (j_author item)).

Definition fetchWithRss2Json (url feedId : jsstring) : M FeedFetchResult :=
  emit (Call_fetchWithRss2Json url feedId) ;;;
  e <- encode url ;;
  let apiUrl := lit "https://api.rss2json.com/v1/api.json?rss_url=" ++ e in
  res <- fetch (mkRequest apiUrl [] None) ;;
  if negb (resp_ok res) then
    throw (Error (lit "RSS2JSON failed with status " ++ dec (status res)))
  else
    data <- response_json res ;;
    if negb (opt_eqb (j_status data) (lit "ok")) then
      throw (Error (lit "RSS2JSON failed: " ++ show_opt (j_message data)))
    else
      match j_feed data, j_items data with
      | Some feedTitle, Some items =>
          articles <- mapM (convert_item feedId) items ;;
          ret (mkResult feedTitle articles)
      | _, _ =>
          throw (Builtin KTypeError
                   (lit "Cannot read properties of undefined"))
      end.

(* ------------------------------------------------------------------ *)
(** *** Orchestrator *)

(** Strategy 1: relays, then the normaliser. *)
Definition direct_fetch (url feedId : jsstring) : M FeedFetchResult :=
  text <- fetchRawText url ;;
  parseXmlFeed text feedId url.

Definition diverge {A} : M A := fun w => mkOut OutOfFuel w [].

(** [fetchFeed]; the recursion of the source has no bound, [fuel] is the
    number of nested calls a run may make. *)
Fixpoint fetchFeed (fuel : nat) (url feedId : jsstring) : M FeedFetchResult :=
  match fuel with
  | O => diverge
  | S fuel' =>
      emit (Call_fetchFeed url feedId) ;;;
      try_catch (direct_fetch url feedId)
        (fun error =>
           match error with
           | FeedDiscoveryError _ htmlContent _ =>
               discovered <- getFeedUrlFromHtml htmlContent url ;;
               match discovered with
               | Some discoveredUrl =>
                   if truthy discoveredUrl && negb (str_eqb discoveredUrl url)
                   then fetchFeed fuel' discoveredUrl feedId
                   else fetchWithRss2Json url feedId
               | None => fetchWithRss2Json url feedId
               end
           | Builtin _ _ => fetchWithRss2Json url feedId
           end)
  end.

End Service.

(* ================================================================== *)
(** ** Article bookkeeping of the application ([App.tsx]) *)

(** A JavaScript [Map] keyed by link: the entries in insertion order.
    Setting a key that is present replaces its value in place. *)
Definition LinkMap := list (jsstring * Article).

Fixpoint map_set (k : jsstring) (v : Article) (m : LinkMap) : LinkMap :=
  match m with
  | [] => [(k, v)]
  | (k', v') :: m' =>
      if str_eqb k' k then (k', v) :: m' else (k', v') :: map_set k v m'
  end.

(** [new Map(entries)] *)
Definition new_Map (entries : list (jsstring * Article)) : LinkMap :=
  fold_left (fun m kv => map_set (fst kv) (snd kv) m) entries [].

(** [Array.from(m.values())] *)
Definition map_values (m : LinkMap) : list Article := List.map snd m.

(** [Array.from(new Map(l.map(item => [item.link, item])).values())] *)
Definition uniqueByLink (l : list Article) : list Article :=
  map_values (new_Map (List.map (fun item => (link item, item)) l)).

(** The outcome of one promise of [Promise.allSettled]. *)
Inductive Settled : Type :=
| Fulfilled (value : FeedFetchResult)
| Rejected (reason : JsError).

Record AppState : Type := mkApp {
  feeds : list Feed;
  articles : list Article
}.

(** [allArticles] after the [forEach] over the settled results. *)
Definition collect_articles (results : list Settled) : list Article :=
  flat_map (fun r => match r with
                     | Fulfilled v => r_articles v
                     | Rejected _ => []
                     end) results.

(** The title update [setFeeds] does for one fulfilled result. *)
Definition retitle (feedId newTitle : jsstring) (fs : list Feed) : list Feed :=
  List.map (fun f =>
              if str_eqb (feed_id f) feedId && negb (str_eqb (feed_title f) newTitle)
              then mkFeed (feed_id f) (feed_url f) newTitle else f) fs.

Fixpoint retitle_all (captured : list Feed) (results : list Settled)
         (fs : list Feed) : list Feed :=
  match captured, results with
  | f :: captured', Fulfilled v :: results' =>
      retitle_all captured' results' (retitle (feed_id f) (r_title v) fs)
  | _ :: captured', Rejected _ :: results' => retitle_all captured' results' fs
  | _, _ => fs
  end.

(** [url.replace(/\/$/, '')] *)
Definition strip_slash (url : jsstring) : jsstring :=
  match rev url with
  | c :: r => if N.eqb c 47 then rev r else url
  | [] => url
  end.

(** The state updates of the application that touch the article list:
    [refreshFeeds] once its fetches have settled, [addFeed] once its fetch
    has returned, and [removeFeed]. *)
Inductive Action : Type :=
| RefreshSettled (results : list Settled)
| FeedAdded (url newId : jsstring) (fetched : FeedFetchResult)
| RemoveFeed (removed : jsstring).

Definition refreshFeeds (st : AppState) (results : list Settled) : AppState :=
  match feeds st with
  | [] => mkApp (feeds st) []
  | _ :: _ =>
      mkApp (retitle_all (feeds st) results (feeds st))
            (uniqueByLink (collect_articles results))
  end.

Definition addFeed (st : AppState) (url newId : jsstring)
           (fetched : FeedFetchResult) : AppState :=
  if existsb (fun f => str_eqb (strip_slash (feed_url f)) (strip_slash url))
             (feeds st)
  then st
  else mkApp (feeds st ++ [mkFeed newId url (r_title fetched)])
             (uniqueByLink (articles st ++ r_articles fetched)).

Definition removeFeed (st : AppState) (removed : jsstring) : AppState :=
  mkApp (filter (fun f => negb (str_eqb (feed_id f) removed)) (feeds st))
        (filter (fun a => negb (str_eqb (feedId a) removed)) (articles st)).

Definition step (st : AppState) (a : Action) : AppState :=
  match a with
  | RefreshSettled results => refreshFeeds st results
  | FeedAdded url newId fetched => addFeed st url newId fetched
  | RemoveFeed removed => removeFeed st removed
  end.

(** The list an action merges, when it merges one. *)
Definition merged_input (st : AppState) (a : Action) : option (list Article) :=
  match a with
  | RefreshSettled results =>
      match feeds st with
      | [] => None
      | _ :: _ => Some (collect_articles results)
      end
  | FeedAdded url newId fetched =>
      if existsb (fun f => str_eqb (strip_slash (feed_url f)) (strip_slash url))
                 (feeds st)
      then None
      else Some (articles st ++ r_articles fetched)
  | RemoveFeed _ => None
  end.

(** The keys of a map, in insertion order. *)
Definition keys (m : LinkMap) : list jsstring := List.map fst m.

(** [l.map(item => [item.link, item])] *)
Definition entries (l : list Article) : list (jsstring * Article) :=
  List.map (fun item => (link item, item)) l.

(** The last article of [l] with link [k]. *)
Definition last_with_link (k : jsstring) (l : list Article) : option Article :=
  find (fun a => str_eqb (link a) k) (rev l).

(* ================================================================== *)
(** ** A reference platform and sample inputs *)

Definition el (name : string) (cs : list node) : node :=
  Element None (lit name) [] cs.

Definition txt (s : string) : node := TextNode (lit s).

(** The document an HTML parser builds for text without markup. *)
Definition html_of_text (s : jsstring) : document :=
  [el "html" [el "head" []; el "body" match s with [] => [] | _ => [TextNode s] end]].

Fixpoint lookup {A} (k : jsstring) (table : list (jsstring * A)) : option A :=
  match table with
  | [] => None
  | (k', v) :: rest => if str_eqb k' k then Some v else lookup k rest
  end.

(** An RSS 2.0 feed with two items; the second has no date. *)
Definition rss_text : jsstring :=
  lit "<rss version='2.0'><channel><title>News</title><item><title>First</title><link>https://x/a</link><pubDate>Mon, 01 Jan 2024 00:00:00 GMT</pubDate><description>Hello</description></item><item><title>Second</title><link>https://x/b</link><description>World</description></item></channel></rss>".

Definition rss_item1 : node :=
  el "item" [el "title" [txt "First"]; el "link" [txt "https://x/a"];
             el "pubDate" [txt "Mon, 01 Jan 2024 00:00:00 GMT"];
             el "description" [txt "Hello"]].

Definition rss_item2 : node :=
  el "item" [el "title" [txt "Second"]; el "link" [txt "https://x/b"];
             el "description" [txt "World"]].

Definition rss_doc : document :=
  [Element None (lit "rss") [(lit "version", lit "2.0")]
     [el "channel" [el "title" [txt "News"]; rss_item1; rss_item2]]].

(** An Atom feed whose entry has its own [content] element before a
    Media RSS [media:content] element. *)
Definition atom_text : jsstring :=
  lit "<feed xmlns='http://www.w3.org/2005/Atom' xmlns:media='http://search.yahoo.com/mrss/'><title>Blog</title><entry><title>Post</title><link href='https://x/p'/><updated>2024-01-01T00:00:00Z</updated><content type='html'>Body</content><media:content url='https://x/p.jpg' medium='image'/></entry></feed>".

Definition atom_entry : node :=
  el "entry"
     [el "title" [txt "Post"];
      Element None (lit "link") [(lit "href", lit "https://x/p")] [];
      el "updated" [txt "2024-01-01T00:00:00Z"];
      Element None (lit "content") [(lit "type", lit "html")] [txt "Body"];
      Element (Some (lit "media")) (lit "content")
              [(lit "url", lit "https://x/p.jpg"); (lit "medium", lit "image")] []].

Definition atom_doc : document :=
  [Element None (lit "feed")
     [(lit "xmlns", lit "http://www.w3.org/2005/Atom");
      (lit "xmlns:media", lit "http://search.yahoo.com/mrss/")]
     [el "title" [txt "Blog"]; atom_entry]].

(** The document a browser builds for text that is not well-formed XML. *)
Definition parsererror_doc : document :=
  [el "parsererror" [txt "error on line 1 at column 1"]].

Definition url_a : jsstring := lit "https://a.example/".
Definition url_b : jsstring := lit "https://b.example/feed".

(** HTML pages: one announcing a feed at [url_b], one announcing a feed at
    [url_a], one announcing none. *)
Definition page_to_b : jsstring :=
  lit "<!DOCTYPE html><html><head><link rel='alternate' type='application/rss+xml' href='https://b.example/feed'></head><body></body></html>".

Definition page_to_a : jsstring :=
  lit "<!DOCTYPE html><html><head><link rel='alternate' type='application/rss+xml' href='https://a.example/'></head><body></body></html>".

Definition page_plain : jsstring :=
  lit "<!DOCTYPE html><html><head></head><body>Hi</body></html>".

Definition page_doc (href : option jsstring) (bodyText : list node) : document :=
  [Comment (lit "html");
   el "html"
      [el "head"
          match href with
          | Some h =>
              [Element None (lit "link")
                 [(lit "rel", lit "alternate");
                  (lit "type", lit "application/rss+xml"); (lit "href", h)] []]
          | None => []
          end;
       el "body" bodyText]].

Definition sample_parseXml (text : jsstring) : document :=
  match lookup text [(rss_text, rss_doc); (atom_text, atom_doc)] with
  | Some d => d
  | None => parsererror_doc
  end.

Definition sample_parseHtml (text : jsstring) : document :=
  match lookup text [(page_to_b, page_doc (Some url_b) []);
                     (page_to_a, page_doc (Some url_a) []);
                     (page_plain, page_doc None [txt "Hi"])] with
  | Some d => d
  | None => html_of_text text
  end.

(** An absolute [http(s)] reference resolves to itself; the reference
    platform rejects every other one. *)
Definition sample_resolveUrl (href base : jsstring) : option jsstring :=
  if startsWith href (lit "http://") || startsWith href (lit "https://")
  then Some href else None.

(** A quoted JSON string. *)
Definition q (s : string) : jsstring := [34%N] ++ lit s ++ [34%N].

(** An answer of the conversion service with one item. *)
Definition json_text : jsstring :=
  lit "{" ++ q "status" ++ lit ":" ++ q "ok" ++ lit ","
      ++ q "feed" ++ lit ":{" ++ q "title" ++ lit ":" ++ q "News" ++ lit "},"
      ++ q "items" ++ lit ":[{" ++ q "title" ++ lit ":" ++ q "First" ++ lit ","
      ++ q "link" ++ lit ":" ++ q "https://x/a" ++ lit ","
      ++ q "pubDate" ++ lit ":" ++ q "2024-01-01 00:00:00" ++ lit ","
      ++ q "description" ++ lit ":" ++ q "<p>Hello</p>" ++ lit "}]}".

Definition json_data : R2JData :=
  mkR2JData (Some (lit "ok")) None (Some (lit "News"))
            (Some [mkR2JItem (lit "First") (lit "https://x/a")
                             (lit "2024-01-01 00:00:00")
                             None (Some (lit "<p>Hello</p>")) None None None]).

Definition sample_platform (net : N -> jsstring -> HttpOutcome) : Platform :=
  {| toLowerCase := ascii_lower;
     parseXml := sample_parseXml;
     parseHtml := sample_parseHtml;
     resolveUrl := sample_resolveUrl;
     parseJson := fun text => lookup text [(json_text, json_data)];
     randomUUID := fun n => lit "uuid-" ++ dec n;
     http := net |}.

Definition serve (text : jsstring) : HttpOutcome :=
  Responded 100 (mkResponse 200 (Some text) 10).

(** Networks: every relay serves the RSS feed; nothing is reachable; the
    first answer is a page without feed link; the first two answers are
    pages that announce each other. *)
Definition net_rss : N -> jsstring -> HttpOutcome := fun _ _ => serve rss_text.

Definition net_down : N -> jsstring -> HttpOutcome :=
  fun _ _ => NetworkFailure (lit "Failed to fetch").

Definition net_plain_page : N -> jsstring -> HttpOutcome := fun n _ =>
  if N.eqb n 0 then serve page_plain else NetworkFailure (lit "Failed to fetch").

Definition net_cycle : N -> jsstring -> HttpOutcome := fun n _ =>
  if N.eqb n 0 then serve page_to_b
  else if N.eqb n 1 then serve page_to_a
  else NetworkFailure (lit "Failed to fetch").

(** The relays are down and the conversion service answers. *)
Definition net_converter : N -> jsstring -> HttpOutcome := fun n _ =>
  if N.ltb n 4 then NetworkFailure (lit "Failed to fetch")
  else Responded 100 (mkResponse 200 (Some json_text) 10).

(** The first answer announces [url_b]; after that the relays are down. *)
Definition net_page_then_down : N -> jsstring -> HttpOutcome := fun n _ =>
  if N.eqb n 0 then serve page_to_b else NetworkFailure (lit "Failed to fetch").

(** A stored article, a newer fetch of the same link, and another one. *)
Definition art_old : Article :=
  mkArticle (lit "uuid-0") (lit "feed-1") (lit "First") (lit "https://x/a")
            (lit "2024-01-01") (lit "Hello") (lit "Hello") (Some []) None.

Definition art_new : Article :=
  mkArticle (lit "uuid-5") (lit "feed-2") (lit "First, again")
            (lit "https://x/a") (lit "2024-01-02") (lit "Hello!") (lit "Hello!")
            (Some []) None.

Definition art_other : Article :=
  mkArticle (lit "uuid-6") (lit "feed-2") (lit "Second") (lit "https://x/b")
            (lit "2024-01-02") (lit "World") (lit "World") (Some []) None.

Definition app0 : AppState :=
  mkApp [mkFeed (lit "feed-1") url_a (lit "News")] [art_old].

Definition added : Action :=
  FeedAdded url_b (lit "feed-2") (mkResult (lit "More") [art_new; art_other]).

Definition w0 : World := mkWorld 1700000000000 0 0.

Definition w1 : World := mkWorld 1700000001000 7 0.

Definition fid : jsstring := lit "feed-1".

(** A feed whose items carry markup in two ways.  The description of the
    first is escaped twice, so that the content holds [&lt;b&gt;] and the
    HTML parser makes text of it; the description of the second holds a
    paragraph of 310 letters with a class attribute, and a comment. *)
Definition markup_text : jsstring :=
  lit "<rss version='2.0'><channel><title>Tips</title><item><title>Bold</title><link>https://x/bold</link><description>Use &amp;lt;b&amp;gt;bold&amp;lt;/b&amp;gt; here</description></item><item><title>Long</title><link>https://x/long</link><description>&lt;p class='lead'&gt;"
      ++ repeat 97%N 310
      ++ lit "&lt;/p&gt;&lt;!-- more --&gt;</description></item></channel></rss>".

Definition escaped_content : jsstring := lit "Use &lt;b&gt;bold&lt;/b&gt; here".

Definition long_content : jsstring :=
  lit "<p class='lead'>" ++ repeat 97%N 310 ++ lit "</p><!-- more -->".

Definition markup_doc : document :=
  [Element None (lit "rss") [(lit "version", lit "2.0")]
     [el "channel"
         [el "title" [txt "Tips"];
          el "item" [el "title" [txt "Bold"]; el "link" [txt "https://x/bold"];
                     el "description" [TextNode escaped_content]];
          el "item" [el "title" [txt "Long"]; el "link" [txt "https://x/long"];
                     el "description" [TextNode long_content]]]]].

(** The documents an HTML parser builds for the two contents: the
    character references of the first become the text [<b>bold</b>]; the
    second gives an element, its attribute, its text and a comment. *)
Definition escaped_html : document :=
  [el "html" [el "head" []; el "body" [txt "Use <b>bold</b> here"]]].

Definition long_html : document :=
  [el "html"
      [el "head" [];
       el "body" [Element None (lit "p") [(lit "class", lit "lead")]
                          [TextNode (repeat 97%N 310)];
                  Comment (lit " more ")]]].

Definition markup_platform : Platform :=
  {| toLowerCase := ascii_lower;
     parseXml := fun text =>
       match lookup text [(markup_text, markup_doc)] with
       | Some d => d
       | None => parsererror_doc
       end;
     parseHtml := fun text =>
       match lookup text [(escaped_content, escaped_html);
                          (long_content, long_html)] with
       | Some d => d
       | None => html_of_text text
       end;
     resolveUrl := sample_resolveUrl;
     parseJson := fun _ => None;
     randomUUID := fun n => lit "uuid-" ++ dec n;
     http := net_down |}.

(* ================================================================== *)
(** ** The transport policy in the words of its description *)

Section TransportPolicy.

Context {P : Platform}.

Definition blank (text : jsstring) : bool :=
  negb (truthy text) || Nat.eqb (List.length (trim text)) 0.

(** What one relay attempt makes of the answer of the network: a network
    error, a timeout, a bad status, an unreadable or empty body are
    failures; anything else is the text. *)
Definition relay_verdict (answer : HttpOutcome) : Result jsstring :=
  match answer with
  | NetworkFailure m => Throw (Builtin KTypeError m)
  | Responded latency r =>
      if (RELAY_TIMEOUT <=? latency)%N then
        Throw (Builtin KAbortError (lit "The operation was aborted."))
      else if negb (resp_ok r) then
        Throw (Error (lit "HTTP error! status: " ++ dec (status r)))
      else
        match body r with
        | None => Throw (Builtin KTypeError (lit "Failed to fetch"))
        | Some text =>
            if blank text then Throw (Error (lit "Empty response")) else Ok text
        end
  end.

(** The relays are tried in list order; a failed attempt records its error
    and hands over to the next relay at once; the first text ends the
    rotation; when the list is exhausted the rotation fails with the last
    recorded error, or with the generic one when none was recorded. *)
Inductive relay_rotation (url : jsstring)
  : list Proxy -> option JsError -> World -> Outcome jsstring -> Prop :=
| rot_exhausted : forall e w,
    relay_rotation url [] (Some e) w (mkOut (Throw e) w [])
| rot_none_recorded : forall w,
    relay_rotation url [] None w
      (mkOut (Throw (Error (lit "Failed to fetch feed from all proxies"))) w [])
| rot_success : forall p rest last w text,
    res (relay_attempt p url w) = Ok text ->
    relay_rotation url (p :: rest) last w (relay_attempt p url w)
| rot_failover : forall p rest last w e o,
    res (relay_attempt p url w) = Throw e ->
    relay_rotation url rest (Some e) (world (relay_attempt p url w)) o ->
    relay_rotation url (p :: rest) last w
      (mkOut (res o) (world o) (events (relay_attempt p url w) ++ events o)).

End TransportPolicy.

(* ================================================================== *)
(** ** Vocabulary of the statements *)

Section Vocabulary.

Context {P : Platform}.

(** The article [parse_item] builds for [item] when the clock reads [now],
    the identifier drawn is [uuid], and [body] is the body of the HTML
    document [doc] made from the content of the item. *)
Definition article_of (feedId : jsstring) (now : N) (uuid : jsstring)
           (item : node) (doc : document) (body : node) : Article :=
  mkArticle uuid feedId
            (opt_or (text_of (querySelector item [Tag (lit "title")])) UNTITLED)
            (item_link item)
            (match item_date item with
             | Some d => d
             | None => toISOString now
             end)
            (item_content item)
            (snippet_of (textContent body))
            (item_thumbnail item doc)
            (item_author item).

(** [a] is what [parse_item] makes of [item] at clock reading [now]. *)
Definition item_article (feedId : jsstring) (now : N) (item : node)
           (a : Article) : Prop :=
  exists body,
    doc_body (parseHtml (item_content item)) = Some body /\
    a = article_of feedId now (id a) item (parseHtml (item_content item)) body.

(** The date of the article of [item] parsed at clock reading [now]: the
    date of the item when it has one, else the time of the parse. *)
Definition dated (now : N) (item : node) (a : Article) : Prop :=
  pubDate a = match item_date item with
              | Some d => d
              | None => toISOString now
              end.

(** The snippet in the words of its description: the first 300 code
    units of the text, trimmed, and the ellipsis when the text is longer
    than that. *)
Definition snippet_text (t : jsstring) : jsstring :=
  trim (firstn 300 t) ++
  (if Nat.ltb 300 (List.length t) then lit "..." else []).

(** The recursive call one level of [fetchFeed] makes, if it makes one:
    the direct chain failed with a [FeedDiscoveryError] and discovery on
    the HTML it carries found a non-empty URL other than [url].  The
    result is that URL and the world in which the call starts. *)
Definition recursion_target (url feedId : jsstring) (w : World)
  : option (jsstring * World) :=
  match res (direct_fetch url feedId w) with
  | Throw (FeedDiscoveryError _ html _) =>
      let og := getFeedUrlFromHtml html url (world (direct_fetch url feedId w)) in
      match res og with
      | Ok (Some d) =>
          if truthy d && negb (str_eqb d url) then Some (d, world og) else None
      | _ => None
      end
  | _ => None
  end.

(** The levels of a run of [fetchFeed]: the URL of each call and the world
    in which the call starts, in order.  Each level but the first is
    entered by the discovery step of the level before it. *)
Fixpoint levels (fuel : nat) (url feedId : jsstring) (w : World)
  : list (jsstring * World) :=
  match fuel with
  | O => []
  | S fuel' =>
      (url, w) :: match recursion_target url feedId w with
                  | Some (d, w') => levels fuel' d feedId w'
                  | None => []
                  end
  end.

End Vocabulary.

(** Two articles that agree on everything a parse derives from the text. *)
Definition same_content (a b : Article) : Prop :=
  feedId a = feedId b /\ title a = title b /\ link a = link b /\
  content a = content b /\ contentSnippet a = contentSnippet b /\
  thumbnail a = thumbnail b /\ author a = author b.

(** Two parses of one item at clock readings [now1] and [now2]: the same
    content, and the same date unless each carries the time of its own
    parse. *)
Definition same_parse (now1 now2 : N) (a b : Article) : Prop :=
  same_content a b /\
  (pubDate a = pubDate b \/
   (pubDate a = toISOString now1 /\ pubDate b = toISOString now2)).

Definition is_fetchFeed_call (e : Event) : bool :=
  match e with Call_fetchFeed _ _ => true | _ => false end.

Definition is_fallback_call (e : Event) : bool :=
  match e with Call_fetchWithRss2Json _ _ => true | _ => false end.

(** The calls of [fetchFeed] and of the fallback converter in a trace. *)
Definition fetchFeed_calls (t : list Event) : list Event :=
  filter is_fetchFeed_call t.

Definition fallback_calls (t : list Event) : list Event :=
  filter is_fallback_call t.

(** An event that is neither a call of [fetchFeed] nor of the fallback. *)
Definition is_leaf (e : Event) : bool :=
  negb (is_fetchFeed_call e) && negb (is_fallback_call e).

(** A computation that calls neither [fetchFeed] nor the fallback, and
    that returns or throws whatever the recursion budget. *)
Definition quiet {A} (m : M A) : Prop :=
  forall w,
    Forall (fun e => is_leaf e = true) (events (m w)) /\
    res (m w) <> OutOfFuel.

(* ================================================================== *)
(** ** Vocabulary of the further statements *)

(** A string of 16-bit code units. *)
Definition units_ok (s : jsstring) : bool := forallb (fun c => N.ltb c 65536) s.

(** A code unit that may stand in a URL component as it is, or the
    percent sign. *)
Definition uri_safe (c : N) : bool := uri_unreserved c || N.eqb c 37.

(** No [<] of the string has a [>] after it: nothing of the shape of a
    tag is left. *)
Fixpoint no_tag (s : jsstring) : bool :=
  match s with
  | [] => true
  | c :: r =>
      (if N.eqb c 60 then match after_gt r with None => true | Some _ => false end
       else true) && no_tag r
  end.

(** The request one relay attempt sends. *)
Definition relay_request (proxyUrl : jsstring) : Event :=
  NetRequest (mkRequest proxyUrl relay_headers (Some RELAY_TIMEOUT)).

(** The relay URLs of a feed URL, in the order of [PROXIES], for the clock
    reading [now]; the two relays that encode the URL drop out when it
    cannot be encoded. *)
Definition relay_urls (now : N) (url : jsstring) : list jsstring :=
  match encodeURIComponent url with
  | Some e =>
      [lit "https://api.allorigins.win/raw?url=" ++ e ++ lit "&t=" ++ dec now;
       lit "https://api.codetabs.com/v1/proxy?quest=" ++ e]
  | None => []
  end ++
  [lit "https://yacdn.org/proxy/" ++ url;
   lit "https://thingproxy.freeboard.io/fetch/" ++ url].

(** The request of the fallback converter. *)
Definition converter_request (encoded : jsstring) : Event :=
  NetRequest (mkRequest (lit "https://api.rss2json.com/v1/api.json?rss_url="
                             ++ encoded) [] None).

(** The URLs of the calls of [fetchFeed] in a trace. *)
Definition call_urls (t : list Event) : list jsstring :=
  flat_map (fun e => match e with Call_fetchFeed u _ => [u] | _ => [] end) t.

(** No two neighbours of the list are equal. *)
Fixpoint adjacent_distinct (l : list jsstring) : Prop :=
  match l with
  | [] => True
  | u :: r =>
      match r with
      | [] => True
      | v :: _ => u <> v
      end /\ adjacent_distinct r
  end.

(** A computation that never throws the discovery signal. *)
Definition plain {A} (m : M A) : Prop :=
  forall w e, res (m w) = Throw e -> is_discovery e = false.

Section FurtherVocabulary.

Context {P : Platform}.

(** The text is classified as an HTML page that is no feed. *)
Definition html_page (text : jsstring) : bool :=
  let lower := toLowerCase (trim (strip_bom text)) in
  looks_html lower && negb (looks_feed lower).

(** The XML parser rejects the text and the text names [<html] or [<body]. *)
Definition disguised_html (text : jsstring) : bool :=
  let t := strip_bom text in
  match doc_querySelector (parseXml t) [Tag (lit "parsererror")] with
  | Some _ => includes (trim t) (lit "<html") || includes (trim t) (lit "<body")
  | None => false
  end.

(** The [href] of the first [link] element of feed type of a page, when
    it is not empty. *)
Definition announced_href (html : jsstring) : option jsstring :=
  match doc_querySelectorAll (parseHtml html) feed_link_selector with
  | first :: _ =>
      match getAttribute first (lit "href") with
      | Some href => if truthy href then Some href else None
      | None => None
      end
  | [] => None
  end.

End FurtherVocabulary.

(* ================================================================== *)
(** ** Visited links, notifications and topics ([App.tsx]) *)

(** A JavaScript [Set] of strings: its members in insertion order. *)
Definition StrSet := list jsstring.

(** [s.has(k)] *)
Definition set_has (s : StrSet) (k : jsstring) : bool := existsb (str_eqb k) s.

(** [s.add(k)] *)
Definition set_add (s : StrSet) (k : jsstring) : StrSet :=
  if set_has s k then s else s ++ [k].

(** [new Set(l)] *)
Definition new_Set (l : list jsstring) : StrSet := fold_left set_add l [].

(** [markAsVisited]: the new set of visited links, which is also the
    array written to storage. *)
Definition markAsVisited (visitedLinks : StrSet) (visited : jsstring) : StrSet :=
  set_add (new_Set visitedLinks) visited.

(** [clearVisitedHistory] *)
Definition clearVisitedHistory (visitedLinks : StrSet) : StrSet := new_Set [].

(** The two references of the application: the links of the articles
    seen so far and the first-load flag. *)
Record Refs : Type := mkRefs {
  knownArticleLinks : StrSet;
  isFirstLoad : bool
}.

(** A notification shown to the user. *)
Record Notification : Type := mkNotification {
  n_title : jsstring;
  n_body : jsstring;
  n_icon : option jsstring
}.

Definition NEW_ARTICLE : jsstring :=
  lit "Nov" ++ [253%N] ++ lit " " ++ [269%N] ++ lit "l" ++ [225%N] ++ lit "nek".

Definition NEW_ARTICLES : jsstring :=
  lit "Nov" ++ [233%N] ++ lit " " ++ [269%N] ++ lit "l" ++ [225%N] ++ lit "nky".

(** [uniqueArticles.filter(a => !knownArticleLinksRef.current.has(a.link))] *)
Definition newItems (known : StrSet) (uniqueArticles : list Article)
  : list Article :=
  filter (fun a => negb (set_has known (link a))) uniqueArticles.

(** The notification logic of [refreshFeeds]. *)
Definition notification_for (refs : Refs) (notificationsEnabled : bool)
           (uniqueArticles : list Article) : option Notification :=
  if negb (isFirstLoad refs) && notificationsEnabled then
    match newItems (knownArticleLinks refs) uniqueArticles with
    | [] => None
    | [a] => Some (mkNotification NEW_ARTICLE (title a) (thumbnail a))
    | items =>
        Some (mkNotification
                NEW_ARTICLES
                (lit "P" ++ [345%N] ++ lit "ibylo "
                     ++ dec (N.of_nat (List.length items))
                     ++ lit " nov" ++ [253%N] ++ lit "ch " ++ [269%N] ++ lit "l"
                     ++ [225%N] ++ lit "nk" ++ [367%N] ++ lit ".")
                None)
    end
  else None.

(** [unique.forEach(a => knownArticleLinksRef.current.add(a.link))] *)
Definition learn (known : StrSet) (unique : list Article) : StrSet :=
  fold_left (fun s a => set_add s (link a)) unique known.

(** [refreshFeeds] once its fetches have settled, with the references and
    the notification it shows, if any.  Without feeds it clears the
    articles and returns before it touches the references. *)
Definition refreshFeeds_notifying (st : AppState) (refs : Refs)
           (notificationsEnabled : bool) (results : list Settled)
  : AppState * Refs * option Notification :=
  match feeds st with
  | [] => (refreshFeeds st results, refs, None)
  | _ :: _ =>
      let st' := refreshFeeds st results in
      (st',
       mkRefs (learn (knownArticleLinks refs) (articles st')) false,
       notification_for refs notificationsEnabled (articles st'))
  end.

(** [addFeed] once its fetch has returned, with the references. *)
Definition addFeed_learning (st : AppState) (refs : Refs)
           (url newId : jsstring) (fetched : FeedFetchResult)
  : AppState * Refs :=
  if existsb (fun f => str_eqb (strip_slash (feed_url f)) (strip_slash url))
             (feeds st)
  then (st, refs)
  else
    let st' := addFeed st url newId fetched in
    (st', mkRefs (learn (knownArticleLinks refs) (articles st'))
                 (isFirstLoad refs)).

(** The topic chips and the keyword filter. *)
Record TopicState : Type := mkTopics {
  topics : list jsstring;
  filterKeywords : jsstring;
  newTopicInput : jsstring;
  isAddingTopic : bool
}.

Definition toggleFilter (ui : TopicState) (keyword : jsstring) : TopicState :=
  mkTopics (topics ui)
           (if str_eqb (filterKeywords ui) keyword then [] else keyword)
           (newTopicInput ui) (isAddingTopic ui).

Definition saveNewTopic (ui : TopicState) : TopicState :=
  let trimmed := trim (newTopicInput ui) in
  if truthy trimmed && negb (existsb (str_eqb trimmed) (topics ui)) then
    mkTopics (topics ui ++ [trimmed]) trimmed [] false
  else mkTopics (topics ui) (filterKeywords ui) [] false.

Definition handleKeyDown (ui : TopicState) (key : jsstring) : TopicState :=
  if str_eqb key (lit "Enter") then saveNewTopic ui
  else if str_eqb key (lit "Escape") then
    mkTopics (topics ui) (filterKeywords ui) [] false
  else ui.

Definition removeTopic (ui : TopicState) (topicToRemove : jsstring) : TopicState :=
  mkTopics (filter (fun t => negb (str_eqb t topicToRemove)) (topics ui))
           (if str_eqb (filterKeywords ui) topicToRemove then []
            else filterKeywords ui)
           (newTopicInput ui) (isAddingTopic ui).

(** What the user can do to the topic chips: click a chip, remove one,
    open the input, type into it, press a key in it, leave it, and type
    into the search box. *)
Inductive TopicAction : Type :=
| ClickTopic (topic : jsstring)
| ClickRemove (topic : jsstring)
| ClickAdd
| TypeTopic (value : jsstring)
| KeyDown (key : jsstring)
| Blur
| TypeSearch (value : jsstring).

Definition topic_step (ui : TopicState) (a : TopicAction) : TopicState :=
  match a with
  | ClickTopic topic => toggleFilter ui topic
  | ClickRemove topic => removeTopic ui topic
  | ClickAdd => mkTopics (topics ui) (filterKeywords ui) (newTopicInput ui) true
  | TypeTopic value =>
      mkTopics (topics ui) (filterKeywords ui) value (isAddingTopic ui)
  | KeyDown key => handleKeyDown ui key
  | Blur => saveNewTopic ui
  | TypeSearch value =>
      mkTopics (topics ui) value (newTopicInput ui) (isAddingTopic ui)
  end.

(* ================================================================== *)
(** ** The article list ([components/ArticleList.tsx]) *)

(** [s.split(' ')] for a one-unit separator. *)
Fixpoint split_on (sep : N) (s : jsstring) : list jsstring :=
  match s with
  | [] => [[]]
  | c :: r =>
      if N.eqb c sep then [] :: split_on sep r
      else
        match split_on sep r with
        | piece :: pieces => (c :: piece) :: pieces
        | [] => [[c]]
        end
  end.

Section ArticleList.

Context {P : Platform}.

(** [filterKeywords.toLowerCase().split(' ').filter(k => k)] *)
Definition keywords_of (filterKeywords : jsstring) : list jsstring :=
  filter truthy (split_on 32 (toLowerCase filterKeywords)).

(** The callback of [sortedArticles.filter]. *)
Definition shown (filterKeywords : jsstring) (hideRead : bool)
           (visitedLinks : StrSet) (article : Article) : bool :=
  if truthy (trim filterKeywords)
     && negb (forallb
                (includes (toLowerCase (title article ++ lit " "
                                              ++ contentSnippet article)))
                (keywords_of filterKeywords))
  then false
  else if hideRead && set_has visitedLinks (link article) then false
  else true.

Definition filteredArticles (sortedArticles : list Article)
           (filterKeywords : jsstring) (hideRead : bool)
           (visitedLinks : StrSet) : list Article :=
  filter (shown filterKeywords hideRead visitedLinks) sortedArticles.

End ArticleList.

(** [getFeedName] *)
Definition getFeedName (feeds : list Feed) (feedId : jsstring) : jsstring :=
  opt_or (option_map feed_title
                     (find (fun f => str_eqb (feed_id f) feedId) feeds))
         UNKNOWN_SOURCE.

(* ================================================================== *)
(** ** Summaries ([services/geminiService.ts]) *)

(** What the text-generation service does with a request: it answers,
    with or without text, or the call throws. *)
Inductive GenOutcome : Type :=
| Generated (text : option jsstring)
| GenFailed (e : JsError).

(** [ai.models.generateContent({ model, contents })] *)
Class GenAI : Type := {
  generateContent : jsstring -> jsstring -> GenOutcome
}.

Definition MODEL : jsstring := lit "gemini-2.5-flash".

Definition PROMPT : jsstring :=
  lit "Vytvo" ++ [345%N] ++ lit " stru" ++ [269%N] ++ lit "n" ++ [233%N]
      ++ lit " shrnut" ++ [237%N] ++ lit " n" ++ [225%N] ++ lit "sleduj"
      ++ [237%N] ++ lit "c" ++ [237%N] ++ lit "ho textu v " ++ [269%N]
      ++ lit "esk" ++ [233%N] ++ lit "m jazyce (maxim" ++ [225%N] ++ lit "ln"
      ++ [283%N] ++ lit " 3 odr" ++ [225%N] ++ [382%N] ++ lit "ky). Text "
      ++ [269%N] ++ lit "l" ++ [225%N] ++ lit "nku: ".

Definition NO_SUMMARY : jsstring :=
  lit "Nepoda" ++ [345%N] ++ lit "ilo se vygenerovat shrnut" ++ [237%N]
      ++ lit ".".

Definition APOLOGY : jsstring :=
  lit "Omlouv" ++ [225%N] ++ lit "me se, p" ++ [345%N] ++ lit "i generov"
      ++ [225%N] ++ lit "n" ++ [237%N] ++ lit " shrnut" ++ [237%N] ++ lit " do"
      ++ [353%N] ++ lit "lo k chyb" ++ [283%N] ++ lit ".".

Section Summaries.

Context {G : GenAI}.

(** [summarizeContent] *)
Definition summarizeContent (text : jsstring) : jsstring :=
  match generateContent MODEL (PROMPT ++ slice0 5000 text) with
  | Generated response_text => opt_or response_text NO_SUMMARY
  | GenFailed _ => APOLOGY
  end.

(** The summaries of the article list, keyed by article id; the entry
    written last for an id is the one read. *)
Definition Summaries := list (jsstring * jsstring).

Definition summary_of (summaries : Summaries) (articleId : jsstring)
  : option jsstring :=
  lookup articleId summaries.

(** The state of the article list that the summary button reads and
    writes. *)
Record SummaryState : Type := mkSummaryState {
  summaries : Summaries;
  summarizingId : option jsstring
}.

(** The text [handleSummarize] passes to [summarizeContent]. *)
Definition summary_input (article : Article) : jsstring :=
  or_str (content article) (contentSnippet article).

(** [handleSummarize] up to its [await]: the state it leaves while the
    call is in flight, and the text it sends, if it sends one. *)
Definition handleSummarize (ui : SummaryState) (article : Article)
  : SummaryState * option jsstring :=
  if opt_truthy (summary_of (summaries ui) (id article)) then (ui, None)
  else (mkSummaryState (summaries ui) (Some (id article)),
        Some (summary_input article)).

(** [handleSummarize] from its [await] on, in the state [ui] of the time
    at which the summary arrives. *)
Definition handleSummarize_resumed (ui : SummaryState) (article : Article)
  : SummaryState :=
  mkSummaryState
    ((id article, summarizeContent (summary_input article)) :: summaries ui)
    None.

(** [disabled={!!summaries[article.id] || summarizingId === article.id}] *)
Definition summarize_disabled (ui : SummaryState) (article : Article) : bool :=
  opt_truthy (summary_of (summaries ui) (id article)) ||
  match summarizingId ui with
  | Some i => str_eqb i (id article)
  | None => false
  end.

(** What happens to the list: the handler is called for an article, or
    the summary that a call waits for arrives. *)
Inductive SummaryEvent : Type :=
| Clicked (article : Article)
| Arrived (article : Article).

Definition summary_step (ui : SummaryState) (ev : SummaryEvent)
  : SummaryState :=
  match ev with
  | Clicked article => fst (handleSummarize ui article)
  | Arrived article => handleSummarize_resumed ui article
  end.

End Summaries.

(** The set of visited links read from storage, the stored article and
    two more for the examples. *)
Definition visited0 : StrSet := new_Set [lit "https://x/a"].

Definition ui0 : TopicState :=
  mkTopics [lit "AI"; lit "Apple"] (lit "Apple") (lit "  Tesla ") true.

(** The URLs of the subscribed feeds, a trailing slash left out: what
    [addFeed] compares. *)
Definition feed_keys (st : AppState) : list jsstring :=
  List.map (fun f => strip_slash (feed_url f)) (feeds st).

(** Every stored article belongs to a subscribed feed. *)
Definition owned (st : AppState) : Prop :=
  Forall (fun a => In (feedId a) (List.map feed_id (feeds st))) (articles st).

(** [refreshFeeds] with the feed list of its closure made explicit.  The
    fetches are started for the list [captured] that the closure holds.
    When they have settled, [setFeeds] updates the titles in the feed
    list of the state [st] of that time, by the ids of [captured], and
    [setArticles] replaces the article list by the articles fetched.
    [refreshFeeds st results] is the case [captured = feeds st] of a
    refresh during which the feed list did not change. *)
Definition refreshFeeds_settling (captured : list Feed) (st : AppState)
           (results : list Settled) : AppState :=
  match captured with
  | [] => mkApp (feeds st) []
  | _ :: _ =>
      mkApp (retitle_all captured results (feeds st))
            (uniqueByLink (collect_articles results))
  end.

(** The results of a refresh carry the ids of the feeds they were fetched
    for: what [fetchFeed] guarantees for the calls
    [feeds.map(feed => fetchFeed(feed.url, feed.id))]. *)
Definition stamped (captured : list Feed) (results : list Settled) : Prop :=
  Forall2 (fun f r =>
             match r with
             | Fulfilled v =>
                 Forall (fun x => feedId x = feed_id f) (r_articles v)
             | Rejected _ => True
             end)
          captured results.

(** A state with two feeds, and the settled results of a refresh started
    in it: the first fetch failed, the second returned two articles. *)
Definition app2 : AppState := step app0 added.

Definition results2 : list Settled :=
  [Rejected (Builtin KError (lit "RSS2JSON failed with status 500"));
   Fulfilled (mkResult (lit "More") [art_new; art_other])].

(* ================================================================== *)
(** * Properties *)

Unset Implicit Arguments.

(** ** Strings *)

Lemma str_eqb_eq (a b : jsstring) : str_eqb a b = true <-> a = b.
Proof.
  revert b; induction a as [|c a IH]; intros [|d b]; simpl; split;
    try congruence; try reflexivity.
  - intros H. apply andb_true_iff in H as [H1 H2].
    apply N.eqb_eq in H1. apply IH in H2. congruence.
  - intros H. injection H as -> ->.
    rewrite N.eqb_refl. simpl. now apply IH.
Qed.

Lemma str_eqb_refl (a : jsstring) : str_eqb a a = true.
Proof. now apply str_eqb_eq. Qed.

Lemma str_eqb_neq (a b : jsstring) : str_eqb a b = false <-> a <> b.
Proof.
  split.
  - intros H E. apply str_eqb_eq in E. congruence.
  - intros H. destruct (str_eqb a b) eqn:E; [|reflexivity].
    apply str_eqb_eq in E. contradiction.
Qed.

Lemma trimStart_length (s : jsstring) :
  List.length (trimStart s) <= List.length s.
Proof.
  induction s as [|c s IH]; simpl; [lia|].
  destruct (is_space c); simpl; lia.
Qed.

Lemma trim_length (s : jsstring) : List.length (trim s) <= List.length s.
Proof.
  unfold trim, trimEnd. rewrite length_rev.
  etransitivity; [apply trimStart_length|].
  rewrite length_rev. apply trimStart_length.
Qed.

(** ** The normaliser classifies HTML before it parses *)

Section Classification.

Context {P : Platform}.

(** C1 (as amended): when the trimmed, BOM-stripped text starts,
    case-insensitively, with an HTML doctype or an [<html] tag and holds
    none of the markers [<rss], [<feed], [<rdf:rdf], [parseXmlFeed] throws
    the [FeedDiscoveryError] that carries the BOM-stripped text, otherwise
    unchanged, and the original URL; it makes no parser call and leaves
    the world as it was. *)
Theorem parseXmlFeed_html_is_discovery_error
        (text feedId originalUrl : jsstring) (w : World) :
  looks_html (toLowerCase (trim (strip_bom text))) = true ->
  looks_feed (toLowerCase (trim (strip_bom text))) = false ->
  parseXmlFeed text feedId originalUrl w =
  mkOut (Throw (FeedDiscoveryError (lit "Received HTML page instead of XML")
                                   (strip_bom text) originalUrl))
        w [].
Proof.
  intros Hhtml Hfeed. unfold parseXmlFeed.
  rewrite Hhtml, Hfeed. reflexivity.
Qed.

End Classification.

Lemma parseXmlFeed_html_is_discovery_error_witness :
  parseXmlFeed (P := sample_platform net_down)
               (BOM :: page_plain) fid url_a w0 =
  mkOut (Throw (FeedDiscoveryError (lit "Received HTML page instead of XML")
                                   page_plain url_a))
        w0 [].
Proof.
  apply (parseXmlFeed_html_is_discovery_error
           (P := sample_platform net_down) (BOM :: page_plain) fid url_a w0);
    vm_compute; reflexivity.
Defined.

(** C1 as stated fails on a text that begins with a byte-order mark: the
    error carries the text without the mark, not the text received. *)
Lemma parseXmlFeed_carries_stripped_text :
  let text := BOM :: page_plain in
  looks_html (ascii_lower (trim (strip_bom text))) = true /\
  looks_feed (ascii_lower (trim (strip_bom text))) = false /\
  forall m,
    res (parseXmlFeed (P := sample_platform net_down) text fid url_a w0)
    <> Throw (FeedDiscoveryError m text url_a).
Proof.
  cbv zeta. split; [vm_compute; reflexivity|].
  split; [vm_compute; reflexivity|].
  intros m H. vm_compute in H. discriminate H.
Qed.

(** ** Transport layer *)

Section Transport.

Context {P : Platform}.

Lemma relay_attempt_verdict (p : Proxy) (url : jsstring) (w : World) :
  res (relay_attempt p url w) =
    match p (clock w) url with
    | Some proxyUrl => relay_verdict (http (requests w) proxyUrl)
    | None => Throw URI_ERROR
    end /\
  events (relay_attempt p url w) =
    match p (clock w) url with
    | Some proxyUrl =>
        [NetRequest (mkRequest proxyUrl relay_headers (Some RELAY_TIMEOUT))]
    | None => []
    end.
Proof.
  unfold relay_attempt, build, bind, date_now; simpl.
  destruct (p (clock w) url) as [proxyUrl|]; simpl; [|split; reflexivity].
  unfold fetch, relay_verdict; simpl.
  destruct (http (requests w) proxyUrl) as [m|latency r]; simpl;
    [split; reflexivity|].
  destruct (RELAY_TIMEOUT <=? latency)%N; simpl; [split; reflexivity|].
  destruct (resp_ok r); simpl; [|split; reflexivity].
  unfold response_text, bind, elapse; simpl.
  destruct (body r) as [text|]; simpl; [|split; reflexivity].
  unfold blank.
  destruct (negb (truthy text) || Nat.eqb (List.length (trim text)) 0);
    simpl; split; reflexivity.
Qed.

Lemma fetchRawText_from_rotation (url : jsstring) (proxies : list Proxy) :
  forall last w,
    relay_rotation url proxies last w (fetchRawText_from proxies url last w).
Proof.
  induction proxies as [|p rest IH]; intros last w; simpl.
  - destruct last as [e|]; constructor.
  - unfold try_catch.
    destruct (res (relay_attempt p url w)) as [text|e|] eqn:E.
    + eapply rot_success; eassumption.
    + eapply rot_failover; [eassumption|apply IH].
    + exfalso. destruct (relay_attempt_verdict p url w) as [Hr _].
      rewrite E in Hr.
      destruct (p (clock w) url) as [proxyUrl|]; [|discriminate].
      unfold relay_verdict in Hr.
      destruct (http (requests w) proxyUrl) as [m|latency r]; [discriminate|].
      destruct (RELAY_TIMEOUT <=? latency)%N; [discriminate|].
      destruct (negb (resp_ok r)); [discriminate|].
      destruct (body r) as [text|]; [|discriminate].
      destruct (blank text); discriminate.
Qed.

Lemma fetchRawText_from_requests (url : jsstring) (proxies : list Proxy) :
  forall last w,
    Forall (fun e => exists proxyUrl,
                e = NetRequest (mkRequest proxyUrl relay_headers
                                          (Some RELAY_TIMEOUT)))
           (events (fetchRawText_from proxies url last w)) /\
    res (fetchRawText_from proxies url last w) <> OutOfFuel.
Proof.
  induction proxies as [|p rest IH]; intros last w; simpl.
  - destruct last; split; (constructor || discriminate).
  - unfold try_catch.
    destruct (relay_attempt_verdict p url w) as [Hr He].
    assert (Hev : Forall (fun e => exists proxyUrl,
                              e = NetRequest (mkRequest proxyUrl relay_headers
                                                        (Some RELAY_TIMEOUT)))
                         (events (relay_attempt p url w))).
    { rewrite He. destruct (p (clock w) url) as [proxyUrl|];
        repeat constructor. eauto. }
    destruct (res (relay_attempt p url w)) as [text|e|] eqn:E; cbn [res events].
    + split; [exact Hev|congruence].
    + destruct (IH (Some e) (world (relay_attempt p url w))) as [IH1 IH2].
      split; [apply Forall_app; split; assumption|exact IH2].
    + exfalso. destruct (p (clock w) url) as [proxyUrl|]; [|discriminate].
      unfold relay_verdict in Hr.
      destruct (http (requests w) proxyUrl) as [m|latency r]; [discriminate|].
      destruct (RELAY_TIMEOUT <=? latency)%N; [discriminate|].
      destruct (negb (resp_ok r)); [discriminate|].
      destruct (body r) as [text|]; [|discriminate].
      destruct (blank text); discriminate.
Qed.

(** C6: [fetchRawText] runs the rotation over [PROXIES], four builders in
    the order of the source, each attempt under the 12000 ms abort timer.
    An attempt sends one request to the URL its builder made and fails on
    a network error, on the timer, on a status outside 200-299, on an
    unreadable body and on an empty or blank body; a failed attempt records
    its error and the next relay is tried at once; exhaustion throws the
    last recorded error, the generic one when none was recorded.  Every
    request of a run carries the timer, and the run returns or throws. *)
Theorem fetchRawText_relay_policy
        (proxies : list Proxy) (url : jsstring) (last : option JsError)
        (w : World) :
  relay_rotation url proxies last w (fetchRawText_from proxies url last w)
  /\ (forall p w',
         res (relay_attempt p url w') =
           match p (clock w') url with
           | Some proxyUrl => relay_verdict (http (requests w') proxyUrl)
           | None => Throw URI_ERROR
           end /\
         events (relay_attempt p url w') =
           match p (clock w') url with
           | Some proxyUrl =>
               [NetRequest (mkRequest proxyUrl relay_headers (Some 12000%N))]
           | None => []
           end)
  /\ Forall (fun e => exists proxyUrl,
                 e = NetRequest (mkRequest proxyUrl relay_headers
                                           (Some 12000%N)))
            (events (fetchRawText_from proxies url last w))
  /\ res (fetchRawText_from proxies url last w) <> OutOfFuel
  /\ fetchRawText url w =
     fetchRawText_from
       [proxy_allorigins; proxy_codetabs; proxy_yacdn; proxy_thingproxy]
       url None w.
Proof.
  split; [apply fetchRawText_from_rotation|].
  split; [intros p w'; apply relay_attempt_verdict|].
  split; [apply fetchRawText_from_requests|].
  split; [apply fetchRawText_from_requests|reflexivity].
Qed.

End Transport.

(** With every relay down, the four relays are asked in the order of the
    list and the error of the last one is thrown. *)
Example fetchRawText_all_relays_down :
  let o := fetchRawText (P := sample_platform net_down) url_a w0 in
  res o = Throw (Builtin KTypeError (lit "Failed to fetch")) /\
  List.map (fun e => match e with NetRequest rq => req_url rq | _ => [] end)
           (events o)
  = [lit "https://api.allorigins.win/raw?url=https%3A%2F%2Fa.example%2F&t=1700000000000";
     lit "https://api.codetabs.com/v1/proxy?quest=https%3A%2F%2Fa.example%2F";
     lit "https://yacdn.org/proxy/https://a.example/";
     lit "https://thingproxy.freeboard.io/fetch/https://a.example/"].
Proof. split; vm_compute; reflexivity. Qed.

(** ** The normaliser *)

Lemma trimStart_suffix (s : jsstring) : exists pre, s = pre ++ trimStart s.
Proof.
  induction s as [|c s [pre IH]]; simpl.
  - exists []. reflexivity.
  - destruct (is_space c).
    + exists (c :: pre). simpl. now rewrite <- IH.
    + exists []. reflexivity.
Qed.

Lemma trim_segment (s : jsstring) : exists pre post, s = pre ++ trim s ++ post.
Proof.
  destruct (trimStart_suffix s) as [pre Hpre].
  destruct (trimStart_suffix (rev (trimStart s))) as [q Hq].
  exists pre, (rev q). unfold trim, trimEnd.
  rewrite <- rev_app_distr, <- Hq, rev_involutive. exact Hpre.
Qed.

Lemma or_str_nil_r (s : jsstring) : or_str s [] = s.
Proof. destruct s; reflexivity. Qed.

Lemma snippet_of_length (t : jsstring) : List.length (snippet_of t) <= 303.
Proof.
  unfold snippet_of, slice0. rewrite or_str_nil_r.
  assert (H : List.length (trim (firstn 300 t)) <= 300).
  { etransitivity; [apply trim_length|]. rewrite length_firstn. lia. }
  assert (H3 : List.length (lit "...") = 3) by reflexivity.
  destruct (truthy t && Nat.ltb 300 (List.length t));
    rewrite ?length_app, ?H3; cbn [List.length]; lia.
Qed.

Lemma snippet_of_segment (t : jsstring) :
  exists pre core post ell,
    t = pre ++ core ++ post /\ snippet_of t = core ++ ell /\
    (ell = [] \/ ell = lit "...").
Proof.
  destruct (trim_segment (firstn 300 t)) as (pre & post & H).
  unfold snippet_of, slice0. rewrite or_str_nil_r.
  set (ell := if truthy t && Nat.ltb 300 (List.length t) then lit "..." else []).
  exists pre, (trim (firstn 300 t)), (post ++ skipn 300 t), ell.
  split; [|split].
  - rewrite <- (firstn_skipn 300 t) at 1. rewrite H at 1.
    now rewrite <- !app_assoc.
  - reflexivity.
  - subst ell. destruct (truthy t && Nat.ltb 300 (List.length t)); auto.
Qed.

(** The snippet the code builds is the one of the description: neither
    the guard on the text nor the final [|| ''] changes it. *)
Lemma snippet_of_text (t : jsstring) : snippet_of t = snippet_text t.
Proof.
  unfold snippet_of, snippet_text, slice0. rewrite or_str_nil_r.
  destruct t as [|c t]; reflexivity.
Qed.

Lemma textContent_units :
  forall (n : node) (c : N),
    In c (textContent n) -> exists d, In d (text_nodes n) /\ In c d.
Proof.
  fix IH 1. intros [p l attrs cs|d|d] c H; cbn [textContent text_nodes] in *.
  - induction cs as [|n cs IHcs]; [destruct H|].
    cbn [flat_map] in *. apply in_app_or in H as [H|H].
    + destruct (IH n c H) as (d & Hd & Hc).
      exists d. split; [apply in_or_app; now left|exact Hc].
    + destruct (IHcs H) as (d & Hd & Hc).
      exists d. split; [apply in_or_app; now right|exact Hc].
  - exists d. split; [now left|exact H].
  - destruct H.
Qed.

Lemma after_gt_app (a b : jsstring) :
  after_gt (a ++ b) = None <-> after_gt a = None /\ after_gt b = None.
Proof.
  induction a as [|c a IH]; cbn [app after_gt]; [tauto|].
  destruct (N.eqb c 62); [|exact IH].
  split; [discriminate|intros [H _]; discriminate H].
Qed.

Lemma no_tag_app_r (a b : jsstring) : no_tag (a ++ b) = true -> no_tag b = true.
Proof.
  induction a as [|c a IH]; cbn [app no_tag]; [auto|].
  intros H. apply andb_true_iff in H as [_ H]. now apply IH.
Qed.

Lemma no_tag_app_l (a b : jsstring) : no_tag (a ++ b) = true -> no_tag a = true.
Proof.
  induction a as [|c a IH]; cbn [app no_tag]; [auto|].
  intros H. apply andb_true_iff in H as [H1 H2].
  apply andb_true_iff. split; [|now apply IH].
  destruct (N.eqb c 60); [|reflexivity].
  destruct (after_gt (a ++ b)) eqn:G; [discriminate|].
  apply after_gt_app in G as [-> _]. reflexivity.
Qed.

Lemma no_tag_dots (s : jsstring) :
  no_tag s = true -> no_tag (s ++ lit "...") = true.
Proof.
  induction s as [|c s IH]; cbn [app no_tag]; [reflexivity|].
  intros H. apply andb_true_iff in H as [H1 H2].
  apply andb_true_iff. split; [|now apply IH].
  destruct (N.eqb c 60); [|reflexivity].
  destruct (after_gt s) eqn:G; [discriminate|].
  assert (E : after_gt (s ++ lit "...") = None)
    by (apply after_gt_app; split; [exact G|reflexivity]).
  now rewrite E.
Qed.

Section Normaliser.

Context {P : Platform}.

Lemma parse_item_eq (feedId : jsstring) (item : node) (w : World) :
  parse_item feedId item w =
  let doc := parseHtml (item_content item) in
  match doc_body doc with
  | None => mkOut (Throw NO_BODY) w [HtmlParse (item_content item)]
  | Some body =>
      mkOut (Ok (article_of feedId (clock w) (randomUUID (nonce w)) item doc body))
            (mkWorld (clock w) (nonce w + 1) (requests w))
            [HtmlParse (item_content item)]
  end.
Proof.
  unfold parse_item, article_of, bind, date_iso, date_now, dom_parse_html,
    emit, bind, ret, throw, fresh_uuid; simpl.
  destruct (item_date item); simpl;
    destruct (doc_body (parseHtml (item_content item))); reflexivity.
Qed.

Lemma mapM_cons_run {A B} (f : A -> M B) (a : A) (l : list A) (w : World) :
  mapM f (a :: l) w =
  match res (f a w) with
  | Ok b =>
      let o := mapM f l (world (f a w)) in
      mkOut (match res o with
             | Ok bs => Ok (b :: bs)
             | Throw e => Throw e
             | OutOfFuel => OutOfFuel
             end)
            (world o) (events (f a w) ++ events o)
  | Throw e => mkOut (Throw e) (world (f a w)) (events (f a w))
  | OutOfFuel => mkOut OutOfFuel (world (f a w)) (events (f a w))
  end.
Proof.
  simpl. unfold bind, ret.
  destruct (res (f a w)); [|reflexivity|reflexivity].
  destruct (res (mapM f l (world (f a w)))); simpl;
    rewrite ?app_nil_r; reflexivity.
Qed.

Lemma parse_items_spec (feedId : jsstring) (items : list node) :
  forall w,
    let o := mapM (parse_item feedId) items w in
    clock (world o) = clock w /\ requests (world o) = requests w /\
    match res o with
    | Ok arts => Forall2 (item_article feedId (clock w)) items arts
    | Throw e =>
        e = NO_BODY /\
        Exists (fun item => doc_body (parseHtml (item_content item)) = None) items
    | OutOfFuel => False
    end.
Proof.
  induction items as [|item items IH]; intros w; cbv zeta.
  - simpl. repeat split. constructor.
  - rewrite mapM_cons_run, parse_item_eq. cbv zeta.
    destruct (doc_body (parseHtml (item_content item))) as [body|] eqn:Hb; simpl.
    + specialize (IH (mkWorld (clock w) (nonce w + 1) (requests w))).
      cbv zeta in IH. simpl in IH. destruct IH as (Hc & Hr & IH).
      split; [exact Hc|]. split; [exact Hr|].
      destruct (res (mapM (parse_item feedId) items
                          (mkWorld (clock w) (nonce w + 1) (requests w))))
        as [arts|e|] eqn:E.
      * constructor; [|exact IH].
        exists body. split; [exact Hb|reflexivity].
      * split; [apply IH|]. apply Exists_cons_tl, IH.
      * contradiction.
    + repeat split. now apply Exists_cons_hd.
Qed.

Lemma parseXmlFeed_eq (text feedId originalUrl : jsstring) (w : World) :
  parseXmlFeed text feedId originalUrl w =
  let t := strip_bom text in
  let lower := toLowerCase (trim t) in
  if looks_html lower && negb (looks_feed lower) then
    mkOut (Throw (FeedDiscoveryError (lit "Received HTML page instead of XML")
                                     t originalUrl)) w []
  else
    let xml := parseXml t in
    match doc_querySelector xml [Tag (lit "parsererror")] with
    | Some errorNode =>
        if includes (trim t) (lit "<html") || includes (trim t) (lit "<body")
        then
          mkOut (Throw (FeedDiscoveryError
                          (lit "XML Parsing failed, content looks like HTML")
                          t originalUrl)) w [XmlParse t]
        else
          mkOut (Throw (Error (PARSE_PREFIX ++ lit "XML Parser Error: "
                                 ++ textContent errorNode))) w [XmlParse t]
    | None =>
        let o := mapM (parse_item feedId) (feed_items xml) w in
        match res o with
        | Ok arts =>
            mkOut (Ok (mkResult (channel_title xml) arts)) (world o)
                  (XmlParse t :: events o)
        | Throw e =>
            mkOut (Throw (Error (PARSE_PREFIX ++ err_message e))) (world o)
                  (XmlParse t :: events o)
        | OutOfFuel => mkOut OutOfFuel (world o) (XmlParse t :: events o)
        end
    end.
Proof.
  unfold parseXmlFeed. cbv zeta.
  destruct (looks_html _ && negb (looks_feed _)); [reflexivity|].
  unfold try_catch, parse_document, bind, dom_parse_xml, emit, ret, throw; simpl.
  destruct (doc_querySelector (parseXml (strip_bom text)) [Tag (lit "parsererror")])
    as [errorNode|]; simpl.
  - destruct (includes _ _ || includes _ _); reflexivity.
  - destruct (parse_items_spec feedId (feed_items (parseXml (strip_bom text))) w)
      as (_ & _ & H).
    destruct (res (mapM (parse_item feedId)
                        (feed_items (parseXml (strip_bom text))) w))
      as [arts|e|] eqn:E; simpl.
    + now rewrite app_nil_r.
    + destruct H as [-> _]. simpl. now rewrite app_nil_r.
    + contradiction.
Qed.

Lemma parseXmlFeed_ok (text feedId originalUrl : jsstring) (w : World)
      (r : FeedFetchResult) :
  res (parseXmlFeed text feedId originalUrl w) = Ok r ->
  r_title r = channel_title (parseXml (strip_bom text)) /\
  Forall2 (item_article feedId (clock w))
          (feed_items (parseXml (strip_bom text))) (r_articles r).
Proof.
  rewrite parseXmlFeed_eq. cbv zeta.
  destruct (looks_html _ && negb (looks_feed _)); [discriminate|].
  destruct (doc_querySelector _ _) as [errorNode|].
  - destruct (includes _ _ || includes _ _); discriminate.
  - pose proof (parse_items_spec feedId
                  (feed_items (parseXml (strip_bom text))) w) as (_ & _ & H).
    destruct (res (mapM _ _ w)) as [arts|e|]; simpl; try discriminate.
    intros [= <-]. simpl. split; [reflexivity|exact H].
Qed.

(** C4 (as amended): every article [parseXmlFeed] returns has a snippet of
    at most 303 code units.  The snippet is made from the text content of
    the body of the content parsed as HTML: its first 300 units, trimmed,
    and the ellipsis when the text content is longer.  Elements,
    attributes and comments give nothing to it: each of its units is a
    unit of a text node of that body or a dot of the ellipsis, and it is
    free of tags whenever the text content is.  A text content of at most
    300 units is the snippet as it stands, trimmed: what the text nodes
    spell, a tag included, stays in the snippet. *)
Theorem parseXmlFeed_snippet_bounded_text
        (text feedId originalUrl : jsstring) (w : World) (r : FeedFetchResult) :
  res (parseXmlFeed text feedId originalUrl w) = Ok r ->
  Forall (fun a =>
            exists body,
              doc_body (parseHtml (content a)) = Some body /\
              List.length (contentSnippet a) <= 303 /\
              contentSnippet a = snippet_text (textContent body) /\
              (forall c, In c (contentSnippet a) ->
                         c = 46%N \/
                         exists d, In d (text_nodes body) /\ In c d) /\
              (no_tag (textContent body) = true ->
               no_tag (contentSnippet a) = true) /\
              (List.length (textContent body) <= 300 ->
               contentSnippet a = trim (textContent body)))
         (r_articles r).
Proof.
  intros H. apply parseXmlFeed_ok in H as [_ H].
  induction H as [|item a items arts (body & Hb & Ha) _ IH]; constructor;
    [|exact IH].
  rewrite Ha. unfold article_of; cbn [content contentSnippet].
  exists body. split; [exact Hb|]. split; [apply snippet_of_length|].
  split; [apply snippet_of_text|].
  assert (V : List.length (textContent body) <= 300 ->
              snippet_of (textContent body) = trim (textContent body)).
  { intros Hl. rewrite snippet_of_text. unfold snippet_text.
    rewrite firstn_all2 by exact Hl.
    apply Nat.ltb_ge in Hl. rewrite Hl. apply app_nil_r. }
  destruct (snippet_of_segment (textContent body))
    as (pre & core & post & ell & H1 & H2 & H3).
  rewrite H2 in *. split; [|split; [|exact V]].
  - intros c Hc. apply in_app_or in Hc as [Hc|Hc].
    + right. apply textContent_units. rewrite H1.
      apply in_or_app. right. apply in_or_app. now left.
    + left. destruct H3 as [->| ->]; [destruct Hc|].
      cbn in Hc. intuition congruence.
  - intros N. rewrite H1 in N.
    apply no_tag_app_r, no_tag_app_l in N.
    destruct H3 as [->| ->]; [now rewrite app_nil_r|].
    now apply no_tag_dots.
Qed.

(** Every article of a result of [parseXmlFeed] carries the [feedId] of
    the call. *)
Lemma parseXmlFeed_feedId (text fId originalUrl : jsstring) (w : World)
      (r : FeedFetchResult) :
  res (parseXmlFeed text fId originalUrl w) = Ok r ->
  Forall (fun a => feedId a = fId) (r_articles r).
Proof.
  intros H. apply parseXmlFeed_ok in H as [_ H].
  induction H as [|item a items arts (body & Hb & Ha) _ IH]; constructor;
    [|exact IH].
  rewrite Ha. reflexivity.
Qed.

Lemma item_article_agree (fId : jsstring) (now1 now2 : N) (items : list node) :
  forall l1 l2,
    Forall2 (item_article fId now1) items l1 ->
    Forall2 (item_article fId now2) items l2 ->
    Forall2 (same_parse now1 now2) l1 l2.
Proof.
  induction items as [|item items IH]; intros l1 l2 H1 H2;
    inversion H1 as [|? a1 ? l1' (b1 & Hb1 & Ha1) H1']; subst;
    inversion H2 as [|? a2 ? l2' (b2 & Hb2 & Ha2) H2']; subst;
    constructor; [|now apply IH].
  rewrite Hb1 in Hb2. injection Hb2 as <-.
  rewrite Ha1, Ha2. unfold same_parse, same_content, article_of; simpl.
  split; [repeat split|].
  destruct (item_date item); [left; reflexivity|right; split; reflexivity].
Qed.

Lemma item_article_body (fId : jsstring) (now : N) (items : list node)
      (l : list Article) :
  Forall2 (item_article fId now) items l ->
  Exists (fun item => doc_body (parseHtml (item_content item)) = None) items ->
  False.
Proof.
  induction 1 as [|item a items l (body & Hb & _) _ IH]; intros HE;
    inversion HE; subst; [congruence|auto].
Qed.

Lemma item_article_dated (fId : jsstring) (now : N) (items : list node)
      (l : list Article) :
  Forall2 (item_article fId now) items l -> Forall2 (dated now) items l.
Proof.
  induction 1 as [|item a items l (body & _ & Ha) _ IH]; constructor;
    [|exact IH].
  unfold dated. rewrite Ha. reflexivity.
Qed.

(** C7 (as amended): two calls of [parseXmlFeed] on the same text, with
    the same [feedId] and [originalUrl], fail alike or succeed alike; when
    they succeed the titles are equal and the articles agree pairwise on
    feed id, title, link, content, snippet, thumbnail and author; the date
    of an article is the date of its item when the item has a non-empty
    date element, so the two parses agree on it, and the time of the parse
    otherwise, so they agree on it only when their clocks do. *)
Theorem parseXmlFeed_repeatable
        (text fId originalUrl : jsstring) (w1 w2 : World) :
  match res (parseXmlFeed text fId originalUrl w1),
        res (parseXmlFeed text fId originalUrl w2) with
  | Ok r1, Ok r2 =>
      r_title r1 = r_title r2 /\
      Forall2 (same_parse (clock w1) (clock w2)) (r_articles r1) (r_articles r2) /\
      Forall2 (dated (clock w1)) (feed_items (parseXml (strip_bom text)))
              (r_articles r1) /\
      Forall2 (dated (clock w2)) (feed_items (parseXml (strip_bom text)))
              (r_articles r2)
  | Throw e1, Throw e2 => e1 = e2
  | _, _ => False
  end.
Proof.
  rewrite !parseXmlFeed_eq. cbv zeta.
  destruct (looks_html _ && negb (looks_feed _)); [reflexivity|].
  destruct (doc_querySelector _ _) as [errorNode|].
  - destruct (includes _ _ || includes _ _); reflexivity.
  - pose proof (parse_items_spec fId
                  (feed_items (parseXml (strip_bom text))) w1) as (_ & _ & H1).
    pose proof (parse_items_spec fId
                  (feed_items (parseXml (strip_bom text))) w2) as (_ & _ & H2).
    destruct (res (mapM _ _ w1)) as [l1|e1|];
      destruct (res (mapM _ _ w2)) as [l2|e2|]; simpl; try contradiction.
    + split; [reflexivity|].
      split; [eapply item_article_agree; eassumption|].
      split; eapply item_article_dated; eassumption.
    + destruct H2 as [_ H2]. eapply item_article_body; eassumption.
    + destruct H1 as [_ H1]. eapply item_article_body; eassumption.
    + destruct H1 as [-> _], H2 as [-> _]. reflexivity.
Qed.

End Normaliser.

(** A well-formed RSS 2.0 document with two items yields the channel
    title and two articles in document order. *)
Example parseXmlFeed_two_items :
  exists r,
    res (parseXmlFeed (P := sample_platform net_down) rss_text fid url_a w0)
    = Ok r /\
    r_title r = lit "News" /\
    List.map link (r_articles r) = [lit "https://x/a"; lit "https://x/b"] /\
    List.map contentSnippet (r_articles r) = [lit "Hello"; lit "World"].
Proof.
  eexists. split; [vm_compute; reflexivity|]. repeat split.
Qed.

(** C7 as stated fails on an item without date element: the text has no
    byte-order mark, both parses succeed, and the dates of the second
    article differ because each parse stamps its own time. *)
Lemma parseXmlFeed_dates_differ :
  strip_bom rss_text = rss_text /\
  exists r1 r2,
    res (parseXmlFeed (P := sample_platform net_down) rss_text fid url_a w0)
    = Ok r1 /\
    res (parseXmlFeed (P := sample_platform net_down) rss_text fid url_a w1)
    = Ok r2 /\
    List.map pubDate (r_articles r1) <> List.map pubDate (r_articles r2).
Proof.
  split; [reflexivity|].
  eexists. eexists.
  split; [vm_compute; reflexivity|].
  split; [vm_compute; reflexivity|].
  vm_compute. intros H. discriminate H.
Qed.

Lemma parseXmlFeed_snippet_bounded_text_witness :
  exists r,
    res (parseXmlFeed (P := markup_platform) markup_text fid url_a w0) = Ok r /\
    List.map (fun a => List.length (contentSnippet a)) (r_articles r)
    = [20; 303] /\
    Forall (fun a =>
              exists body,
                doc_body (parseHtml (Platform := markup_platform) (content a))
                = Some body /\
                List.length (contentSnippet a) <= 303 /\
                contentSnippet a = snippet_text (textContent body) /\
                (forall c, In c (contentSnippet a) ->
                           c = 46%N \/
                           exists d, In d (text_nodes body) /\ In c d) /\
                (no_tag (textContent body) = true ->
                 no_tag (contentSnippet a) = true) /\
                (List.length (textContent body) <= 300 ->
                 contentSnippet a = trim (textContent body)))
           (r_articles r).
Proof.
  eexists. split; [vm_compute; reflexivity|].
  split; [vm_compute; reflexivity|].
  apply (parseXmlFeed_snippet_bounded_text
           (P := markup_platform) markup_text fid url_a w0).
  vm_compute; reflexivity.
Defined.

(** C4 as stated fails for content that carries markup as character
    data: the description of the first item of [markup_text] is escaped
    twice, its content is [Use &lt;b&gt;bold&lt;/b&gt; here], the HTML
    parser makes the text [Use <b>bold</b> here] of it, and that text is
    the snippet. *)
Lemma parseXmlFeed_snippet_keeps_escaped_markup :
  exists r a,
    res (parseXmlFeed (P := markup_platform) markup_text fid url_a w0) = Ok r /\
    In a (r_articles r) /\
    content a = lit "Use &lt;b&gt;bold&lt;/b&gt; here" /\
    contentSnippet a = lit "Use <b>bold</b> here" /\
    includes (contentSnippet a) (lit "<b>") = true /\
    no_tag (contentSnippet a) = false.
Proof.
  eexists. eexists.
  split; [vm_compute; reflexivity|].
  split; [left; reflexivity|].
  repeat split.
Qed.

(** The order of preference of [item_thumbnail], over the first element
    with local name [content], the first [enclosure] and the first inline
    image. *)
Lemma item_thumbnail_cases {P : Platform} (item : node) (doc : document) :
  let mediaContent := firstByLocalName item (lit "content") in
  let enclosure := querySelector item [Tag (lit "enclosure")] in
  let imgInContent := doc_querySelector doc [Tag (lit "img")] in
  (opt_truthy (attr_of mediaContent (lit "url")) = true ->
   item_thumbnail item doc = attr_of mediaContent (lit "url")) /\
  (opt_truthy (attr_of mediaContent (lit "url")) = false ->
   is_image_enclosure enclosure = true ->
   item_thumbnail item doc = attr_of enclosure (lit "url")) /\
  (opt_truthy (attr_of mediaContent (lit "url")) = false ->
   is_image_enclosure enclosure = false ->
   item_thumbnail item doc =
   match imgInContent with
   | Some img => getAttribute img (lit "src")
   | None => Some []
   end).
Proof.
  cbv zeta. unfold item_thumbnail.
  split; [intros ->; reflexivity|].
  split; intros -> ->; reflexivity.
Qed.

(** C8 at an Atom entry whose own [content] element comes before its
    [media:content] element: the entry holds a media content element with
    a [url], yet the article gets the empty thumbnail, because the lookup
    by local name in any namespace returns the Atom element first. *)
Lemma atom_media_thumbnail_missed :
  In (Element (Some (lit "media")) (lit "content")
              [(lit "url", lit "https://x/p.jpg"); (lit "medium", lit "image")] [])
     (List.map snd (descendants atom_entry)) /\
  firstByLocalName atom_entry (lit "content") =
    Some (Element None (lit "content") [(lit "type", lit "html")] [txt "Body"]) /\
  exists r a,
    res (parseXmlFeed (P := sample_platform net_down) atom_text fid url_a w0)
    = Ok r /\
    r_articles r = [a] /\ thumbnail a = Some [].
Proof.
  split; [vm_compute; tauto|].
  split; [vm_compute; reflexivity|].
  eexists. eexists.
  split; [vm_compute; reflexivity|].
  split; reflexivity.
Qed.

(** ** Traces of the building blocks *)

Lemma quiet_ret {A} (a : A) : quiet (ret a).
Proof. intros w. split; [constructor|discriminate]. Qed.

Lemma quiet_throw {A} (e : JsError) : quiet (@throw A e).
Proof. intros w. split; [constructor|discriminate]. Qed.

Lemma quiet_bind {A B} (m : M A) (f : A -> M B) :
  quiet m -> (forall a, quiet (f a)) -> quiet (bind m f).
Proof.
  intros Hm Hf w. unfold bind. destruct (Hm w) as [Hm1 Hm2].
  destruct (res (m w)) as [a| |]; simpl;
    [|split; [exact Hm1|discriminate]|contradiction].
  destruct (Hf a (world (m w))) as [Hf1 Hf2].
  split; [apply Forall_app; split; assumption|exact Hf2].
Qed.

Lemma quiet_try_catch {A} (m : M A) (h : JsError -> M A) :
  quiet m -> (forall e, quiet (h e)) -> quiet (try_catch m h).
Proof.
  intros Hm Hh w. unfold try_catch. destruct (Hm w) as [Hm1 Hm2].
  destruct (res (m w)) as [a|e|] eqn:E; simpl;
    [split; [exact Hm1|congruence]| |contradiction].
  destruct (Hh e (world (m w))) as [Hh1 Hh2].
  split; [apply Forall_app; split; assumption|exact Hh2].
Qed.

Lemma quiet_emit (e : Event) : is_leaf e = true -> quiet (emit e).
Proof.
  intros H w. simpl. split; [constructor; [exact H|constructor]|discriminate].
Qed.

Lemma quiet_mapM {A B} (f : A -> M B) (l : list A) :
  (forall a, quiet (f a)) -> quiet (mapM f l).
Proof.
  intros Hf. induction l as [|a l IH]; simpl.
  - apply quiet_ret.
  - apply quiet_bind; [apply Hf|]. intros b.
    apply quiet_bind; [exact IH|]. intros bs. apply quiet_ret.
Qed.

Lemma quiet_date_now : quiet date_now.
Proof. intros w. split; [constructor|discriminate]. Qed.

Lemma quiet_elapse (ms : N) : quiet (elapse ms).
Proof. intros w. split; [constructor|discriminate]. Qed.

Lemma quiet_encode (url : jsstring) : quiet (encode url).
Proof.
  unfold encode. destruct (encodeURIComponent url);
    [apply quiet_ret|apply quiet_throw].
Qed.

Create HintDb quiet.

#[local] Hint Resolve quiet_ret quiet_throw quiet_date_now quiet_elapse
  quiet_encode : quiet.

Ltac quiet_step :=
  match goal with
  | |- quiet (bind _ _) => apply quiet_bind; [|intros ?]
  | |- quiet (try_catch _ _) => apply quiet_try_catch; [|intros ?]
  | |- quiet (mapM _ _) => apply quiet_mapM; intros ?
  | |- quiet (emit _) => apply quiet_emit; reflexivity
  | |- quiet (if ?b then _ else _) => destruct b
  | |- quiet (match ?x with _ => _ end) => destruct x
  | |- quiet _ => solve [auto with quiet]
  end.

Section Traces.

Context {P : Platform}.

Lemma quiet_fetch (rq : Request) : quiet (fetch rq).
Proof.
  intros w. unfold fetch.
  destruct (http (requests w) (req_url rq)) as [m|latency r]; simpl.
  - split; [repeat constructor|discriminate].
  - destruct (req_timeout rq) as [t|]; [destruct (t <=? latency)%N|];
      simpl; (split; [repeat constructor|discriminate]).
Qed.

Lemma quiet_fresh_uuid : quiet fresh_uuid.
Proof. intros w. split; [constructor|discriminate]. Qed.

#[local] Hint Resolve quiet_fetch quiet_fresh_uuid : quiet.

Lemma quiet_response_text (r : Response) : quiet (response_text r).
Proof. unfold response_text. repeat quiet_step. Qed.

#[local] Hint Resolve quiet_response_text : quiet.

Lemma quiet_relay_attempt (p : Proxy) (url : jsstring) :
  quiet (relay_attempt p url).
Proof. unfold relay_attempt, build. repeat quiet_step. Qed.

Lemma quiet_fetchRawText_from (proxies : list Proxy) (url : jsstring) :
  forall last, quiet (fetchRawText_from proxies url last).
Proof.
  induction proxies as [|p rest IH]; intros last; simpl.
  - destruct last; auto with quiet.
  - apply quiet_try_catch; [apply quiet_relay_attempt|intros e; apply IH].
Qed.

Lemma quiet_parse_item (fId : jsstring) (item : node) :
  quiet (parse_item fId item).
Proof.
  unfold parse_item, date_iso, dom_parse_html. repeat quiet_step.
Qed.

Lemma quiet_parseXmlFeed (text fId originalUrl : jsstring) :
  quiet (parseXmlFeed text fId originalUrl).
Proof.
  unfold parseXmlFeed, parse_document, dom_parse_xml.
  repeat quiet_step; apply quiet_parse_item.
Qed.

Lemma quiet_direct_fetch (url fId : jsstring) : quiet (direct_fetch url fId).
Proof.
  unfold direct_fetch. apply quiet_bind.
  - apply quiet_fetchRawText_from.
  - intros text. apply quiet_parseXmlFeed.
Qed.

Lemma quiet_getFeedUrlFromHtml (html baseUrl : jsstring) :
  quiet (getFeedUrlFromHtml html baseUrl).
Proof.
  unfold getFeedUrlFromHtml, dom_parse_html. repeat quiet_step.
Qed.

Lemma quiet_convert_item (fId : jsstring) (item : R2JItem) :
  quiet (convert_item fId item).
Proof. unfold convert_item. repeat quiet_step. Qed.

Lemma quiet_calls {A} (m : M A) (w : World) :
  quiet m ->
  fetchFeed_calls (events (m w)) = [] /\ fallback_calls (events (m w)) = [].
Proof.
  intros H. destruct (H w) as [H' _]. clear H.
  unfold fetchFeed_calls, fallback_calls.
  induction H' as [|e t He _ [IH1 IH2]]; [split; reflexivity|].
  simpl. unfold is_leaf in He. apply andb_true_iff in He as [H1 H2].
  apply negb_true_iff in H1, H2. rewrite H1, H2. now split.
Qed.

Lemma emit_then_run {A} (e : Event) (k : M A) (w : World) :
  (emit e ;;; k) w = mkOut (res (k w)) (world (k w)) (e :: events (k w)).
Proof.
  unfold bind, emit; simpl. destruct (res (k w)); reflexivity.
Qed.

Lemma fetchWithRss2Json_calls (url fId : jsstring) (w : World) :
  fetchFeed_calls (events (fetchWithRss2Json url fId w)) = [] /\
  fallback_calls (events (fetchWithRss2Json url fId w))
  = [Call_fetchWithRss2Json url fId].
Proof.
  unfold fetchWithRss2Json. rewrite emit_then_run. simpl.
  match goal with
  | |- context [events (?k w)] => assert (Hq : quiet k)
  end.
  { unfold response_json. repeat quiet_step; try apply quiet_convert_item. }
  destruct (quiet_calls _ w Hq) as [H1 H2].
  unfold fetchFeed_calls, fallback_calls in *. now rewrite H1, H2.
Qed.

Lemma fetchWithRss2Json_returns (url fId : jsstring) (w : World) :
  res (fetchWithRss2Json url fId w) <> OutOfFuel.
Proof.
  unfold fetchWithRss2Json. rewrite emit_then_run. cbn [res].
  match goal with
  | |- res (?k w) <> _ => assert (Hq : quiet k)
  end.
  { unfold response_json. repeat quiet_step; try apply quiet_convert_item. }
  apply Hq.
Qed.

(** One level of the orchestrator. *)
Lemma fetchFeed_unfold (fuel : nat) (url fId : jsstring) (w : World) :
  fetchFeed (S fuel) url fId w =
  let od := direct_fetch url fId w in
  let call := Call_fetchFeed url fId in
  let fallback (w' : World) (before : list Event) :=
    let o := fetchWithRss2Json url fId w' in
    mkOut (res o) (world o) (call :: before ++ events o) in
  match res od with
  | Ok r => mkOut (Ok r) (world od) (call :: events od)
  | OutOfFuel => mkOut OutOfFuel (world od) (call :: events od)
  | Throw (Builtin _ _) => fallback (world od) (events od)
  | Throw (FeedDiscoveryError _ html _) =>
      let og := getFeedUrlFromHtml html url (world od) in
      match res og with
      | Ok (Some d) =>
          if truthy d && negb (str_eqb d url) then
            let o := fetchFeed fuel d fId (world og) in
            mkOut (res o) (world o) (call :: events od ++ events og ++ events o)
          else fallback (world og) (events od ++ events og)
      | Ok None => fallback (world og) (events od ++ events og)
      | Throw e => mkOut (Throw e) (world og) (call :: events od ++ events og)
      | OutOfFuel => mkOut OutOfFuel (world og) (call :: events od ++ events og)
      end
  end.
Proof.
  cbn [fetchFeed]. rewrite emit_then_run. cbv zeta. unfold try_catch.
  destruct (res (direct_fetch url fId w)) as [r|[k m|m html u0]|] eqn:E;
    cbn [res world events]; rewrite ?E; try reflexivity.
  unfold bind.
  destruct (res (getFeedUrlFromHtml html url (world (direct_fetch url fId w))))
    as [[d|]|e|] eqn:G; cbn [res world events]; rewrite ?G; try reflexivity.
  - destruct (truthy d && negb (str_eqb d url)); cbn [res world events];
      rewrite <- ?app_assoc; reflexivity.
  - rewrite <- ?app_assoc; reflexivity.
Qed.

End Traces.

(** ** The orchestrator *)

Section Orchestrator.

Context {P : Platform}.

Lemma calls_app (a b : list Event) :
  fetchFeed_calls (a ++ b) = fetchFeed_calls a ++ fetchFeed_calls b /\
  fallback_calls (a ++ b) = fallback_calls a ++ fallback_calls b.
Proof. unfold fetchFeed_calls, fallback_calls. now rewrite !filter_app. Qed.

Lemma getFeedUrlFromHtml_returns (html baseUrl : jsstring) (w : World) :
  exists d, res (getFeedUrlFromHtml html baseUrl w) = Ok d.
Proof.
  unfold getFeedUrlFromHtml, try_catch, bind, dom_parse_html, emit, ret; simpl.
  destruct (doc_querySelectorAll (parseHtml html) feed_link_selector)
    as [|first rest]; simpl; [eauto|].
  destruct (getAttribute first (lit "href")) as [href|]; simpl; [|eauto].
  destruct (truthy href); simpl; [|eauto].
  destruct (resolveUrl href baseUrl); simpl; eauto.
Qed.

(** The calls one level makes: its own, then those of the recursive call
    when there is one, else the fallback when the direct chain failed. *)
Lemma fetchFeed_level_calls (fuel : nat) (url fId : jsstring) (w : World) :
  let o := fetchFeed (S fuel) url fId w in
  match recursion_target url fId w with
  | Some (d, w') =>
      res o = res (fetchFeed fuel d fId w') /\
      world o = world (fetchFeed fuel d fId w') /\
      fetchFeed_calls (events o) =
        Call_fetchFeed url fId :: fetchFeed_calls (events (fetchFeed fuel d fId w')) /\
      fallback_calls (events o) = fallback_calls (events (fetchFeed fuel d fId w'))
  | None =>
      fetchFeed_calls (events o) = [Call_fetchFeed url fId] /\
      match res (direct_fetch url fId w) with
      | Throw _ => fallback_calls (events o) = [Call_fetchWithRss2Json url fId]
      | _ => fallback_calls (events o) = []
      end
  end.
Proof.
  cbv zeta. rewrite fetchFeed_unfold. unfold recursion_target. cbv zeta.
  pose proof (quiet_calls _ w (quiet_direct_fetch url fId)) as [D1 D2].
  destruct (res (direct_fetch url fId w)) as [r|[k m|m html u0]|] eqn:E;
    cbn [res world events].
  - unfold fetchFeed_calls, fallback_calls in *.
    cbn [filter is_fetchFeed_call is_fallback_call]. now rewrite D1, D2.
  - destruct (fetchWithRss2Json_calls url fId (world (direct_fetch url fId w)))
      as [F1 F2].
    unfold fetchFeed_calls, fallback_calls in *.
    cbn [filter is_fetchFeed_call is_fallback_call].
    now rewrite !filter_app, D1, D2, F1, F2.
  - pose proof (quiet_calls _ (world (direct_fetch url fId w))
                  (quiet_getFeedUrlFromHtml html url)) as [G1 G2].
    destruct (getFeedUrlFromHtml_returns html url
                (world (direct_fetch url fId w))) as [d G].
    rewrite G.
    set (w' := world (getFeedUrlFromHtml html url (world (direct_fetch url fId w)))).
    destruct (fetchWithRss2Json_calls url fId w') as [F1 F2].
    unfold fetchFeed_calls, fallback_calls in *.
    destruct d as [d|];
      [destruct (truthy d && negb (str_eqb d url))|];
      cbn [res world events filter is_fetchFeed_call is_fallback_call];
      rewrite !filter_app, D1, D2, G1, G2, ?F1, ?F2;
      cbn [app]; auto.
  - unfold fetchFeed_calls, fallback_calls in *.
    cbn [filter is_fetchFeed_call is_fallback_call]. now rewrite D1, D2.
Qed.

Lemma recursion_target_differs (url fId : jsstring) (w : World)
      (d : jsstring) (w' : World) :
  recursion_target url fId w = Some (d, w') ->
  d <> url /\ truthy d = true /\
  exists m html u0,
    res (direct_fetch url fId w) = Throw (FeedDiscoveryError m html u0) /\
    res (getFeedUrlFromHtml html url (world (direct_fetch url fId w)))
    = Ok (Some d) /\
    w' = world (getFeedUrlFromHtml html url (world (direct_fetch url fId w))).
Proof.
  unfold recursion_target.
  destruct (res (direct_fetch url fId w)) as [r|[k m|m html u0]|];
    try discriminate.
  cbv zeta.
  destruct (res (getFeedUrlFromHtml html url _)) as [[d'|]|e|] eqn:G;
    try discriminate.
  destruct (truthy d') eqn:T; [|discriminate].
  destruct (str_eqb d' url) eqn:Q; [discriminate|]. simpl.
  intros [= <- <-]. apply str_eqb_neq in Q.
  split; [exact Q|]. split; [exact T|]. exists m, html, u0. auto.
Qed.

Lemma fetchFeed_calls_same_feed (fuel : nat) :
  forall url fId w,
    Forall (fun e => exists u, e = Call_fetchFeed u fId)
           (fetchFeed_calls (events (fetchFeed fuel url fId w))).
Proof.
  induction fuel as [|fuel IH]; intros url fId w; [constructor|].
  pose proof (fetchFeed_level_calls fuel url fId w) as H. cbv zeta in H.
  destruct (recursion_target url fId w) as [[d w']|].
  - destruct H as (_ & _ & -> & _). constructor; [eauto|apply IH].
  - destruct H as [-> _]. constructor; [eauto|constructor].
Qed.

Lemma fetchFeed_first_call (fuel : nat) (url fId : jsstring) (w : World) :
  fetchFeed_calls (events (fetchFeed fuel url fId w)) =
  match fuel with
  | O => []
  | S _ => Call_fetchFeed url fId
             :: tl (fetchFeed_calls (events (fetchFeed fuel url fId w)))
  end.
Proof.
  destruct fuel as [|fuel]; [reflexivity|].
  pose proof (fetchFeed_level_calls fuel url fId w) as H. cbv zeta in H.
  destruct (recursion_target url fId w) as [[d w']|].
  - destruct H as (_ & _ & -> & _). reflexivity.
  - destruct H as [-> _]. reflexivity.
Qed.

End Orchestrator.

(** ** Results of the two normalisation paths *)

Lemma bind_ok_inv {A B} (m : M A) (f : A -> M B) (w : World) (b : B) :
  res (bind m f w) = Ok b ->
  exists a, res (m w) = Ok a /\ res (f a (world (m w))) = Ok b.
Proof.
  unfold bind. destruct (res (m w)) as [a|e|]; simpl; try discriminate.
  intros H. exists a. split; [reflexivity|exact H].
Qed.

Lemma mapM_ok_Forall {A B} (f : A -> M B) (Q : B -> Prop) :
  (forall a w b, res (f a w) = Ok b -> Q b) ->
  forall l w bs, res (mapM f l w) = Ok bs -> Forall Q bs.
Proof.
  intros Hf. induction l as [|a l IH]; intros w bs H.
  - injection H as <-. constructor.
  - rewrite mapM_cons_run in H.
    destruct (res (f a w)) as [b|e|] eqn:E; try discriminate.
    cbv zeta in H. simpl in H.
    destruct (res (mapM f l (world (f a w)))) as [bs'|e|] eqn:E';
      try discriminate.
    injection H as <-. constructor; [eapply Hf; eassumption|].
    eapply IH; eassumption.
Qed.

Section Stamping.

Context {P : Platform}.

Lemma fetchWithRss2Json_feedId (url fId : jsstring) (w : World)
      (r : FeedFetchResult) :
  res (fetchWithRss2Json url fId w) = Ok r ->
  Forall (fun a => feedId a = fId) (r_articles r).
Proof.
  unfold fetchWithRss2Json. rewrite emit_then_run. cbn [res].
  intros H.
  apply bind_ok_inv in H as (e & _ & H).
  apply bind_ok_inv in H as (rs & _ & H).
  destruct (negb (resp_ok rs)); [discriminate|].
  apply bind_ok_inv in H as (data & _ & H).
  destruct (negb (opt_eqb (j_status data) (lit "ok"))); [discriminate|].
  destruct (j_feed data) as [feedTitle|]; [|discriminate].
  destruct (j_items data) as [items|]; [|discriminate].
  apply bind_ok_inv in H as (arts & Ha & H).
  injection H as <-. cbn [r_articles].
  eapply mapM_ok_Forall; [|exact Ha].
  intros item w' a. unfold convert_item, bind, fresh_uuid, ret; simpl.
  intros [= <-]. reflexivity.
Qed.

(** C10: every article of a successful fetch carries the [feedId] the
    caller supplied, on the normaliser path, on the fallback path, and
    through any number of discovery steps of the orchestrator. *)
Theorem fetch_results_carry_feedId (fId : jsstring) :
  (forall text originalUrl w r,
      res (parseXmlFeed text fId originalUrl w) = Ok r ->
      Forall (fun a => feedId a = fId) (r_articles r)) /\
  (forall url w r,
      res (fetchWithRss2Json url fId w) = Ok r ->
      Forall (fun a => feedId a = fId) (r_articles r)) /\
  (forall fuel url w r,
      res (fetchFeed fuel url fId w) = Ok r ->
      Forall (fun a => feedId a = fId) (r_articles r)).
Proof.
  split; [intros; eapply parseXmlFeed_feedId; eassumption|].
  split; [intros; eapply fetchWithRss2Json_feedId; eassumption|].
  induction fuel as [|fuel IH]; intros url w r H; [discriminate|].
  rewrite fetchFeed_unfold in H. cbv zeta in H.
  destruct (res (direct_fetch url fId w)) as [r'|[k m|m html u0]|] eqn:E;
    cbn [res] in H.
  - injection H as <-. unfold direct_fetch in E.
    apply bind_ok_inv in E as (text & _ & E).
    eapply parseXmlFeed_feedId; eassumption.
  - eapply fetchWithRss2Json_feedId; eassumption.
  - destruct (res (getFeedUrlFromHtml html url _)) as [[d|]|e|];
      [destruct (truthy d && negb (str_eqb d url))| | |]; cbn [res] in H;
      try discriminate;
      solve [eapply IH; eassumption
            |eapply fetchWithRss2Json_feedId; eassumption].
  - discriminate.
Qed.

End Stamping.

Lemma fetch_results_carry_feedId_witness :
  (exists r,
      res (fetchFeed (P := sample_platform net_rss) 1 url_a fid w0) = Ok r /\
      Forall (fun a => feedId a = fid) (r_articles r)) /\
  (exists r,
      res (fetchFeed (P := sample_platform net_converter) 1 url_a fid w0) = Ok r /\
      Forall (fun a => feedId a = fid) (r_articles r)).
Proof.
  split; eexists; (split; [vm_compute; reflexivity|]).
  - apply (proj2 (proj2 (fetch_results_carry_feedId
                           (P := sample_platform net_rss) fid)) 1 url_a w0).
    vm_compute; reflexivity.
  - apply (proj2 (proj2 (fetch_results_carry_feedId
                           (P := sample_platform net_converter) fid)) 1 url_a w0).
    vm_compute; reflexivity.
Defined.

(** ** The fetch policy *)

Lemma call_urls_filter (t : list Event) :
  call_urls t = call_urls (fetchFeed_calls t).
Proof.
  unfold call_urls, fetchFeed_calls.
  induction t as [|e t IH]; [reflexivity|].
  destruct e; cbn [flat_map filter is_fetchFeed_call app]; now rewrite IH.
Qed.

Section Policy.

Context {P : Platform}.

Lemma fetchFeed_call_urls (fuel : nat) (url fId : jsstring) (w : World) :
  call_urls (events (fetchFeed (S fuel) url fId w)) =
  url :: match recursion_target url fId w with
         | Some (d, w') => call_urls (events (fetchFeed fuel d fId w'))
         | None => []
         end.
Proof.
  pose proof (fetchFeed_level_calls fuel url fId w) as L. cbv zeta in L.
  rewrite call_urls_filter.
  destruct (recursion_target url fId w) as [[d w']|].
  - destruct L as (_ & _ & -> & _). cbn [call_urls flat_map app].
    now rewrite <- call_urls_filter.
  - destruct L as [-> _]. reflexivity.
Qed.

(** The levels of a run are the calls of [fetchFeed] in its trace. *)
Lemma levels_calls (fuel : nat) (fId : jsstring) :
  forall url w,
    List.map fst (levels fuel url fId w)
    = call_urls (events (fetchFeed fuel url fId w)).
Proof.
  induction fuel as [|fuel IH]; intros url w; [reflexivity|].
  rewrite fetchFeed_call_urls. cbn [levels List.map fst]. f_equal.
  destruct (recursion_target url fId w) as [[d w']|]; [apply IH|reflexivity].
Qed.

(** A call of the fallback converter is made at a level of the run, on
    the URL of that level. *)
Lemma fallback_at_level (fuel : nat) (fId x f : jsstring) :
  forall url w,
    In (Call_fetchWithRss2Json x f) (events (fetchFeed fuel url fId w)) ->
    exists w1, In (x, w1) (levels fuel url fId w).
Proof.
  induction fuel as [|fuel IH]; intros url w H; [destruct H|].
  assert (F : In (Call_fetchWithRss2Json x f)
                 (fallback_calls (events (fetchFeed (S fuel) url fId w))))
    by (apply filter_In; split; [exact H|reflexivity]).
  pose proof (fetchFeed_level_calls fuel url fId w) as L. cbv zeta in L.
  cbn [levels].
  destruct (recursion_target url fId w) as [[d w']|].
  - destruct L as (_ & _ & _ & L). rewrite L in F.
    apply filter_In in F as [F _].
    destruct (IH d w' F) as [w1 H1]. exists w1. now right.
  - destruct L as [_ L].
    destruct (res (direct_fetch url fId w)); rewrite L in F;
      try (destruct F; fail).
    destruct F as [[= <- _]|[]]. exists w. now left.
Qed.

(** Every level but the first is entered by a discovery step made at a
    level of the run. *)
Lemma levels_entered (fuel : nat) (fId x : jsstring) (w1 : World) :
  forall url w,
    In (x, w1) (levels fuel url fId w) ->
    (x, w1) = (url, w) \/
    exists u' w0,
      In (u', w0) (levels fuel url fId w) /\
      recursion_target u' fId w0 = Some (x, w1).
Proof.
  induction fuel as [|fuel IH]; intros url w H; [destruct H|].
  cbn [levels] in *. destruct H as [H|H]; [left; now symmetry|right].
  destruct (recursion_target url fId w) as [[d w']|] eqn:T; [|destruct H].
  destruct (IH d w' H) as [E|(u' & w0 & Hin & Ht)].
  - injection E as -> ->. exists url, w. split; [now left|exact T].
  - exists u', w0. split; [now right|exact Ht].
Qed.


Lemma relay_attempt_error (p : Proxy) (url : jsstring) (w : World) (e : JsError) :
  res (relay_attempt p url w) = Throw e -> is_discovery e = false.
Proof.
  destruct (relay_attempt_verdict p url w) as [-> _].
  destruct (p (clock w) url) as [proxyUrl|]; [|intros [= <-]; reflexivity].
  unfold relay_verdict.
  destruct (http (requests w) proxyUrl) as [m|latency r];
    [intros [= <-]; reflexivity|].
  destruct (RELAY_TIMEOUT <=? latency)%N; [intros [= <-]; reflexivity|].
  destruct (negb (resp_ok r)); [intros [= <-]; reflexivity|].
  destruct (body r) as [text|]; [|intros [= <-]; reflexivity].
  destruct (blank text); [intros [= <-]; reflexivity|discriminate].
Qed.

Lemma fetchRawText_from_error (url : jsstring) (proxies : list Proxy) :
  forall last w e,
    (forall e', last = Some e' -> is_discovery e' = false) ->
    res (fetchRawText_from proxies url last w) = Throw e ->
    is_discovery e = false.
Proof.
  induction proxies as [|p rest IH]; intros last w e Hl; simpl.
  - destruct last as [e'|]; intros [= <-]; [now apply Hl|reflexivity].
  - unfold try_catch.
    destruct (res (relay_attempt p url w)) as [text|e'|] eqn:E;
      cbn [res]; try (rewrite E; discriminate).
    apply IH. intros e'' [= <-]. eapply relay_attempt_error; eassumption.
Qed.

Lemma fallback_on_plain_error
      (fuel : nat) (url fId : jsstring) (w : World) (e : JsError) :
  res (direct_fetch url fId w) = Throw e ->
  is_discovery e = false ->
  fetchFeed_calls (events (fetchFeed (S fuel) url fId w))
  = [Call_fetchFeed url fId] /\
  fallback_calls (events (fetchFeed (S fuel) url fId w))
  = [Call_fetchWithRss2Json url fId].
Proof.
  intros E D.
  pose proof (fetchFeed_level_calls fuel url fId w) as L. cbv zeta in L.
  assert (T : recursion_target url fId w = None).
  { unfold recursion_target. rewrite E. destruct e; [reflexivity|discriminate]. }
  rewrite T, E in L. exact L.
Qed.

Lemma relay_exhaustion_is_plain (url fId : jsstring) (w : World) (e : JsError) :
  res (fetchRawText url w) = Throw e ->
  res (direct_fetch url fId w) = Throw e /\ is_discovery e = false.
Proof.
  intros H. split.
  - unfold direct_fetch, bind. rewrite H. reflexivity.
  - eapply (fetchRawText_from_error url PROXIES None);
      [discriminate|eassumption].
Qed.

(** C3: when the direct chain fails with an error that is not the
    discovery signal, which is what relay exhaustion always gives,
    [fetchFeed] continues as the fallback converter called on the same URL
    and feed id: the fallback is called exactly once, [fetchFeed] is not
    called again, the call returns or throws as the fallback does, and
    when the fallback throws, [fetchFeed] throws that very error. *)
Theorem fetchFeed_falls_back_once
        (fuel : nat) (url fId : jsstring) (w : World) (e : JsError) :
  res (direct_fetch url fId w) = Throw e ->
  is_discovery e = false ->
  let od := direct_fetch url fId w in
  let ofb := fetchWithRss2Json url fId (world od) in
  let o := fetchFeed (S fuel) url fId w in
  res o = res ofb /\ world o = world ofb /\
  events o = Call_fetchFeed url fId :: events od ++ events ofb /\
  fallback_calls (events o) = [Call_fetchWithRss2Json url fId] /\
  fetchFeed_calls (events o) = [Call_fetchFeed url fId] /\
  res o <> OutOfFuel /\
  (forall e', res ofb = Throw e' -> res o = Throw e') /\
  (forall e', res (fetchRawText url w) = Throw e' ->
              res od = Throw e' /\ is_discovery e' = false).
Proof.
  intros E D. cbv zeta.
  destruct (fallback_on_plain_error fuel url fId w e E D) as [L1 L2].
  assert (R : forall e', res (fetchRawText url w) = Throw e' ->
                         res (direct_fetch url fId w) = Throw e' /\
                         is_discovery e' = false)
    by (intros e'; apply relay_exhaustion_is_plain).
  destruct e as [k m|]; [|discriminate D].
  rewrite fetchFeed_unfold in *. cbv zeta in *. rewrite E in *.
  cbn [res world events] in *.
  split; [reflexivity|]. split; [reflexivity|]. split; [reflexivity|].
  split; [exact L2|]. split; [exact L1|].
  split; [apply fetchWithRss2Json_returns|].
  split; [intros e' H; exact H|exact R].
Qed.

(** C2: when the direct chain fails with the discovery signal and discovery
    on the carried HTML finds no URL, or finds the input URL again,
    [fetchFeed] does not call itself: it continues as the fallback
    converter on the input URL.  In every run all calls of [fetchFeed]
    carry the feed id of the first, and a second call exists only when
    discovery returned a URL other than the input, which is then the URL
    of that call. *)
Theorem fetchFeed_recursion_guard
        (fuel : nat) (url fId : jsstring) (w : World) :
  let od := direct_fetch url fId w in
  let o := fetchFeed (S fuel) url fId w in
  (forall m html u0,
      res od = Throw (FeedDiscoveryError m html u0) ->
      let og := getFeedUrlFromHtml html url (world od) in
      res og = Ok None \/ res og = Ok (Some url) ->
      let ofb := fetchWithRss2Json url fId (world og) in
      res o = res ofb /\ world o = world ofb /\
      events o = Call_fetchFeed url fId :: events od ++ events og ++ events ofb /\
      fetchFeed_calls (events o) = [Call_fetchFeed url fId] /\
      fallback_calls (events o) = [Call_fetchWithRss2Json url fId] /\
      res o <> OutOfFuel) /\
  Forall (fun e => exists u, e = Call_fetchFeed u fId)
         (fetchFeed_calls (events o)) /\
  (forall u f rest,
      fetchFeed_calls (events o) =
        Call_fetchFeed url fId :: Call_fetchFeed u f :: rest ->
      f = fId /\ u <> url /\
      exists m html u0,
        res od = Throw (FeedDiscoveryError m html u0) /\
        res (getFeedUrlFromHtml html url (world od)) = Ok (Some u)).
Proof.
  cbv zeta.
  pose proof (fetchFeed_level_calls fuel url fId w) as L. cbv zeta in L.
  split; [|split].
  - intros m html u0 E G.
    assert (T : recursion_target url fId w = None).
    { unfold recursion_target. rewrite E. cbv zeta.
      destruct G as [-> | ->]; [reflexivity|].
      now rewrite str_eqb_refl, andb_false_r. }
    rewrite T, E in L. destruct L as [L1 L2].
    rewrite fetchFeed_unfold in *. cbv zeta in *. rewrite E in *.
    destruct G as [G|G]; rewrite G in *;
      rewrite ?str_eqb_refl, ?andb_false_r in *;
      cbn [res world events] in *; rewrite <- ?app_assoc in *;
      (repeat split; try assumption; apply fetchWithRss2Json_returns).
  - apply fetchFeed_calls_same_feed.
  - intros u f rest H.
    destruct (recursion_target url fId w) as [[d w']|] eqn:T.
    + destruct L as (_ & _ & L & _). rewrite L in H.
      injection H as H.
      rewrite fetchFeed_first_call in H.
      destruct fuel as [|fuel]; [discriminate|].
      injection H as <- <- _.
      apply recursion_target_differs in T
        as (Hd & _ & m & html & u0 & E & G & _).
      split; [reflexivity|]. split; [exact Hd|]. eauto.
    + destruct L as [L _]. rewrite L in H. discriminate.
Qed.

(** C9 (as amended): when the direct chain fails with the discovery signal
    and discovery finds a non-empty URL other than the input, the rest of
    the run is the run of [fetchFeed] on the discovered URL with the same
    feed id, and the level of the input URL calls no fallback.  When the
    direct chain of the discovered URL fails and the run recurses no
    further, because the error is not the discovery signal or because
    discovery on the page it carries finds nothing or the discovered URL
    again, the one fallback call of the run is on the discovered URL.  The
    levels of the rest of the run are its calls of [fetchFeed], and the
    fallback is called on the input URL only when the discovery step of
    one of these levels has returned the input URL, which then is the URL
    of a later call of [fetchFeed]. *)
Theorem fetchFeed_continues_on_discovered_url
        (fuel : nat) (url fId : jsstring) (w : World)
        (m html u0 d : jsstring) :
  res (direct_fetch url fId w) = Throw (FeedDiscoveryError m html u0) ->
  res (getFeedUrlFromHtml html url (world (direct_fetch url fId w)))
  = Ok (Some d) ->
  truthy d = true ->
  d <> url ->
  let w' := world (getFeedUrlFromHtml html url (world (direct_fetch url fId w))) in
  let o := fetchFeed (S fuel) url fId w in
  let onext := fetchFeed fuel d fId w' in
  res o = res onext /\ world o = world onext /\
  fetchFeed_calls (events o) =
    Call_fetchFeed url fId :: fetchFeed_calls (events onext) /\
  fallback_calls (events o) = fallback_calls (events onext) /\
  (forall fuel' e,
      fuel = S fuel' ->
      res (direct_fetch d fId w') = Throw e ->
      is_discovery e = false ->
      fallback_calls (events o) = [Call_fetchWithRss2Json d fId]) /\
  (forall fuel' m' html' u0',
      fuel = S fuel' ->
      res (direct_fetch d fId w') = Throw (FeedDiscoveryError m' html' u0') ->
      let og := getFeedUrlFromHtml html' d (world (direct_fetch d fId w')) in
      res og = Ok None \/ res og = Ok (Some d) ->
      fallback_calls (events o) = [Call_fetchWithRss2Json d fId]) /\
  List.map fst (levels fuel d fId w') = call_urls (events onext) /\
  (forall f,
      In (Call_fetchWithRss2Json url f) (events o) ->
      exists u' w1 w2,
        In (u', w1) (levels fuel d fId w') /\
        recursion_target u' fId w1 = Some (url, w2) /\
        In (url, w2) (levels fuel d fId w')).
Proof.
  intros E G Td Hd. cbv zeta.
  pose proof (fetchFeed_level_calls fuel url fId w) as L. cbv zeta in L.
  assert (T : recursion_target url fId w =
              Some (d, world (getFeedUrlFromHtml html url
                                (world (direct_fetch url fId w))))).
  { unfold recursion_target. rewrite E. cbv zeta. rewrite G, Td.
    apply str_eqb_neq in Hd. now rewrite Hd. }
  rewrite T in L. destruct L as (L1 & L2 & L3 & L4).
  set (w' := world (getFeedUrlFromHtml html url
                      (world (direct_fetch url fId w)))) in *.
  split; [exact L1|]. split; [exact L2|]. split; [exact L3|].
  split; [exact L4|]. split; [|split; [|split; [apply levels_calls|]]].
  - intros fuel' e -> E' D'. rewrite L4.
    eapply fallback_on_plain_error; eassumption.
  - intros fuel' m' html' u0' -> E' G'. rewrite L4.
    pose proof (fetchFeed_level_calls fuel' d fId w') as L'. cbv zeta in L'.
    assert (T' : recursion_target d fId w' = None).
    { unfold recursion_target. rewrite E'. cbv zeta.
      destruct G' as [-> | ->]; [reflexivity|].
      now rewrite str_eqb_refl, andb_false_r. }
    rewrite T', E' in L'. now destruct L'.
  - intros f H.
    assert (F : In (Call_fetchWithRss2Json url f)
                   (events (fetchFeed fuel d fId w'))).
    { assert (F : In (Call_fetchWithRss2Json url f)
                     (fallback_calls (events (fetchFeed (S fuel) url fId w))))
        by (apply filter_In; split; [exact H|reflexivity]).
      rewrite L4 in F. now apply filter_In in F. }
    apply fallback_at_level in F as [w2 F].
    destruct (levels_entered fuel fId url w2 d w' F)
      as [Q|(u' & w1 & Hin & Ht)].
    + injection Q as Q _. now contradiction Hd.
    + exists u', w1, w2. auto.
Qed.

End Policy.

Lemma fetchFeed_falls_back_once_witness :
  fallback_calls
    (events (fetchFeed (P := sample_platform net_down) 1 url_a fid w0))
  = [Call_fetchWithRss2Json url_a fid] /\
  res (fetchFeed (P := sample_platform net_down) 1 url_a fid w0)
  = res (fetchWithRss2Json (P := sample_platform net_down) url_a fid
           (world (direct_fetch (P := sample_platform net_down) url_a fid w0))).
Proof.
  destruct (fetchFeed_falls_back_once
              (P := sample_platform net_down) 0 url_a fid w0
              (Builtin KTypeError (lit "Failed to fetch")))
    as (Hres & _ & _ & Hcalls & _);
    [vm_compute; reflexivity|reflexivity|].
  split; [exact Hcalls|exact Hres].
Defined.

Lemma fetchFeed_recursion_guard_witness :
  fetchFeed_calls
    (events (fetchFeed (P := sample_platform net_plain_page) 1 url_a fid w0))
  = [Call_fetchFeed url_a fid] /\
  fallback_calls
    (events (fetchFeed (P := sample_platform net_plain_page) 1 url_a fid w0))
  = [Call_fetchWithRss2Json url_a fid].
Proof.
  destruct (fetchFeed_recursion_guard
              (P := sample_platform net_plain_page) 0 url_a fid w0)
    as (H & _ & _).
  destruct (H (lit "Received HTML page instead of XML") page_plain url_a)
    as (_ & _ & _ & H1 & H2 & _);
    [vm_compute; reflexivity|left; vm_compute; reflexivity|].
  split; [exact H1|exact H2].
Defined.

Lemma fetchFeed_continues_on_discovered_url_witness :
  fallback_calls
    (events (fetchFeed (P := sample_platform net_page_then_down) 2 url_a fid w0))
  = [Call_fetchWithRss2Json url_b fid] /\
  exists u' w1 w2,
    In (u', w1)
       (levels (P := sample_platform net_cycle) 2 url_b fid
          (world (getFeedUrlFromHtml (P := sample_platform net_cycle)
                    page_to_b url_a
                    (world (direct_fetch (P := sample_platform net_cycle)
                              url_a fid w0))))) /\
    recursion_target (P := sample_platform net_cycle) u' fid w1
    = Some (url_a, w2).
Proof.
  split.
  - destruct (fetchFeed_continues_on_discovered_url
                (P := sample_platform net_page_then_down) 1 url_a fid w0
                (lit "Received HTML page instead of XML") page_to_b url_a url_b)
      as (_ & _ & _ & _ & H & _);
      [vm_compute; reflexivity|vm_compute; reflexivity|reflexivity
      |intros E; vm_compute in E; discriminate E|].
    apply (H 0 (Builtin KTypeError (lit "Failed to fetch")));
      [reflexivity|vm_compute; reflexivity|reflexivity].
  - destruct (fetchFeed_continues_on_discovered_url
                (P := sample_platform net_cycle) 2 url_a fid w0
                (lit "Received HTML page instead of XML") page_to_b url_a url_b)
      as (_ & _ & _ & _ & _ & _ & _ & H);
      [vm_compute; reflexivity|vm_compute; reflexivity|reflexivity
      |intros E; vm_compute in E; discriminate E|].
    destruct (H fid) as (u' & w1 & w2 & Hin & Ht & _).
    + vm_compute. repeat first [left; reflexivity|right].
    + exists u', w1, w2. split; [exact Hin|exact Ht].
Defined.

(** C9 as stated fails when discovery leads back to the input: the page
    of [url_a] announces [url_b], the page of [url_b] announces [url_a],
    and the third direct fetch fails, so the fallback converter is called
    with the input URL [url_a]. *)
Lemma fetchFeed_cycle_reaches_fallback_with_input :
  (exists m html u0,
      res (direct_fetch (P := sample_platform net_cycle) url_a fid w0)
      = Throw (FeedDiscoveryError m html u0) /\
      res (getFeedUrlFromHtml (P := sample_platform net_cycle) html url_a
             (world (direct_fetch (P := sample_platform net_cycle) url_a fid w0)))
      = Ok (Some url_b)) /\
  url_b <> url_a /\
  fetchFeed_calls
    (events (fetchFeed (P := sample_platform net_cycle) 3 url_a fid w0))
  = [Call_fetchFeed url_a fid; Call_fetchFeed url_b fid; Call_fetchFeed url_a fid] /\
  fallback_calls
    (events (fetchFeed (P := sample_platform net_cycle) 3 url_a fid w0))
  = [Call_fetchWithRss2Json url_a fid].
Proof.
  split.
  - exists (lit "Received HTML page instead of XML"), page_to_b, url_a.
    split; vm_compute; reflexivity.
  - split; [intros E; vm_compute in E; discriminate E|].
    split; vm_compute; reflexivity.
Qed.

(** ** Deduplication by link *)

Lemma map_set_keys (k : jsstring) (v : Article) (m : LinkMap) :
  keys (map_set k v m) = if existsb (str_eqb k) (keys m) then keys m
                         else keys m ++ [k].
Proof.
  induction m as [|[k0 v0] m IH]; simpl; [reflexivity|].
  destruct (str_eqb k0 k) eqn:E.
  - apply str_eqb_eq in E. subst k0. rewrite str_eqb_refl. reflexivity.
  - assert (E' : str_eqb k k0 = false).
    { apply str_eqb_neq. apply str_eqb_neq in E. congruence. }
    rewrite E'. simpl. rewrite IH.
    destruct (existsb (str_eqb k) (keys m)); reflexivity.
Qed.

Lemma existsb_str_In (k : jsstring) (l : list jsstring) :
  existsb (str_eqb k) l = true <-> In k l.
Proof.
  rewrite existsb_exists. split.
  - intros (x & Hx & E). apply str_eqb_eq in E. now subst.
  - intros H. exists k. split; [exact H|apply str_eqb_refl].
Qed.

Lemma map_set_NoDup (k : jsstring) (v : Article) (m : LinkMap) :
  NoDup (keys m) -> NoDup (keys (map_set k v m)).
Proof.
  intros H. rewrite map_set_keys.
  destruct (existsb (str_eqb k) (keys m)) eqn:E; [exact H|].
  apply NoDup_app; [exact H|repeat constructor; intros []|].
  intros x Hx [<-|[]].
  apply existsb_str_In in Hx. congruence.
Qed.

Lemma map_set_In (k : jsstring) (v : Article) (m : LinkMap) :
  NoDup (keys m) ->
  forall k' v',
    In (k', v') (map_set k v m) <->
    (k' = k /\ v' = v) \/ (k' <> k /\ In (k', v') m).
Proof.
  induction m as [|[k0 v0] m IH]; intros Hnd k' v'; simpl.
  - split.
    + intros [[= <- <-]|[]]. now left.
    + intros [[-> ->]|[_ []]]. now left.
  - inversion Hnd as [|? ? Hk0 Hnd']; subst.
    destruct (str_eqb k0 k) eqn:E.
    + apply str_eqb_eq in E. subst k0. simpl. split.
      * intros [[= <- <-]|H]; [now left|].
        right. split; [|now right].
        intros ->. apply Hk0. apply (in_map fst) in H. exact H.
      * intros [[-> ->]|[Hne [[= <- <-]|H]]];
          [now left|contradiction|now right].
    + apply str_eqb_neq in E. simpl. rewrite (IH Hnd'). split.
      * intros [[= <- <-]|[H|H]]; [right; split; auto|now left|].
        right. split; [apply H|right; apply H].
      * intros [H|[Hne [H|H]]]; [right; now left|now left|].
        right. right. now split.
Qed.

Lemma last_with_link_snoc (k : jsstring) (l : list Article) (a : Article) :
  last_with_link k (l ++ [a]) =
  if str_eqb (link a) k then Some a else last_with_link k l.
Proof. unfold last_with_link. rewrite rev_app_distr. reflexivity. Qed.

Lemma last_with_link_key (k : jsstring) (l : list Article) (a : Article) :
  last_with_link k l = Some a -> link a = k /\ In a l.
Proof.
  unfold last_with_link. intros H. apply find_some in H as [H1 H2].
  apply str_eqb_eq in H2. split; [exact H2|]. now apply in_rev.
Qed.

Lemma new_Map_snoc (l : list Article) (a : Article) :
  new_Map (entries (l ++ [a])) = map_set (link a) a (new_Map (entries l)).
Proof.
  unfold new_Map, entries. rewrite map_app, fold_left_app. reflexivity.
Qed.

(** The map built from a list holds, for every link of the list, the last
    article with that link, and nothing else. *)
Lemma new_Map_spec (l : list Article) :
  NoDup (keys (new_Map (entries l))) /\
  forall k v, In (k, v) (new_Map (entries l)) <-> last_with_link k l = Some v.
Proof.
  induction l as [|a l [IH1 IH2]] using rev_ind.
  - split; [constructor|]. intros k v. split; [intros []|discriminate].
  - rewrite new_Map_snoc. split; [now apply map_set_NoDup|].
    intros k v. rewrite (map_set_In _ _ _ IH1), last_with_link_snoc.
    destruct (str_eqb (link a) k) eqn:E.
    + apply str_eqb_eq in E. subst k. split.
      * intros [[_ ->]|[Hne _]]; [reflexivity|contradiction].
      * intros [= <-]. now left.
    + apply str_eqb_neq in E. rewrite IH2. split.
      * intros [[-> _]|[_ H]]; [contradiction|exact H].
      * intros H. right. split; [congruence|exact H].
Qed.

Lemma last_with_link_exists (l : list Article) (a : Article) :
  In a l -> exists b, last_with_link (link a) l = Some b.
Proof.
  intros H. unfold last_with_link.
  destruct (find (fun x => str_eqb (link x) (link a)) (rev l)) as [b|] eqn:F;
    [eauto|].
  apply in_rev in H. eapply find_none in F; [|exact H].
  simpl in F. now rewrite str_eqb_refl in F.
Qed.

Lemma uniqueByLink_spec (l : list Article) :
  NoDup (List.map link (uniqueByLink l)) /\
  (forall k, In k (List.map link l) <-> In k (List.map link (uniqueByLink l))) /\
  (forall x, In x (uniqueByLink l) <-> last_with_link (link x) l = Some x).
Proof.
  destruct (new_Map_spec l) as [Hnd Hin].
  unfold uniqueByLink, map_values. fold (entries l).
  assert (Hx : forall x, In x (List.map snd (new_Map (entries l))) <->
                         last_with_link (link x) l = Some x).
  { intros x. rewrite in_map_iff. split.
    - intros ([k v] & <- & H). simpl. apply Hin in H.
      destruct (last_with_link_key _ _ _ H) as [-> _]. exact H.
    - intros H. exists (link x, x). split; [reflexivity|now apply Hin]. }
  assert (Hk : List.map link (List.map snd (new_Map (entries l)))
               = keys (new_Map (entries l))).
  { unfold keys. rewrite map_map. apply map_ext_in.
    intros [k v] H. simpl. apply Hin in H.
    now destruct (last_with_link_key _ _ _ H). }
  split; [rewrite Hk; exact Hnd|]. split; [|exact Hx].
  intros k. rewrite !in_map_iff. split.
  - intros (a & <- & Ha).
    destruct (last_with_link_exists l a Ha) as [b Hb].
    destruct (last_with_link_key _ _ _ Hb) as [Hl _].
    exists b. split; [exact Hl|]. apply Hx. now rewrite Hl.
  - intros (x & <- & H). apply Hx in H.
    destruct (last_with_link_key _ _ _ H) as [_ H']. eauto.
Qed.

Lemma NoDup_map_filter {A B} (f : A -> B) (p : A -> bool) (l : list A) :
  NoDup (List.map f l) -> NoDup (List.map f (filter p l)).
Proof.
  induction l as [|a l IH]; simpl; [auto|].
  intros H. inversion H as [|? ? Ha Hl]; subst.
  destruct (p a); simpl; [|auto].
  constructor; [|auto].
  intros Hin. apply Ha. apply in_map_iff in Hin as (x & <- & Hx).
  apply filter_In in Hx as [Hx _]. now apply in_map.
Qed.

(** C5: an action that merges article lists, [refreshFeeds] over the
    fetched lists and [addFeed] over the stored list followed by the new
    one, stores exactly one article per link of the merged list, namely
    the last article with that link, which is the most recently fetched
    one; and no action on the article list ever breaks the uniqueness of
    links. *)
Theorem article_state_deduplicated (st : AppState) (a : Action) :
  (forall l,
      merged_input st a = Some l ->
      articles (step st a) = uniqueByLink l /\
      NoDup (List.map link (articles (step st a))) /\
      (forall k, In k (List.map link l) <->
                 In k (List.map link (articles (step st a)))) /\
      (forall x, In x (articles (step st a)) <->
                 last_with_link (link x) l = Some x)) /\
  (NoDup (List.map link (articles st)) ->
   NoDup (List.map link (articles (step st a)))).
Proof.
  split.
  - intros l Hl.
    assert (E : articles (step st a) = uniqueByLink l).
    { destruct a as [results|url newId fetched|removed]; simpl in *.
      - unfold refreshFeeds. destruct (feeds st); [discriminate|].
        now injection Hl as <-.
      - unfold addFeed. destruct (existsb _ (feeds st)); [discriminate|].
        now injection Hl as <-.
      - discriminate. }
    rewrite E. split; [reflexivity|apply uniqueByLink_spec].
  - intros H. destruct a as [results|url newId fetched|removed]; simpl.
    + unfold refreshFeeds. destruct (feeds st); simpl;
        [constructor|apply uniqueByLink_spec].
    + unfold addFeed. destruct (existsb _ (feeds st)); simpl;
        [exact H|apply uniqueByLink_spec].
    + now apply NoDup_map_filter.
Qed.

Lemma article_state_deduplicated_witness :
  articles (step app0 added) = [art_new; art_other] /\
  NoDup (List.map link (articles (step app0 added))).
Proof.
  destruct (article_state_deduplicated app0 added) as [H _].
  destruct (H [art_old; art_new; art_other]) as (E & Hnd & _);
    [vm_compute; reflexivity|].
  split; [rewrite E; vm_compute; reflexivity|exact Hnd].
Defined.

(* ================================================================== *)
(** * Further properties of the service *)

(** ** Transport *)

Lemma try_catch_throw_inv {A} (m : M A) (h : JsError -> M A) (w : World)
      (e : JsError) :
  res (try_catch m h w) = Throw e ->
  exists e', res (m w) = Throw e' /\
             res (h e' (world (m w))) = Throw e /\
             events (try_catch m h w) = events (m w) ++ events (h e' (world (m w))).
Proof.
  unfold try_catch.
  destruct (res (m w)) as [a|e'|] eqn:E; cbn [res events];
    try (rewrite E; discriminate).
  intros H. exists e'. auto.
Qed.

Section TransportFacts.

Context {P : Platform}.

Lemma fetchRawText_from_ok (url : jsstring) (proxies : list Proxy) :
  forall last w text,
    res (fetchRawText_from proxies url last w) = Ok text ->
    blank text = false.
Proof.
  induction proxies as [|p rest IH]; intros last w text; simpl.
  - destruct last; discriminate.
  - unfold try_catch.
    destruct (res (relay_attempt p url w)) as [t|e|] eqn:E; cbn [res].
    + rewrite E. intros [= ->].
      destruct (relay_attempt_verdict p url w) as [Hr _]. rewrite E in Hr.
      destruct (p (clock w) url) as [proxyUrl|]; [|discriminate].
      unfold relay_verdict in Hr.
      destruct (http (requests w) proxyUrl) as [m|latency r]; [discriminate|].
      destruct (RELAY_TIMEOUT <=? latency)%N; [discriminate|].
      destruct (negb (resp_ok r)); [discriminate|].
      destruct (body r) as [t|]; [|discriminate].
      destruct (blank t) eqn:B; [discriminate|]. now injection Hr as <-.
    + apply IH.
    + rewrite E. discriminate.
Qed.

(** X1: the text [fetchRawText] returns is never empty and never made of
    white space only. *)
Theorem fetchRawText_text_not_blank (url : jsstring) (w : World) (text : jsstring) :
  res (fetchRawText url w) = Ok text ->
  text <> [] /\ trim text <> [].
Proof.
  intros H. apply fetchRawText_from_ok in H. unfold blank in H.
  apply orb_false_iff in H as [H1 H2]. split.
  - intros ->. discriminate.
  - intros E. rewrite E in H2. discriminate.
Qed.

Lemma relay_attempt_events_encoded (p : Proxy) (url : jsstring) (w : World) :
  events (relay_attempt p url w) =
  match p (clock w) url with
  | Some proxyUrl => [relay_request proxyUrl]
  | None => []
  end.
Proof. apply relay_attempt_verdict. Qed.

(** X2: when [fetchRawText] fails, it has asked every relay whose URL
    could be built exactly once, in the order of the list, and nothing
    else: four requests for a URL that can be encoded, the two relays that
    take the URL as it is otherwise. *)
Theorem fetchRawText_exhaustion_requests (url : jsstring) (w : World) (e : JsError) :
  res (fetchRawText url w) = Throw e ->
  events (fetchRawText url w) = List.map relay_request (relay_urls (clock w) url).
Proof.
  unfold fetchRawText, PROXIES. cbn [fetchRawText_from]. intros H.
  apply try_catch_throw_inv in H as (e1 & _ & H & ->).
  apply try_catch_throw_inv in H as (e2 & _ & H & ->).
  apply try_catch_throw_inv in H as (e3 & _ & H & ->).
  apply try_catch_throw_inv in H as (e4 & _ & _ & ->).
  rewrite !relay_attempt_events_encoded. cbn [events app].
  unfold relay_urls, proxy_allorigins, proxy_codetabs, proxy_yacdn,
    proxy_thingproxy.
  destruct (encodeURIComponent url) as [enc|]; reflexivity.
Qed.

End TransportFacts.

Lemma fetchRawText_text_not_blank_witness :
  exists text,
    res (fetchRawText (P := sample_platform net_rss) url_a w0) = Ok text /\
    text <> [] /\ trim text <> [].
Proof.
  eexists. split; [vm_compute; reflexivity|].
  apply (fetchRawText_text_not_blank (P := sample_platform net_rss) url_a w0).
  vm_compute; reflexivity.
Defined.

Lemma fetchRawText_exhaustion_requests_witness :
  events (fetchRawText (P := sample_platform net_down) url_a w0) =
  List.map relay_request (relay_urls (clock w0) url_a).
Proof.
  apply (fetchRawText_exhaustion_requests
           (P := sample_platform net_down) url_a w0
           (Builtin KTypeError (lit "Failed to fetch"))).
  vm_compute; reflexivity.
Defined.

(** ** The requests of the encoded relays and of the fallback *)

Lemma hex_digit_safe (d : N) : (d < 16)%N -> uri_safe (hex_digit d) = true.
Proof.
  intros H.
  assert (E : (d = 0 \/ d = 1 \/ d = 2 \/ d = 3 \/ d = 4 \/ d = 5 \/ d = 6 \/
               d = 7 \/ d = 8 \/ d = 9 \/ d = 10 \/ d = 11 \/ d = 12 \/
               d = 13 \/ d = 14 \/ d = 15)%N) by lia.
  repeat (destruct E as [->|E]; [reflexivity|]). subst d. reflexivity.
Qed.

Lemma pct_safe (b : N) : (b < 256)%N -> forallb uri_safe (pct b) = true.
Proof.
  intros H. unfold pct. cbn [forallb].
  rewrite !hex_digit_safe; [reflexivity| |].
  - apply N.mod_lt. discriminate.
  - apply N.Div0.div_lt_upper_bound. exact H.
Qed.

Lemma byte_high (k : N) (cp lead bound : N) :
  (cp < k * bound)%N -> k <> 0%N -> (lead + bound <= 256)%N ->
  (lead + cp / k < 256)%N.
Proof.
  intros H Hk Hl.
  assert (cp / k < bound)%N by (apply N.Div0.div_lt_upper_bound; assumption).
  lia.
Qed.

Lemma byte_low (x : N) : (128 + x mod 64 < 256)%N.
Proof.
  assert (x mod 64 < 64)%N by (apply N.mod_lt; discriminate). lia.
Qed.

Lemma pct_utf8_safe (cp : N) :
  (cp < 1114112)%N -> forallb uri_safe (pct_utf8 cp) = true.
Proof.
  intros H. unfold pct_utf8, utf8.
  destruct (cp <? 128)%N eqn:E1.
  { apply N.ltb_lt in E1. cbn [flat_map]. rewrite app_nil_r.
    apply pct_safe. lia. }
  destruct (cp <? 2048)%N eqn:E2.
  { apply N.ltb_lt in E2. cbn [flat_map]. rewrite app_nil_r, forallb_app.
    rewrite !pct_safe; [reflexivity|apply byte_low|].
    apply (byte_high 64 cp 192 32); [lia|discriminate|lia]. }
  destruct (cp <? 65536)%N eqn:E3.
  { apply N.ltb_lt in E3. cbn [flat_map]. rewrite app_nil_r, !forallb_app.
    rewrite !pct_safe; [reflexivity|apply byte_low|apply byte_low|].
    apply (byte_high 4096 cp 224 16); [lia|discriminate|lia]. }
  cbn [flat_map]. rewrite app_nil_r, !forallb_app.
  rewrite !pct_safe;
    [reflexivity|apply byte_low|apply byte_low|apply byte_low|].
  apply (byte_high 262144 cp 240 5); [lia|discriminate|lia].
Qed.

Lemma encodeURIComponent_safe_len (n : nat) :
  forall s e,
    List.length s <= n ->
    units_ok s = true ->
    encodeURIComponent s = Some e ->
    forallb uri_safe e = true.
Proof.
  induction n as [|n IH]; intros s e Hn Hu He.
  - destruct s; [|simpl in Hn; lia]. injection He as <-. reflexivity.
  - destruct s as [|c r]; [injection He as <-; reflexivity|].
    cbn [units_ok forallb] in Hu. apply andb_true_iff in Hu as [Hc Hr].
    apply N.ltb_lt in Hc. cbn [List.length] in Hn.
    cbn [encodeURIComponent] in He.
    destruct (uri_unreserved c) eqn:U.
    { destruct (encodeURIComponent r) as [e'|] eqn:E; [|discriminate].
      injection He as <-. cbn [forallb]. unfold uri_safe at 1. rewrite U.
      apply (IH r e'); [lia|exact Hr|exact E]. }
    destruct (in_range 55296 56319 c) eqn:Hi.
    { destruct r as [|d r']; [discriminate|].
      destruct (in_range 56320 57343 d) eqn:Lo; [|discriminate].
      destruct (encodeURIComponent r') as [e'|] eqn:E; [|discriminate].
      injection He as <-. rewrite forallb_app.
      cbn [forallb] in Hr. apply andb_true_iff in Hr as [_ Hr'].
      cbn [List.length] in Hn.
      rewrite (IH r' e'); [|lia|exact Hr'|exact E].
      rewrite andb_true_r. apply pct_utf8_safe.
      unfold in_range in Hi, Lo.
      apply andb_true_iff in Hi as [_ Hi], Lo as [_ Lo].
      apply N.leb_le in Hi, Lo. lia. }
    destruct (in_range 56320 57343 c); [discriminate|].
    destruct (encodeURIComponent r) as [e'|] eqn:E; [|discriminate].
    injection He as <-. rewrite forallb_app.
    rewrite (IH r e'); [|lia|exact Hr|exact E].
    rewrite andb_true_r. apply pct_utf8_safe. lia.
Qed.

Lemma encodeURIComponent_safe (s e : jsstring) :
  units_ok s = true -> encodeURIComponent s = Some e ->
  forallb uri_safe e = true.
Proof. apply (encodeURIComponent_safe_len (List.length s)). lia. Qed.

Lemma bind_events {A B} (m : M A) (f : A -> M B) (w : World) :
  events (bind m f w) =
  events (m w) ++ match res (m w) with
                  | Ok a => events (f a (world (m w)))
                  | _ => []
                  end.
Proof.
  unfold bind. destruct (res (m w)); cbn [events]; now rewrite ?app_nil_r.
Qed.

Section FallbackRequest.

Context {P : Platform}.

Lemma convert_items_events (fId : jsstring) (items : list R2JItem) :
  forall w, events (mapM (convert_item fId) items w) = [].
Proof.
  induction items as [|item items IH]; intros w; [reflexivity|].
  rewrite mapM_cons_run.
  unfold convert_item at 1 2 3, bind at 1 2 3, fresh_uuid, ret.
  cbn [res world events]. now rewrite IH.
Qed.

Lemma response_json_events (r : Response) (w : World) :
  events (response_json r w) = [].
Proof.
  unfold response_json, response_text, bind, elapse, ret, throw.
  cbn [res events world app].
  destruct (body r) as [s|]; cbn [res events world app]; [|reflexivity].
  destruct (parseJson s); reflexivity.
Qed.

(** X3: the fallback converter sends at most one request, without timer
    and without retry: for a feed URL that can be encoded, exactly one
    request to the conversion endpoint, in which the feed URL appears
    only as URL-safe code units (unreserved characters and percent
    escapes), so that it cannot add parameters to the query; for a URL
    that cannot be encoded, no request at all and the [URIError]. *)
Theorem fetchWithRss2Json_request (url fId : jsstring) (w : World) :
  units_ok url = true ->
  match encodeURIComponent url with
  | Some encoded =>
      events (fetchWithRss2Json url fId w) =
        [Call_fetchWithRss2Json url fId; converter_request encoded] /\
      forallb uri_safe encoded = true
  | None =>
      events (fetchWithRss2Json url fId w) = [Call_fetchWithRss2Json url fId] /\
      res (fetchWithRss2Json url fId w) = Throw URI_ERROR
  end.
Proof.
  intros Hu. unfold fetchWithRss2Json. rewrite emit_then_run.
  cbn [res events]. unfold encode.
  destruct (encodeURIComponent url) as [encoded|] eqn:E; [|split; reflexivity].
  split; [|eapply encodeURIComponent_safe; eassumption].
  f_equal. rewrite bind_events. cbn [ret res events world app].
  rewrite bind_events.
  assert (Hf : forall rq w', events (fetch rq w') = [NetRequest rq]).
  { intros rq w'. unfold fetch.
    destruct (http (requests w') (req_url rq)) as [m|latency r]; [reflexivity|].
    destruct (req_timeout rq) as [t|]; [destruct (t <=? latency)%N|];
      reflexivity. }
  rewrite Hf. unfold converter_request. cbn [app]. f_equal.
  destruct (res (fetch _ w)) as [r| |]; [|reflexivity|reflexivity].
  destruct (negb (resp_ok r)); [reflexivity|].
  rewrite bind_events, response_json_events. cbn [app].
  destruct (res (response_json r _)) as [data| |]; [|reflexivity|reflexivity].
  destruct (negb (opt_eqb (j_status data) (lit "ok"))); [reflexivity|].
  destruct (j_feed data); [|reflexivity].
  destruct (j_items data) as [items|]; [|reflexivity].
  rewrite bind_events, convert_items_events. cbn [app].
  destruct (res (mapM _ _ _)); reflexivity.
Qed.

End FallbackRequest.

Lemma fetchWithRss2Json_request_witness :
  events (fetchWithRss2Json (P := sample_platform net_down)
                            [233%N; 8364%N; 55357%N; 56832%N] fid w0) =
  [Call_fetchWithRss2Json [233%N; 8364%N; 55357%N; 56832%N] fid;
   converter_request (lit "%C3%A9%E2%82%AC%F0%9F%98%80")].
Proof.
  pose proof (fetchWithRss2Json_request
                (P := sample_platform net_down)
                [233%N; 8364%N; 55357%N; 56832%N] fid w0) as H.
  change (encodeURIComponent [233%N; 8364%N; 55357%N; 56832%N])
    with (Some (lit "%C3%A9%E2%82%AC%F0%9F%98%80")) in H.
  apply H. reflexivity.
Defined.

(** ** Failures and effects of the normaliser *)

Section NormaliserFacts.

Context {P : Platform}.

(** X4: [parseXmlFeed] throws the discovery signal exactly when the text
    is classified as an HTML page that is no feed, or when the XML parser
    rejects it and it names [<html] or [<body]; the signal carries the
    BOM-stripped text and the URL.  Every other failure, a parser error
    as well as an error raised while an item is read, is an [Error] whose
    message begins with the fixed prefix; success means that the XML
    parser accepted the text. *)
Theorem parseXmlFeed_failure_kinds (text fId originalUrl : jsstring) (w : World) :
  match res (parseXmlFeed text fId originalUrl w) with
  | Ok _ =>
      html_page text = false /\
      doc_querySelector (parseXml (strip_bom text)) [Tag (lit "parsererror")]
      = None
  | Throw (FeedDiscoveryError _ html u) =>
      html = strip_bom text /\ u = originalUrl /\
      html_page text || disguised_html text = true
  | Throw (Builtin k m) =>
      k = KError /\ (exists detail, m = PARSE_PREFIX ++ detail) /\
      html_page text || disguised_html text = false
  | OutOfFuel => False
  end.
Proof.
  rewrite parseXmlFeed_eq. cbv zeta. unfold html_page, disguised_html.
  cbv zeta.
  destruct (looks_html _ && negb (looks_feed _)); cbn [res orb];
    [repeat split|].
  destruct (doc_querySelector _ _) as [errorNode|].
  - destruct (includes _ _ || includes _ _); cbn [res];
      repeat split; eauto.
  - pose proof (parse_items_spec fId
                  (feed_items (parseXml (strip_bom text))) w) as (_ & _ & H).
    destruct (res (mapM _ _ w)) as [arts|e|]; cbn [res];
      [repeat split| |contradiction].
    repeat split; eauto.
Qed.

Lemma parse_items_effects (fId : jsstring) (items : list node) :
  forall w arts,
    res (mapM (parse_item fId) items w) = Ok arts ->
    nonce (world (mapM (parse_item fId) items w))
    = (nonce w + N.of_nat (List.length items))%N /\
    events (mapM (parse_item fId) items w)
    = List.map (fun item => HtmlParse (item_content item)) items /\
    List.map id arts
    = List.map (fun i => randomUUID (nonce w + N.of_nat i)%N)
               (seq 0 (List.length items)).
Proof.
  induction items as [|item items IH]; intros w arts H.
  - injection H as <-. cbn. repeat split. lia.
  - rewrite mapM_cons_run, parse_item_eq in *. cbv zeta in *.
    destruct (doc_body (parseHtml (item_content item))) as [body|];
      cbn [res world events] in *; [|discriminate].
    destruct (res (mapM (parse_item fId) items _)) as [arts'|e|] eqn:E;
      try discriminate.
    injection H as <-.
    destruct (IH _ _ E) as (H1 & H2 & H3). cbn [nonce] in *.
    split; [rewrite H1; cbn [List.length]; lia|].
    split; [cbn [app List.map]; now rewrite H2|].
    cbn [List.map List.length seq id article_of]. f_equal.
    + f_equal. lia.
    + rewrite H3, <- seq_shift, map_map. apply map_ext.
      intros i. f_equal. lia.
Qed.

(** X5: a successful [parseXmlFeed] works offline and outside time: it
    sends no request and leaves the clock alone; it parses the text once
    as XML and then the content of every item once as HTML, in document
    order; and it draws one identifier per article, the articles getting
    the identifiers in the order in which they are drawn. *)
Theorem parseXmlFeed_effects (text fId originalUrl : jsstring) (w : World)
        (r : FeedFetchResult) :
  res (parseXmlFeed text fId originalUrl w) = Ok r ->
  let o := parseXmlFeed text fId originalUrl w in
  let items := feed_items (parseXml (strip_bom text)) in
  clock (world o) = clock w /\ requests (world o) = requests w /\
  nonce (world o) = (nonce w + N.of_nat (List.length items))%N /\
  events o = XmlParse (strip_bom text)
               :: List.map (fun item => HtmlParse (item_content item)) items /\
  List.map id (r_articles r)
  = List.map (fun i => randomUUID (nonce w + N.of_nat i)%N)
             (seq 0 (List.length items)).
Proof.
  cbv zeta. rewrite parseXmlFeed_eq. cbv zeta.
  destruct (looks_html _ && negb (looks_feed _)); [discriminate|].
  destruct (doc_querySelector _ _) as [errorNode|].
  - destruct (includes _ _ || includes _ _); discriminate.
  - pose proof (parse_items_spec fId
                  (feed_items (parseXml (strip_bom text))) w) as (Hc & Hr & _).
    cbv zeta in Hc, Hr.
    destruct (res (mapM _ _ w)) as [arts|e|] eqn:E; cbn [res]; try discriminate.
    intros [= <-]. cbn [world events r_articles].
    destruct (parse_items_effects _ _ _ _ E) as (H1 & H2 & H3).
    rewrite H2. auto.
Qed.

(** X6: a successful [parseXmlFeed] returns one article per [item] or
    [entry] element, in document order; the title, link and content of
    each article are those of its element, a missing title giving the
    placeholder, and the title of the result is that of the channel. *)
Theorem parseXmlFeed_document_order (text fId originalUrl : jsstring)
        (w : World) (r : FeedFetchResult) :
  res (parseXmlFeed text fId originalUrl w) = Ok r ->
  let xml := parseXml (strip_bom text) in
  r_title r = channel_title xml /\
  List.length (r_articles r) = List.length (feed_items xml) /\
  List.map (fun a => (title a, link a, content a)) (r_articles r)
  = List.map (fun item =>
                (opt_or (text_of (querySelector item [Tag (lit "title")]))
                        UNTITLED,
                 item_link item, item_content item))
             (feed_items xml).
Proof.
  intros H. apply parseXmlFeed_ok in H as [Ht H]. cbv zeta.
  split; [exact Ht|].
  induction H as [|item a items arts (body & Hb & Ha) _ [IH1 IH2]];
    [split; reflexivity|].
  split; [cbn [List.length]; now rewrite IH1|].
  cbn [List.map]. rewrite IH2, Ha. reflexivity.
Qed.

End NormaliserFacts.

Lemma parseXmlFeed_effects_witness :
  List.map id
    (match res (parseXmlFeed (P := sample_platform net_down)
                             rss_text fid url_a w1) with
     | Ok r => r_articles r
     | _ => []
     end)
  = [lit "uuid-7"; lit "uuid-8"].
Proof.
  destruct (res (parseXmlFeed (P := sample_platform net_down)
                              rss_text fid url_a w1)) as [r| |] eqn:E;
    [|vm_compute in E; discriminate E|vm_compute in E; discriminate E].
  destruct (parseXmlFeed_effects (P := sample_platform net_down)
              rss_text fid url_a w1 r E) as (_ & _ & _ & _ & H).
  rewrite H. vm_compute. reflexivity.
Defined.

Lemma parseXmlFeed_document_order_witness :
  exists r,
    res (parseXmlFeed (P := sample_platform net_down) rss_text fid url_a w0)
    = Ok r /\
    List.length (r_articles r)
    = List.length (feed_items (parseXml (Platform := sample_platform net_down)
                                        (strip_bom rss_text))).
Proof.
  eexists. split; [vm_compute; reflexivity|].
  apply (parseXmlFeed_document_order (P := sample_platform net_down)
           rss_text fid url_a w0).
  vm_compute; reflexivity.
Defined.

(** ** Discovery *)

Section DiscoveryFacts.

Context {P : Platform}.

(** X7: [getFeedUrlFromHtml] never throws; it parses the page once and
    touches neither the network nor the clock.  It finds a URL exactly
    when the first [link] element of feed type has a non-empty [href],
    whatever later elements say; the URL is that [href] resolved against
    the base, or the [href] as it stands when it cannot be resolved. *)
Theorem getFeedUrlFromHtml_outcome (html baseUrl : jsstring) (w : World) :
  getFeedUrlFromHtml html baseUrl w =
  mkOut (Ok (option_map
               (fun href => match resolveUrl href baseUrl with
                            | Some u => u
                            | None => href
                            end)
               (announced_href html)))
        w [HtmlParse html].
Proof.
  unfold getFeedUrlFromHtml, announced_href, dom_parse_html, try_catch, bind,
    emit, ret.
  cbn [res world events app].
  destruct (doc_querySelectorAll (parseHtml html) feed_link_selector)
    as [|first rest]; cbn [res world events app option_map]; [reflexivity|].
  destruct (getAttribute first (lit "href")) as [href|];
    cbn [res world events app option_map]; [|reflexivity].
  destruct (truthy href); cbn [res world events app option_map];
    [|reflexivity].
  destruct (resolveUrl href baseUrl); reflexivity.
Qed.

End DiscoveryFacts.

(** ** Snippets of the fallback *)

Lemma after_gt_none_aux (k : nat) :
  forall s, after_gt s = None -> after_gt (strip_tags_aux k s) = None.
Proof.
  induction k as [|k IH]; intros s H; [exact H|].
  destruct s as [|c s']; [reflexivity|]. cbn [strip_tags_aux].
  cbn [after_gt] in H. destruct (N.eqb c 62) eqn:G; [discriminate|].
  destruct (N.eqb c 60).
  - rewrite H. cbn [after_gt]. rewrite G. now apply IH.
  - cbn [after_gt]. rewrite G. now apply IH.
Qed.

Lemma after_gt_length (s rest : jsstring) :
  after_gt s = Some rest -> List.length rest < List.length s.
Proof.
  revert rest. induction s as [|c s IH]; intros rest; [discriminate|].
  cbn [after_gt List.length]. destruct (N.eqb c 62).
  - intros [= <-]. lia.
  - intros H. apply IH in H. lia.
Qed.

Lemma strip_tags_aux_no_tag (k : nat) :
  forall s, List.length s < k -> no_tag (strip_tags_aux k s) = true.
Proof.
  induction k as [|k IH]; intros s H; [lia|].
  destruct s as [|c s']; [reflexivity|].
  cbn [strip_tags_aux List.length] in *.
  destruct (N.eqb c 60) eqn:L.
  - destruct (after_gt s') as [rest|] eqn:G.
    + apply IH. apply after_gt_length in G. lia.
    + cbn [no_tag]. rewrite L, (after_gt_none_aux k s' G).
      apply IH. lia.
  - cbn [no_tag]. rewrite L. apply IH. lia.
Qed.

Lemma after_gt_firstn (n : nat) :
  forall s, after_gt s = None -> after_gt (firstn n s) = None.
Proof.
  induction n as [|n IH]; intros s H; [reflexivity|].
  destruct s as [|c s]; [reflexivity|].
  cbn [firstn after_gt] in *. destruct (N.eqb c 62); [discriminate|].
  now apply IH.
Qed.

Lemma no_tag_firstn (n : nat) :
  forall s, no_tag s = true -> no_tag (firstn n s) = true.
Proof.
  induction n as [|n IH]; intros s H; [reflexivity|].
  destruct s as [|c s]; [reflexivity|].
  cbn [firstn no_tag] in *. apply andb_true_iff in H as [H1 H2].
  rewrite (IH s H2), andb_true_r.
  destruct (N.eqb c 60); [|reflexivity].
  destruct (after_gt s) eqn:G; [discriminate|].
  now rewrite (after_gt_firstn n s G).
Qed.

Section FallbackSnippets.

Context {P : Platform}.

(** X8: every article the fallback converter returns has a snippet of at
    most 300 code units in which nothing of the shape of a tag is left:
    no [<] of the snippet has a [>] after it. *)
Theorem fetchWithRss2Json_snippets (url fId : jsstring) (w : World)
        (r : FeedFetchResult) :
  res (fetchWithRss2Json url fId w) = Ok r ->
  Forall (fun a => List.length (contentSnippet a) <= 300 /\
                   no_tag (contentSnippet a) = true)
         (r_articles r).
Proof.
  unfold fetchWithRss2Json. rewrite emit_then_run. cbn [res].
  intros H.
  apply bind_ok_inv in H as (e & _ & H).
  apply bind_ok_inv in H as (rs & _ & H).
  destruct (negb (resp_ok rs)); [discriminate|].
  apply bind_ok_inv in H as (data & _ & H).
  destruct (negb (opt_eqb (j_status data) (lit "ok"))); [discriminate|].
  destruct (j_feed data) as [feedTitle|]; [|discriminate].
  destruct (j_items data) as [items|]; [|discriminate].
  apply bind_ok_inv in H as (arts & Ha & H).
  injection H as <-. cbn [r_articles].
  eapply mapM_ok_Forall; [|exact Ha].
  intros item w' a Hc.
  assert (Hs : contentSnippet a =
               slice0 300 (strip_tags
                             (or_str (or_str (opt_or (j_description item) [])
                                             (opt_or (j_content item) [])) []))).
  { unfold convert_item, bind, fresh_uuid, ret in Hc.
    injection Hc as <-. reflexivity. }
  rewrite Hs. unfold slice0. split.
  - rewrite length_firstn. lia.
  - apply no_tag_firstn. unfold strip_tags. apply strip_tags_aux_no_tag. lia.
Qed.

End FallbackSnippets.

Lemma fetchWithRss2Json_snippets_witness :
  exists r,
    res (fetchWithRss2Json (P := sample_platform net_converter) url_a fid
                           (mkWorld 0 0 4)) = Ok r /\
    List.map contentSnippet (r_articles r) = [lit "Hello"] /\
    Forall (fun a => List.length (contentSnippet a) <= 300 /\
                     no_tag (contentSnippet a) = true)
           (r_articles r).
Proof.
  eexists. split; [vm_compute; reflexivity|].
  split; [reflexivity|].
  apply (fetchWithRss2Json_snippets (P := sample_platform net_converter)
           url_a fid (mkWorld 0 0 4)).
  vm_compute; reflexivity.
Defined.

(** ** Runs of the orchestrator *)

Lemma plain_ret {A} (a : A) : plain (ret a).
Proof. intros w e H. discriminate H. Qed.

Lemma plain_throw {A} (k : ErrorKind) (m : jsstring) :
  plain (@throw A (Builtin k m)).
Proof. intros w e [= <-]. reflexivity. Qed.

Lemma plain_bind {A B} (m : M A) (f : A -> M B) :
  plain m -> (forall a, plain (f a)) -> plain (bind m f).
Proof.
  intros Hm Hf w e. unfold bind.
  destruct (res (m w)) as [a|e'|] eqn:E; cbn [res].
  - apply Hf.
  - intros [= <-]. eapply Hm; eassumption.
  - discriminate.
Qed.

Lemma plain_mapM {A B} (f : A -> M B) (l : list A) :
  (forall a, plain (f a)) -> plain (mapM f l).
Proof.
  intros Hf. induction l as [|a l IH]; cbn [mapM].
  - apply plain_ret.
  - apply plain_bind; [apply Hf|]. intros b.
    apply plain_bind; [exact IH|]. intros bs. apply plain_ret.
Qed.

Lemma last_default {A} (x : A) (l : list A) (a b : A) :
  List.last (x :: l) a = List.last (x :: l) b.
Proof.
  revert x. induction l as [|y l IH]; intros x; [reflexivity|].
  cbn [List.last] in *. apply IH.
Qed.

Section Runs.

Context {P : Platform}.

Lemma plain_fetchWithRss2Json (url fId : jsstring) :
  plain (fetchWithRss2Json url fId).
Proof.
  unfold fetchWithRss2Json, encode, response_json, response_text.
  repeat first
    [ apply plain_ret | apply plain_throw
    | apply plain_bind; [|intros ?]
    | apply plain_mapM; intros ?
    | match goal with
      | |- plain (if ?b then _ else _) => destruct b
      | |- plain (match ?x with _ => _ end) => destruct x
      | |- plain (emit _) => intros ? ? H; discriminate H
      | |- plain (elapse _) => intros ? ? H; discriminate H
      | |- plain fresh_uuid => intros ? ? H; discriminate H
      | |- plain (fetch _) =>
          let w := fresh "w" in
          let e := fresh "e" in
          intros w e; unfold fetch;
          repeat match goal with
                 | |- context [match ?x with _ => _ end] => destruct x
                 end; cbn [res]; intros H;
          solve [discriminate H|injection H as <-; reflexivity]
      end ].
Qed.

(** X9: [fetchFeed] never passes the discovery signal, nor any error of
    the relays or of the normaliser, on to its caller: when it throws,
    the fallback converter has been called and the error is the one the
    converter threw. *)
Theorem fetchFeed_errors_come_from_fallback
        (fuel : nat) (url fId : jsstring) (w : World) (e : JsError) :
  res (fetchFeed fuel url fId w) = Throw e ->
  is_discovery e = false /\
  exists u w',
    fallback_calls (events (fetchFeed fuel url fId w))
    = [Call_fetchWithRss2Json u fId] /\
    res (fetchWithRss2Json u fId w') = Throw e.
Proof.
  revert url w. induction fuel as [|fuel IH]; intros url w H; [discriminate|].
  pose proof (fetchFeed_level_calls fuel url fId w) as L. cbv zeta in L.
  rewrite fetchFeed_unfold in H. cbv zeta in H.
  unfold recursion_target in L.
  destruct (res (direct_fetch url fId w)) as [r|[k m|m html u0]|] eqn:E;
    cbn [res] in H; try discriminate.
  - destruct L as [_ L]. split; [eapply plain_fetchWithRss2Json; eassumption|].
    eauto.
  - cbv zeta in L.
    destruct (getFeedUrlFromHtml_returns html url
                (world (direct_fetch url fId w))) as [d G].
    rewrite G in H, L.
    destruct d as [d|];
      [destruct (truthy d && negb (str_eqb d url))|]; cbn [res] in H.
    + destruct L as (_ & _ & _ & L). rewrite L. now apply IH.
    + destruct L as [_ L].
      split; [eapply plain_fetchWithRss2Json; eassumption|]. eauto.
    + destruct L as [_ L].
      split; [eapply plain_fetchWithRss2Json; eassumption|]. eauto.
Qed.

(** X10: a run of [fetchFeed] calls the fallback converter at most once,
    with the feed id of the run and with the URL of the last call of
    [fetchFeed], that is, only where the chain of discoveries ends. *)
Theorem fetchFeed_fallback_at_most_once
        (fuel : nat) (url fId : jsstring) (w : World) :
  let t := events (fetchFeed fuel url fId w) in
  fallback_calls t = [] \/
  fallback_calls t = [Call_fetchWithRss2Json (List.last (call_urls t) url) fId].
Proof.
  cbv zeta. revert url w.
  induction fuel as [|fuel IH]; intros url w; [left; reflexivity|].
  pose proof (fetchFeed_level_calls fuel url fId w) as L. cbv zeta in L.
  rewrite fetchFeed_call_urls.
  destruct (recursion_target url fId w) as [[d w']|].
  - destruct L as (_ & _ & _ & ->).
    destruct (IH d w') as [H|H]; [now left|right].
    rewrite H. destruct fuel as [|fuel]; [discriminate H|].
    rewrite fetchFeed_call_urls. cbn [List.last].
    do 2 f_equal. apply last_default.
  - destruct L as [_ L].
    destruct (res (direct_fetch url fId w)); [now left|right; exact L|now left].
Qed.

(** X11: along a run of [fetchFeed] no call is followed by a call on the
    same URL: each recursive call is on a URL other than the one of its
    caller. *)
Theorem fetchFeed_never_repeats_url
        (fuel : nat) (url fId : jsstring) (w : World) :
  adjacent_distinct (call_urls (events (fetchFeed fuel url fId w))).
Proof.
  revert url w. induction fuel as [|fuel IH]; intros url w; [exact I|].
  rewrite fetchFeed_call_urls.
  destruct (recursion_target url fId w) as [[d w']|] eqn:T;
    [|cbn; auto].
  apply recursion_target_differs in T as (Hd & _).
  cbn [adjacent_distinct]. split; [|apply IH].
  destruct fuel as [|fuel]; [exact I|].
  rewrite fetchFeed_call_urls. congruence.
Qed.

End Runs.

Lemma fetchFeed_errors_come_from_fallback_witness :
  fallback_calls
    (events (fetchFeed (P := sample_platform net_page_then_down) 2 url_a fid w0))
  <> [].
Proof.
  destruct (fetchFeed_errors_come_from_fallback
              (P := sample_platform net_page_then_down) 2 url_a fid w0
              (Builtin KTypeError (lit "Failed to fetch")))
    as (_ & u & w' & H & _); [vm_compute; reflexivity|].
  rewrite H. discriminate.
Defined.

(* ================================================================== *)
(** * Further properties of the application *)

(** ** Order and stability of the deduplication *)

Lemma keys_new_Map_snoc (l : list Article) (a : Article) :
  keys (new_Map (entries (l ++ [a]))) =
  if existsb (str_eqb (link a)) (keys (new_Map (entries l)))
  then keys (new_Map (entries l))
  else keys (new_Map (entries l)) ++ [link a].
Proof. rewrite new_Map_snoc. apply map_set_keys. Qed.

Lemma uniqueByLink_links (l : list Article) :
  List.map link (uniqueByLink l) = keys (new_Map (entries l)).
Proof.
  destruct (new_Map_spec l) as [_ Hin].
  unfold uniqueByLink, map_values, keys. fold (entries l).
  rewrite map_map. apply map_ext_in.
  intros [k v] H. cbn [fst snd]. apply Hin in H.
  now destruct (last_with_link_key _ _ _ H).
Qed.

(** X13: the stored articles stand in the order in which their links
    first appear in the merged list: an article that replaces an earlier
    one with the same link takes the place of the earlier one. *)
Theorem uniqueByLink_first_occurrence_order (l : list Article) :
  List.map link (uniqueByLink l)
  = rev (nodup (list_eq_dec N.eq_dec) (rev (List.map link l))).
Proof.
  rewrite uniqueByLink_links.
  induction l as [|a l IH] using rev_ind; [reflexivity|].
  rewrite keys_new_Map_snoc, IH, map_app, rev_app_distr.
  cbn [List.map rev app nodup].
  destruct (in_dec (list_eq_dec N.eq_dec) (link a) (rev (List.map link l)))
    as [Hin|Hin].
  - assert (E : existsb (str_eqb (link a))
                        (rev (nodup (list_eq_dec N.eq_dec)
                                    (rev (List.map link l)))) = true).
    { apply existsb_str_In. apply -> in_rev. now apply nodup_In. }
    now rewrite E.
  - assert (E : existsb (str_eqb (link a))
                        (rev (nodup (list_eq_dec N.eq_dec)
                                    (rev (List.map link l)))) = false).
    { destruct (existsb _ _) eqn:E; [|reflexivity].
      apply existsb_str_In in E. apply in_rev in E. apply nodup_In in E.
      contradiction. }
    rewrite E. reflexivity.
Qed.

Lemma map_set_fresh (k : jsstring) (v : Article) (m : LinkMap) :
  ~ In k (keys m) -> map_set k v m = m ++ [(k, v)].
Proof.
  induction m as [|[k0 v0] m IH]; intros H; [reflexivity|].
  cbn [map_set]. destruct (str_eqb k0 k) eqn:E.
  - apply str_eqb_eq in E. subst. exfalso. apply H. now left.
  - cbn [app]. rewrite IH; [reflexivity|].
    intros Hin. apply H. now right.
Qed.

Lemma new_Map_NoDup (l : list Article) :
  NoDup (List.map link l) -> new_Map (entries l) = entries l.
Proof.
  induction l as [|a l IH] using rev_ind; intros H; [reflexivity|].
  rewrite map_app in H. apply NoDup_remove in H as [H1 H2].
  rewrite app_nil_r in H1, H2. cbn [List.map app] in H2.
  rewrite new_Map_snoc, (IH H1), map_set_fresh.
  - unfold entries. now rewrite map_app.
  - unfold keys, entries. rewrite map_map. exact H2.
Qed.

(** X14: deduplication leaves a list alone when its links are already
    distinct, so that deduplicating twice is deduplicating once. *)
Theorem uniqueByLink_stable (l : list Article) :
  (NoDup (List.map link l) -> uniqueByLink l = l) /\
  uniqueByLink (uniqueByLink l) = uniqueByLink l.
Proof.
  assert (H : forall l', NoDup (List.map link l') -> uniqueByLink l' = l').
  { intros l' Hl. unfold uniqueByLink, map_values. fold (entries l').
    rewrite (new_Map_NoDup l' Hl). unfold entries. rewrite map_map.
    cbn [snd]. apply map_id. }
  split; [apply H|]. apply H. apply uniqueByLink_spec.
Qed.

Lemma uniqueByLink_stable_witness :
  uniqueByLink [art_new; art_other] = [art_new; art_other].
Proof.
  apply (proj1 (uniqueByLink_stable [art_new; art_other])).
  repeat constructor; cbn; intuition discriminate.
Defined.

(** ** Invariants of the feed list *)

Lemma retitle_urls (fId t : jsstring) (fs : list Feed) :
  List.map feed_url (retitle fId t fs) = List.map feed_url fs /\
  List.map feed_id (retitle fId t fs) = List.map feed_id fs.
Proof.
  unfold retitle. rewrite !map_map.
  split; apply map_ext; intros f; destruct (_ && _); reflexivity.
Qed.

Lemma retitle_all_urls (captured : list Feed) :
  forall results fs,
    List.map feed_url (retitle_all captured results fs) = List.map feed_url fs /\
    List.map feed_id (retitle_all captured results fs) = List.map feed_id fs.
Proof.
  induction captured as [|f captured IH]; intros results fs;
    [split; reflexivity|].
  destruct results as [|[v|e] results]; cbn [retitle_all];
    [split; reflexivity| |apply IH].
  destruct (IH results (retitle (feed_id f) (r_title v) fs)) as [H1 H2].
  destruct (retitle_urls (feed_id f) (r_title v) fs) as [H3 H4].
  split; congruence.
Qed.

(** X15: no two subscribed feeds ever have the same URL up to a trailing
    slash: [addFeed] refuses such a URL, a refresh changes titles only,
    and [removeFeed] only removes. *)
Theorem feed_urls_stay_distinct (st : AppState) (a : Action) :
  NoDup (feed_keys st) -> NoDup (feed_keys (step st a)).
Proof.
  unfold feed_keys. intros H.
  destruct a as [results|url newId fetched|removed]; cbn [step].
  - unfold refreshFeeds. destruct (feeds st) as [|f fs] eqn:F;
      cbn [feeds]; [exact H|].
    rewrite <- map_map.
    rewrite (proj1 (retitle_all_urls (f :: fs) results (f :: fs))).
    now rewrite map_map.
  - unfold addFeed.
    destruct (existsb _ (feeds st)) eqn:E; [exact H|]. cbn [feeds].
    rewrite map_app. cbn [List.map].
    apply NoDup_app; [exact H|repeat constructor; intros []|].
    intros k Hk [<-|[]].
    apply in_map_iff in Hk as (f & Hf & Hin).
    assert (C : existsb (fun f => str_eqb (strip_slash (feed_url f))
                                          (strip_slash url)) (feeds st) = true).
    { apply existsb_exists. exists f. split; [exact Hin|].
      now apply str_eqb_eq. }
    congruence.
  - unfold removeFeed. cbn [feeds]. now apply NoDup_map_filter.
Qed.

Lemma feed_urls_stay_distinct_witness :
  NoDup (feed_keys (step app0 added)).
Proof.
  apply (feed_urls_stay_distinct app0 added).
  repeat constructor; cbn; intuition discriminate.
Defined.

Lemma uniqueByLink_incl (l : list Article) (x : Article) :
  In x (uniqueByLink l) -> In x l.
Proof.
  intros H. apply uniqueByLink_spec in H.
  now destruct (last_with_link_key _ _ _ H).
Qed.

Lemma collect_stamped (fs : list Feed) (results : list Settled) :
  Forall2 (fun f r =>
             match r with
             | Fulfilled v => Forall (fun x => feedId x = feed_id f) (r_articles v)
             | Rejected _ => True
             end) fs results ->
  forall x, In x (collect_articles results) ->
            In (feedId x) (List.map feed_id fs).
Proof.
  induction 1 as [|f r fs results Hr _ IH]; intros x Hx; [destruct Hx|].
  unfold collect_articles in Hx. cbn [flat_map] in Hx.
  apply in_app_or in Hx as [Hx|Hx].
  - destruct r as [v|e]; [|destruct Hx].
    rewrite Forall_forall in Hr. left. symmetry. now apply Hr.
  - right. now apply IH.
Qed.

(** A refresh during which the feed list did not change is the case
    [captured = feeds st]. *)
Lemma refreshFeeds_settling_current (st : AppState) (results : list Settled) :
  refreshFeeds_settling (feeds st) st results = refreshFeeds st results.
Proof. reflexivity. Qed.

Lemma removeFeed_id_gone (st : AppState) (removed : jsstring) :
  ~ In removed (List.map feed_id (feeds (removeFeed st removed))).
Proof.
  unfold removeFeed. cbn [feeds]. intros H.
  apply in_map_iff in H as (f & Hf & Hin).
  apply filter_In in Hin as [_ Hn]. rewrite Hf, str_eqb_refl in Hn.
  discriminate.
Qed.

(** X16: every stored article belongs to a subscribed feed, and this is
    kept by an addition, by [removeFeed], which takes the articles of the
    feed away with the feed, and by a refresh all of whose feeds are still
    subscribed when its fetches settle.  It is not kept by a refresh that
    settles after one of its feeds has been removed: the refresh stores
    what it fetched for the list it was started with, so the articles of
    the removed feed are stored again, without their feed. *)
Theorem articles_stay_owned (st : AppState) :
  owned st ->
  (forall captured results,
      stamped captured results ->
      incl (List.map feed_id captured) (List.map feed_id (feeds st)) ->
      owned (refreshFeeds_settling captured st results)) /\
  (forall url newId fetched,
      Forall (fun x => feedId x = newId) (r_articles fetched) ->
      owned (addFeed st url newId fetched)) /\
  (forall removed, owned (removeFeed st removed)) /\
  (forall captured results removed x,
      captured <> [] ->
      In x (uniqueByLink (collect_articles results)) ->
      feedId x = removed ->
      let st' := refreshFeeds_settling captured (removeFeed st removed) results in
      In x (articles st') /\
      ~ In removed (List.map feed_id (feeds st')) /\
      ~ owned st').
Proof.
  unfold owned. intros Ho. rewrite Forall_forall in Ho.
  split; [|split; [|split]].
  - intros captured results Hs Hc. rewrite Forall_forall.
    unfold refreshFeeds_settling. destruct captured as [|f fs] eqn:F;
      cbn [feeds articles]; [intros x []|].
    intros x Hx. apply uniqueByLink_incl in Hx.
    rewrite (proj2 (retitle_all_urls (f :: fs) results (feeds st))).
    apply Hc. eapply collect_stamped; eassumption.
  - intros url newId fetched Hs. rewrite Forall_forall.
    unfold addFeed. destruct (existsb _ (feeds st)); [exact Ho|].
    cbn [feeds articles]. intros x Hx. apply uniqueByLink_incl in Hx.
    rewrite map_app. apply in_or_app.
    apply in_app_or in Hx as [Hx|Hx]; [left; now apply Ho|right].
    rewrite Forall_forall in Hs. left. symmetry. now apply Hs.
  - intros removed. rewrite Forall_forall.
    unfold removeFeed. cbn [feeds articles]. intros x Hx.
    apply filter_In in Hx as [Hx Hn].
    apply Ho in Hx. apply in_map_iff in Hx as (f & Hf & Hin).
    apply in_map_iff. exists f. split; [exact Hf|].
    apply filter_In. split; [exact Hin|]. now rewrite Hf.
  - intros captured results removed x Hc Hx Hf. cbv zeta.
    unfold refreshFeeds_settling.
    destruct captured as [|f fs]; [contradiction|]. cbn [feeds articles].
    rewrite (proj2 (retitle_all_urls (f :: fs) results
                      (feeds (removeFeed st removed)))).
    split; [exact Hx|]. split; [apply removeFeed_id_gone|].
    intros H. rewrite Forall_forall in H. apply H in Hx.
    rewrite Hf in Hx. now apply removeFeed_id_gone in Hx.
Qed.

Lemma articles_stay_owned_witness :
  stamped (feeds app2) results2 /\
  owned (refreshFeeds_settling (feeds app2) app2 results2) /\
  ~ owned (refreshFeeds_settling (feeds app2)
             (removeFeed app2 (lit "feed-2")) results2).
Proof.
  assert (Ho : owned app2).
  { unfold owned. vm_compute. repeat constructor; right; left; reflexivity. }
  destruct (articles_stay_owned app2 Ho) as (H1 & _ & _ & H4).
  assert (Hs : stamped (feeds app2) results2)
    by (vm_compute; repeat constructor).
  split; [exact Hs|]. split.
  - apply H1; [exact Hs|]. intros k Hk. exact Hk.
  - apply (H4 (feeds app2) results2 (lit "feed-2") art_other).
    + discriminate.
    + vm_compute. right. left. reflexivity.
    + reflexivity.
Defined.

(** ** Sets of links *)

Lemma set_has_In (s : StrSet) (k : jsstring) : set_has s k = true <-> In k s.
Proof. apply existsb_str_In. Qed.

Lemma set_add_In (s : StrSet) (k k' : jsstring) :
  In k' (set_add s k) <-> In k' s \/ k' = k.
Proof.
  unfold set_add. destruct (set_has s k) eqn:E.
  - apply set_has_In in E. split; [auto|]. intros [H| ->]; assumption.
  - rewrite in_app_iff. cbn [In]. intuition.
Qed.

Lemma set_add_NoDup (s : StrSet) (k : jsstring) :
  NoDup s -> NoDup (set_add s k).
Proof.
  intros H. unfold set_add. destruct (set_has s k) eqn:E; [exact H|].
  apply NoDup_app; [exact H|repeat constructor; intros []|].
  intros x Hx [<-|[]]. apply set_has_In in Hx. congruence.
Qed.

Lemma fold_set_add (A : Type) (f : A -> jsstring) (l : list A) :
  forall s,
    (NoDup s -> NoDup (fold_left (fun acc a => set_add acc (f a)) l s)) /\
    (forall k, In k (fold_left (fun acc a => set_add acc (f a)) l s) <->
               In k s \/ In k (List.map f l)).
Proof.
  induction l as [|a l IH]; intros s; cbn [fold_left List.map In].
  - split; [auto|]. intros k. tauto.
  - destruct (IH (set_add s (f a))) as [IH1 IH2]. split.
    + intros H. apply IH1. now apply set_add_NoDup.
    + intros k. rewrite IH2, set_add_In. intuition.
Qed.

Lemma new_Set_spec (l : list jsstring) :
  NoDup (new_Set l) /\ forall k, In k (new_Set l) <-> In k l.
Proof.
  destruct (fold_set_add jsstring (fun k => k) l []) as [H1 H2].
  unfold new_Set.
  assert (E : fold_left set_add l []
              = fold_left (fun acc a => set_add acc a) l []) by reflexivity.
  rewrite E. split; [apply H1; constructor|].
  intros k. rewrite H2, map_id. cbn [In]. tauto.
Qed.

Lemma set_add_fresh_fold (l : list jsstring) :
  forall s, NoDup (s ++ l) -> fold_left set_add l s = s ++ l.
Proof.
  induction l as [|k l IH]; intros s H; cbn [fold_left].
  - now rewrite app_nil_r.
  - assert (E : set_add s k = s ++ [k]).
    { unfold set_add. destruct (set_has s k) eqn:Hs; [|reflexivity].
      apply set_has_In in Hs. apply NoDup_remove_2 in H.
      exfalso. apply H. apply in_or_app. now left. }
    rewrite E, IH; rewrite <- app_assoc; [reflexivity|exact H].
Qed.

Lemma new_Set_NoDup (l : list jsstring) : NoDup l -> new_Set l = l.
Proof. intros H. unfold new_Set. now rewrite set_add_fresh_fold. Qed.

(** ** Notifications *)

Lemma learn_In (known : StrSet) (unique : list Article) (k : jsstring) :
  In k (learn known unique) <-> In k known \/ In k (List.map link unique).
Proof. apply (fold_set_add Article link unique known). Qed.

Lemma newItems_known (known : StrSet) (unique : list Article) :
  (forall a, In a unique -> In (link a) known) ->
  newItems known unique = [].
Proof.
  intros H. unfold newItems. induction unique as [|a l IH]; [reflexivity|].
  cbn [filter].
  assert (E : set_has known (link a) = true).
  { apply set_has_In. apply H. now left. }
  rewrite E. cbn [negb]. apply IH. intros x Hx. apply H. now right.
Qed.

(** X17: after a refresh and after an addition the link of every stored
    article is among the known links, and a link once known stays known. *)
Theorem stored_links_are_known (st : AppState) (refs : Refs) :
  (forall enabled results,
      feeds st <> [] ->
      let '(st', refs', _) := refreshFeeds_notifying st refs enabled results in
      (forall a, In a (articles st') ->
                 set_has (knownArticleLinks refs') (link a) = true) /\
      (forall k, set_has (knownArticleLinks refs) k = true ->
                 set_has (knownArticleLinks refs') k = true)) /\
  (forall url newId fetched,
      (forall a, In a (articles st) ->
                 set_has (knownArticleLinks refs) (link a) = true) ->
      let '(st', refs') := addFeed_learning st refs url newId fetched in
      (forall a, In a (articles st') ->
                 set_has (knownArticleLinks refs') (link a) = true) /\
      (forall k, set_has (knownArticleLinks refs) k = true ->
                 set_has (knownArticleLinks refs') k = true)).
Proof.
  split.
  - intros enabled results Hf. unfold refreshFeeds_notifying.
    destruct (feeds st) as [|f fs] eqn:F; [contradiction|].
    cbn [knownArticleLinks]. split.
    + intros a Ha. apply set_has_In, learn_In. right. now apply in_map.
    + intros k Hk. apply set_has_In, learn_In. left. now apply set_has_In.
  - intros url newId fetched Hk. unfold addFeed_learning.
    destruct (existsb _ (feeds st)); [split; auto|].
    cbn [knownArticleLinks]. split.
    + intros a Ha. apply set_has_In, learn_In. right. now apply in_map.
    + intros k Hk'. apply set_has_In, learn_In. left. now apply set_has_In.
Qed.

(** X18: the same articles are not announced twice: a refresh that
    follows a refresh with the same settled results shows no
    notification, whether notifications are enabled or not. *)
Theorem repeated_refresh_is_silent
        (st : AppState) (refs : Refs) (enabled enabled' : bool)
        (results : list Settled) :
  let '(st1, refs1, _) := refreshFeeds_notifying st refs enabled results in
  let '(_, _, shown2) := refreshFeeds_notifying st1 refs1 enabled' results in
  shown2 = None.
Proof.
  unfold refreshFeeds_notifying at 1.
  destruct (feeds st) as [|f fs] eqn:F.
  - unfold refreshFeeds_notifying, refreshFeeds. rewrite F. cbn [feeds].
    reflexivity.
  - unfold refreshFeeds_notifying.
    destruct (feeds (refreshFeeds st results)) as [|f' fs'] eqn:F';
      [reflexivity|].
    unfold notification_for. cbn [isFirstLoad knownArticleLinks negb andb].
    assert (E : articles (refreshFeeds (refreshFeeds st results) results)
                = articles (refreshFeeds st results)).
    { unfold refreshFeeds at 1. rewrite F'. unfold refreshFeeds. rewrite F.
      reflexivity. }
    rewrite E, newItems_known.
    + destruct enabled'; reflexivity.
    + intros a Ha. apply learn_In. right. now apply in_map.
Qed.

Lemma stored_links_are_known_witness :
  set_has (knownArticleLinks
             (snd (addFeed_learning app0 (mkRefs [lit "https://x/a"] true)
                                    url_b (lit "feed-2")
                                    (mkResult (lit "More")
                                              [art_new; art_other]))))
          (link art_other) = true.
Proof.
  pose proof (proj2 (stored_links_are_known
                       app0 (mkRefs [lit "https://x/a"] true))
                url_b (lit "feed-2")
                (mkResult (lit "More") [art_new; art_other])) as H.
  destruct (addFeed_learning app0 (mkRefs [lit "https://x/a"] true) url_b
              (lit "feed-2") (mkResult (lit "More") [art_new; art_other]))
    as [st' refs'] eqn:E.
  cbn [snd].
  assert (Ea : articles st' = [art_new; art_other]).
  { vm_compute in E. injection E as <- _. reflexivity. }
  destruct H as [H _]; [intros a [<-|[]]; reflexivity|].
  apply H. rewrite Ea. right. left. reflexivity.
Defined.

(** ** Visited links and the article list *)

Lemma markAsVisited_is_a_set_aux (visitedLinks : StrSet) (visited : jsstring) :
  set_has (markAsVisited visitedLinks visited) visited = true /\
  NoDup (markAsVisited visitedLinks visited).
Proof.
  unfold markAsVisited. destruct (new_Set_spec visitedLinks) as [Hn _].
  split; [apply set_has_In, set_add_In; now right|now apply set_add_NoDup].
Qed.

(** X19: [markAsVisited] keeps a set: the link is visited afterwards,
    every link visited before still is, no link is stored twice, and
    marking a link a second time changes nothing. *)
Theorem markAsVisited_is_a_set (visitedLinks : StrSet) (visited : jsstring) :
  let v := markAsVisited visitedLinks visited in
  set_has v visited = true /\
  (forall k, set_has visitedLinks k = true -> set_has v k = true) /\
  NoDup v /\
  markAsVisited v visited = v.
Proof.
  cbv zeta. unfold markAsVisited.
  destruct (new_Set_spec visitedLinks) as [Hn Hi].
  assert (Hv : NoDup (set_add (new_Set visitedLinks) visited))
    by now apply set_add_NoDup.
  assert (Hh : set_has (set_add (new_Set visitedLinks) visited) visited = true).
  { apply set_has_In, set_add_In. now right. }
  split; [exact Hh|]. split; [|split; [exact Hv|]].
  - intros k Hk. apply set_has_In, set_add_In. left.
    apply Hi. now apply set_has_In.
  - rewrite (new_Set_NoDup _ Hv).
    unfold set_add at 1. now rewrite Hh.
Qed.

Section ArticleListFacts.

Context {P : Platform}.

(** X20: with read articles hidden, an article disappears from the list
    as soon as its link is marked visited, whatever the keyword filter;
    with read articles shown, the visited links do not matter. *)
Theorem visited_articles_are_hidden
        (sortedArticles : list Article) (filterKeywords : jsstring)
        (visitedLinks : StrSet) (visited : jsstring) :
  (forall a,
      In a (filteredArticles sortedArticles filterKeywords true
                             (markAsVisited visitedLinks visited)) ->
      link a <> visited) /\
  (forall other,
      filteredArticles sortedArticles filterKeywords false visitedLinks
      = filteredArticles sortedArticles filterKeywords false other).
Proof.
  split.
  - intros a Ha E. unfold filteredArticles in Ha.
    apply filter_In in Ha as [_ Hs]. unfold shown in Hs.
    destruct (markAsVisited_is_a_set_aux visitedLinks visited) as [Hh _].
    rewrite E, Hh in Hs. cbn [andb] in Hs.
    destruct (truthy (trim filterKeywords) && _); discriminate.
  - intros other. unfold filteredArticles. apply filter_ext.
    intros a. unfold shown. reflexivity.
Qed.

(** X21: a keyword filter that is empty or white space filters nothing:
    with read articles shown, and with read articles hidden right after
    [clearVisitedHistory], the list shows every article, in the order it
    was given. *)
Theorem blank_filter_shows_all
        (sortedArticles : list Article) (filterKeywords : jsstring)
        (visitedLinks : StrSet) :
  trim filterKeywords = [] ->
  filteredArticles sortedArticles filterKeywords false visitedLinks
  = sortedArticles /\
  filteredArticles sortedArticles filterKeywords true
                   (clearVisitedHistory visitedLinks)
  = sortedArticles.
Proof.
  intros Hb. unfold filteredArticles.
  assert (E : forall a hideRead v,
             hideRead = false \/ v = [] ->
             shown filterKeywords hideRead v a = true).
  { intros a hideRead v Hv. unfold shown. rewrite Hb. cbn [truthy andb].
    destruct Hv as [-> | ->]; [reflexivity|].
    cbn [set_has existsb]. now rewrite andb_false_r. }
  split; (induction sortedArticles as [|a l IH]; [reflexivity|]);
    cbn [filter]; rewrite E, IH; auto.
Qed.

End ArticleListFacts.

Lemma blank_filter_shows_all_witness :
  filteredArticles (P := sample_platform net_down)
                   [art_new; art_other] [9%N; 32%N; 160%N] false visited0
  = [art_new; art_other].
Proof.
  apply (blank_filter_shows_all (P := sample_platform net_down)
           [art_new; art_other] [9%N; 32%N; 160%N] visited0).
  reflexivity.
Defined.

(** ** Topics *)

Lemma saveNewTopic_topics (ui : TopicState) :
  topics (saveNewTopic ui) = topics ui \/
  (topics (saveNewTopic ui) = topics ui ++ [trim (newTopicInput ui)] /\
   trim (newTopicInput ui) <> [] /\
   ~ In (trim (newTopicInput ui)) (topics ui)).
Proof.
  unfold saveNewTopic.
  destruct (truthy (trim (newTopicInput ui))) eqn:T; [|now left].
  destruct (existsb _ (topics ui)) eqn:E; [now left|right].
  cbn [andb negb topics]. split; [reflexivity|]. split.
  - intros H. rewrite H in T. discriminate.
  - intros H. apply existsb_str_In in H. congruence.
Qed.

(** X22: the topic chips never show a topic twice and never an empty
    one, whatever the user does: a topic is added only when, trimmed, it
    is not empty and not yet there. *)
Theorem topics_stay_distinct (ui : TopicState) (a : TopicAction) :
  NoDup (topics ui) -> Forall (fun t => t <> []) (topics ui) ->
  NoDup (topics (topic_step ui a)) /\
  Forall (fun t => t <> []) (topics (topic_step ui a)).
Proof.
  intros Hn Hf.
  assert (Hs : NoDup (topics (saveNewTopic ui)) /\
               Forall (fun t => t <> []) (topics (saveNewTopic ui))).
  { destruct (saveNewTopic_topics ui) as [->|(-> & Ht & Hi)]; [now split|].
    split.
    - apply NoDup_app; [exact Hn|repeat constructor; intros []|].
      intros x Hx [<-|[]]. contradiction.
    - apply Forall_app. split; [exact Hf|]. now repeat constructor. }
  destruct a as [topic|topic| |value|key| |value]; cbn [topic_step];
    try (now split); try exact Hs.
  - unfold removeTopic. cbn [topics]. split.
    + now apply NoDup_filter.
    + rewrite Forall_forall in *. intros t Ht.
      apply filter_In in Ht as [Ht _]. now apply Hf.
  - unfold handleKeyDown.
    destruct (str_eqb key (lit "Enter")); [exact Hs|].
    destruct (str_eqb key (lit "Escape")); now split.
Qed.

(** X23: a removed topic is gone from the chips and is never left as the
    active filter, while the other chips and any other active filter stay
    as they are. *)
Theorem removeTopic_deactivates (ui : TopicState) (topic : jsstring) :
  let ui' := removeTopic ui topic in
  ~ In topic (topics ui') /\
  (forall t, t <> topic -> (In t (topics ui') <-> In t (topics ui))) /\
  (topic <> [] -> filterKeywords ui' <> topic) /\
  (filterKeywords ui <> topic -> filterKeywords ui' = filterKeywords ui).
Proof.
  cbv zeta. unfold removeTopic. cbn [topics filterKeywords].
  split; [|split; [|split]].
  - intros H. apply filter_In in H as [_ H].
    now rewrite str_eqb_refl in H.
  - intros t Ht. rewrite filter_In. split; [tauto|].
    intros H. split; [exact H|].
    apply str_eqb_neq in Ht. now rewrite Ht.
  - intros Ht. destruct (str_eqb (filterKeywords ui) topic) eqn:E.
    + congruence.
    + now apply str_eqb_neq.
  - intros H. apply str_eqb_neq in H. now rewrite H.
Qed.

Lemma topics_stay_distinct_witness :
  topics (topic_step ui0 Blur) = [lit "AI"; lit "Apple"; lit "Tesla"] /\
  NoDup (topics (topic_step ui0 Blur)).
Proof.
  split; [reflexivity|].
  apply (topics_stay_distinct ui0 Blur).
  - repeat constructor; cbn; intuition discriminate.
  - repeat constructor; discriminate.
Defined.

(** ** Summaries *)

Section SummaryFacts.

Context {G : GenAI}.

Lemma summarizeContent_truthy (text : jsstring) :
  truthy (summarizeContent text) = true.
Proof.
  unfold summarizeContent.
  destruct (generateContent MODEL _) as [[t|]|e]; try reflexivity.
  unfold opt_or, or_str. destruct (truthy t) eqn:T; [exact T|reflexivity].
Qed.

(** X24: [summarizeContent] always yields a text that is not empty, the
    apology when the service fails and the placeholder when it answers
    without text; and the summary depends on the first 5000 code units
    of the article only. *)
Theorem summarizeContent_total_and_bounded (text : jsstring) :
  summarizeContent text <> [] /\
  summarizeContent text = summarizeContent (slice0 5000 text) /\
  (forall e, generateContent MODEL (PROMPT ++ slice0 5000 text) = GenFailed e ->
             summarizeContent text = APOLOGY) /\
  (generateContent MODEL (PROMPT ++ slice0 5000 text) = Generated None ->
   summarizeContent text = NO_SUMMARY).
Proof.
  split; [|split; [|split]].
  - intros H. pose proof (summarizeContent_truthy text) as T.
    rewrite H in T. discriminate.
  - unfold summarizeContent, slice0. rewrite firstn_firstn.
    now rewrite Nat.min_id.
  - intros e H. unfold summarizeContent. now rewrite H.
  - intros H. unfold summarizeContent. now rewrite H.
Qed.

Lemma lookup_head {A} (k : jsstring) (v : A) (table : list (jsstring * A)) :
  lookup k ((k, v) :: table) = Some v.
Proof. cbn [lookup]. now rewrite str_eqb_refl. Qed.

Lemma summary_step_keeps (articleId : jsstring) (ui : SummaryState)
      (ev : SummaryEvent) :
  opt_truthy (summary_of (summaries ui) articleId) = true ->
  opt_truthy (summary_of (summaries (summary_step ui ev)) articleId) = true.
Proof.
  intros H. destruct ev as [b|b]; cbn [summary_step].
  - unfold handleSummarize.
    destruct (opt_truthy (summary_of (summaries ui) (id b))); exact H.
  - unfold handleSummarize_resumed, summary_of in *. cbn [summaries lookup].
    destruct (str_eqb (id b) articleId); [|exact H].
    cbn [opt_truthy]. apply summarizeContent_truthy.
Qed.

Lemma summary_steps_keep (articleId : jsstring) (later : list SummaryEvent) :
  forall ui,
    opt_truthy (summary_of (summaries ui) articleId) = true ->
    opt_truthy (summary_of (summaries (fold_left summary_step later ui))
                           articleId) = true.
Proof.
  induction later as [|ev later IH]; intros ui H; [exact H|].
  cbn [fold_left]. apply IH. now apply summary_step_keeps.
Qed.

(** X25: [handleSummarize] sends the text of an article unless a summary
    that is not empty is stored for it.  Once the summary of an article
    has arrived, the article has such a summary through everything that
    follows, and every further call for it sends nothing and changes
    nothing.  Before that the one [summarizingId] does not keep a second
    call away: a call for another article enables the button of the
    first again, and a second call for the first sends its text again. *)
Theorem handleSummarize_guard (ui : SummaryState) (a b : Article)
        (later : list SummaryEvent) :
  (snd (handleSummarize ui a) = None <->
   opt_truthy (summary_of (summaries ui) (id a)) = true) /\
  (let ui' := fold_left summary_step later (summary_step ui (Arrived a)) in
   opt_truthy (summary_of (summaries ui') (id a)) = true /\
   summarize_disabled ui' a = true /\
   handleSummarize ui' a = (ui', None)) /\
  (opt_truthy (summary_of (summaries ui) (id a)) = false ->
   opt_truthy (summary_of (summaries ui) (id b)) = false ->
   id b <> id a ->
   let ui1 := fst (handleSummarize ui a) in
   let ui2 := fst (handleSummarize ui1 b) in
   snd (handleSummarize ui a) = Some (summary_input a) /\
   summarize_disabled ui1 a = true /\
   summarize_disabled ui2 a = false /\
   snd (handleSummarize ui2 a) = Some (summary_input a)).
Proof.
  split; [|split].
  - unfold handleSummarize.
    destruct (opt_truthy (summary_of (summaries ui) (id a)));
      cbn [snd]; split; intros H; try reflexivity; discriminate H.
  - cbv zeta.
    assert (H : opt_truthy
                  (summary_of
                     (summaries (fold_left summary_step later
                                   (summary_step ui (Arrived a))))
                     (id a)) = true).
    { apply summary_steps_keep. cbn [summary_step].
      unfold handleSummarize_resumed, summary_of. cbn [summaries].
      rewrite lookup_head. cbn [opt_truthy]. apply summarizeContent_truthy. }
    split; [exact H|]. split.
    + unfold summarize_disabled. now rewrite H.
    + unfold handleSummarize. now rewrite H.
  - intros Ha Hb Hn. cbv zeta. apply str_eqb_neq in Hn.
    assert (E1 : handleSummarize ui a
                 = (mkSummaryState (summaries ui) (Some (id a)),
                    Some (summary_input a)))
      by (unfold handleSummarize; now rewrite Ha).
    rewrite E1. cbn [fst snd].
    assert (E2 : handleSummarize
                   (mkSummaryState (summaries ui) (Some (id a))) b
                 = (mkSummaryState (summaries ui) (Some (id b)),
                    Some (summary_input b)))
      by (unfold handleSummarize; cbn [summaries]; now rewrite Hb).
    rewrite E2. cbn [fst].
    unfold summarize_disabled, handleSummarize. cbn [summaries summarizingId].
    rewrite Ha, str_eqb_refl, Hn. repeat split.
Qed.

End SummaryFacts.

(** ** Feed names *)

Lemma find_by_id (fs : list Feed) (f : Feed) :
  NoDup (List.map feed_id fs) -> In f fs ->
  find (fun g => str_eqb (feed_id g) (feed_id f)) fs = Some f.
Proof.
  induction fs as [|g fs IH]; intros Hn Hin; [destruct Hin|].
  cbn [find]. inversion Hn as [|? ? Hg Hn']; subst.
  destruct Hin as [->|Hin]; [now rewrite str_eqb_refl|].
  destruct (str_eqb (feed_id g) (feed_id f)) eqn:E; [|now apply IH].
  apply str_eqb_eq in E. exfalso. apply Hg. rewrite E. now apply in_map.
Qed.

(** X26: the name shown for the feed of an article is never empty: it is
    the title of the feed with that id when the ids are distinct and the
    title is not empty, and the placeholder once the feed is removed. *)
Theorem getFeedName_never_empty (st : AppState) (fId : jsstring) :
  getFeedName (feeds st) fId <> [] /\
  (forall f, In f (feeds st) -> NoDup (List.map feed_id (feeds st)) ->
             feed_title f <> [] ->
             getFeedName (feeds st) (feed_id f) = feed_title f) /\
  getFeedName (feeds (removeFeed st fId)) fId = UNKNOWN_SOURCE.
Proof.
  split; [|split].
  - unfold getFeedName, opt_or, or_str.
    destruct (find _ (feeds st)) as [f|]; cbn [option_map]; [|discriminate].
    destruct (feed_title f) as [|c t] eqn:T; cbn [truthy]; discriminate.
  - intros f Hin Hn Ht. unfold getFeedName.
    rewrite (find_by_id _ _ Hn Hin). cbn [option_map opt_or]. unfold or_str.
    destruct (feed_title f); [contradiction|reflexivity].
  - unfold getFeedName, removeFeed. cbn [feeds].
    destruct (find _ (filter _ (feeds st))) as [f|] eqn:F; [|reflexivity].
    apply find_some in F as [F1 F2]. apply filter_In in F1 as [_ F1].
    rewrite F2 in F1. discriminate.
Qed.
